(** * Kosovo customs explorer: the client-side data service

    A shallow embedding of [lib/database.ts] in its three revisions:

    - the MiniSearch revision, keyed by [code] (module [MiniSearchRev]);
    - the FlexSearch revision keyed by [code] with a materialized cache
      (module [FlexCodeRev]);
    - the FlexSearch revision keyed by an auto-increment [id] with explicit
      [parentId] links (module [ParentIdRev]).

    JavaScript strings are modelled by [string] (a sequence of code units,
    here 8-bit), object references by the key under which the object is
    registered in its [Map], [Map]s and [Set]s by [gmap] and [gset]. *)

From Stdlib Require Import ZArith String Ascii List Lia Permutation Sorted.
From stdpp Require Import base option list gmap strings sorting pretty.

Local Open Scope Z_scope.
Set Warnings "-register-all,-notation-for-abbreviation".

(** ** JavaScript primitives *)

Module Js.

(** A JavaScript number. A finite double is [mantissa * 2 ^ exponent]; the
    service never computes with the duty rates, it only stores them. *)
Inductive number :=
| Finite (mantissa exponent : Z)
| NaN
| Infinity (negative : bool).

Definition zero : number := Finite 0 0.

(** [Number.isFinite] *)
Definition isFinite (n : number) : bool :=
  match n with Finite _ _ => true | _ => false end.

(** The primitive values a field of the bundled JSON dataset can hold; a
    missing property reads as [JUndefined]. *)
Inductive value :=
| JUndefined
| JNull
| JBool (b : bool)
| JNumber (n : number)
| JString (s : string).

(** [v == null] *)
Definition isNullish (v : value) : bool :=
  match v with JUndefined | JNull => true | _ => false end.

(** [v ?? d] *)
Definition nullish (v d : value) : value := if isNullish v then d else v.

(** The two conversions of the host the service relies on and this
    development leaves open: parsing a string as a number and printing a
    number. *)
Record Host := mkHost {
  StringToNumber : string → number;
  NumberToString : number → string
}.

(** [Number(v)] *)
Definition ToNumber (host : Host) (v : value) : number :=
  match v with
  | JUndefined => NaN
  | JNull => zero
  | JBool b => if b then Finite 1 0 else zero
  | JNumber n => n
  | JString s => StringToNumber host s
  end.

(** [String(v)] *)
Definition ToString (host : Host) (v : value) : string :=
  match v with
  | JUndefined => "undefined"
  | JNull => "null"
  | JBool b => if b then "true" else "false"
  | JNumber n => NumberToString host n
  | JString s => s
  end.

(** [a < b] on strings: lexicographic on code units. *)
Definition str_lt (a b : string) : bool :=
  match String.compare a b with Lt => true | _ => false end.

(** [s.startsWith(p)] *)
Definition startsWith (s p : string) : bool := String.prefix p s.

(** [s.slice(0, i)] for [0 <= i]. *)
Fixpoint slice0 (s : string) (i : nat) : string :=
  match i, s with
  | S i', String c s' => String c (slice0 s' i')
  | _, _ => EmptyString
  end.

(** White space and line terminators removed by [String.prototype.trim]
    (those below 256). *)
Definition isWhiteSpace (c : ascii) : bool :=
  let n := N_of_ascii c in
  ((9 <=? n) && (n <=? 13))%N || (n =? 32)%N || (n =? 160)%N.

Fixpoint trimStart (s : string) : string :=
  match s with
  | String c s' => if isWhiteSpace c then trimStart s' else s
  | EmptyString => EmptyString
  end.

Fixpoint trimEnd (s : string) : string :=
  match s with
  | String c s' =>
      match trimEnd s' with
      | EmptyString => if isWhiteSpace c then EmptyString else String c EmptyString
      | t => String c t
      end
  | EmptyString => EmptyString
  end.

Definition trim (s : string) : string := trimEnd (trimStart s).

(** [arr.slice(0, end)]: a negative [end] counts from the end of the array. *)
Definition sliceTo {A} (arr : list A) (end_ : Z) : list A :=
  let len := Z.of_nat (length arr) in
  let final := if end_ <? 0 then Z.max (len + end_) 0 else Z.min end_ len in
  take (Z.to_nat final) arr.

(** [arr.slice(start, end)] for [0 <= start <= end]. *)
Definition sliceNat {A} (arr : list A) (start end_ : nat) : list A :=
  take (end_ - start)%nat (drop start arr).

(** [Array.prototype.sort(cmp)] is stable: [x], which stands before every
    element of [l], goes before the first element it does not exceed. *)
Fixpoint insertSorted {A} (cmp : A → A → Z) (x : A) (l : list A) : list A :=
  match l with
  | [] => [x]
  | y :: l' => if cmp x y <=? 0 then x :: l else y :: insertSorted cmp x l'
  end.

Fixpoint sort {A} (cmp : A → A → Z) (l : list A) : list A :=
  match l with
  | [] => []
  | x :: l' => insertSorted cmp x (sort cmp l')
  end.

End Js.

(** ** Hierarchy builder

    The three revisions of [buildTreeFromList] share their three passes and
    differ in the key of a row, in the parent a row names and in the
    comparator. A node object is identified by the key under which the first
    pass registers it; [subRows] and [roots] hold such references, so a node
    pushed twice is the same object twice. *)

Section HierarchyBuilder.
Context {K Row : Type} `{Countable K}.
Variable key : Row → K.
Variable parentOf : Row → option K.
Variable cmp : Row → Row → Z.

Record TreeObject := mkTreeObject { obj_row : Row; obj_subRows : list K }.

(** [for (const row of list) byKey.set(key, { ...row, subRows: [] })] *)
Definition createNodes (rows : list Row) : gmap K TreeObject :=
  foldl (λ byKey row, <[key row := mkTreeObject row []]> byKey) ∅ rows.

Definition pushSubRow (node : K) (o : TreeObject) : TreeObject :=
  mkTreeObject (obj_row o) (obj_subRows o ++ [node]).

(** One iteration of the second pass. *)
Definition attachNode (acc : gmap K TreeObject * list K) (row : Row)
  : gmap K TreeObject * list K :=
  let '(byKey, roots) := acc in
  let node := key row in
  match parentOf row with
  | Some parent =>
      if decide (is_Some (byKey !! parent))
      then (alter (pushSubRow node) parent byKey, roots)
      else (byKey, roots ++ [node])
  | None => (byKey, roots ++ [node])
  end.

Definition attachNodes (byKey : gmap K TreeObject) (rows : list Row)
  : gmap K TreeObject * list K :=
  foldl attachNode (byKey, []) rows.

(** The comparator applied to two node references. *)
Definition cmpNodes (byKey : gmap K TreeObject) (a b : K) : Z :=
  match byKey !! a, byKey !! b with
  | Some x, Some y => cmp (obj_row x) (obj_row y)
  | _, _ => 0
  end.

(** [if (node.subRows.length > 1) node.subRows.sort(cmp)] *)
Definition sortSubRows (byKey : gmap K TreeObject) (o : TreeObject) : TreeObject :=
  if (1 <? length (obj_subRows o))%nat
  then mkTreeObject (obj_row o) (Js.sort (cmpNodes byKey) (obj_subRows o))
  else o.

(** The object graph [buildTreeFromList] returns: the sorted [roots] array
    and the node objects it reaches. *)
Definition buildGraph (rows : list Row) : list K * gmap K TreeObject :=
  let '(byKey, roots) := attachNodes (createNodes rows) rows in
  (Js.sort (cmpNodes byKey) roots, sortSubRows byKey <$> byKey).

(** The parent a row resolves to: the key it names, when a row of the list
    carries that key; [None] makes the row a root. *)
Definition resolvedParent (rows : list Row) (r : Row) : option K :=
  match parentOf r with
  | Some p => if decide (p ∈ key <$> rows) then Some p else None
  | None => None
  end.

Definition childrenOf (rows : list Row) (k : K) : list Row :=
  filter (λ r, resolvedParent rows r = Some k) rows.

Definition rootRows (rows : list Row) : list Row :=
  filter (λ r, resolvedParent rows r = None) rows.

(** The returned value read as a finite tree. *)
Inductive TreeNode := mkTreeNode { row : Row; subRows : list TreeNode }.

Fixpoint readNode (fuel : nat) (byKey : gmap K TreeObject) (node : K)
  : option TreeNode :=
  match fuel with
  | O => None
  | S fuel' =>
      o ← byKey !! node;
      children ← mapM (readNode fuel' byKey) (obj_subRows o);
      Some (mkTreeNode (obj_row o) children)
  end.

Definition readForest (fuel : nat) (g : list K * gmap K TreeObject)
  : option (list TreeNode) :=
  mapM (readNode fuel (snd g)) (fst g).

(** Flattening a tree through [subRows]. *)
Fixpoint flatten (t : TreeNode) : list K :=
  key (row t) :: flat_map flatten (subRows t).

(** Every node of a tree, the tree itself first. *)
Fixpoint nodes (t : TreeNode) : list TreeNode :=
  t :: flat_map nodes (subRows t).

End HierarchyBuilder.

Arguments TreeObject : clear implicits.
Arguments TreeNode : clear implicits.
Arguments mkTreeNode {Row}.
Arguments row {Row}.
Arguments subRows {Row}.

(** ** The revisions keyed by [code]

    The MiniSearch revision and the FlexSearch revision of part 7 share the
    record, the comparator ([compareRecords] there, [sortChildren] here, the
    same body), [findParentCode] and [buildTreeFromList]. *)

Module CodeKeyed.

Record CustomsRecord := mkCustomsRecord {
  code : string;
  description : string;
  percentage : Js.number;
  cefta : Js.number;
  msa : Js.number;
  trmtl : Js.number;
  tvsh : Js.number;
  excise : Js.number;
  validFrom : Js.value;
  uomCode : Js.value;
  rootCode : option string;
  highlightedDescription : option string;
  fileUrl : Js.value;
  importMeasure : Js.value;
  exportMeasure : Js.value
}.

Definition CustomsFlatRow := CustomsRecord.
Definition CustomsTreeNode := TreeNode CustomsRecord.

Definition compareRecords (a b : CustomsRecord) : Z :=
  let ac := code a in
  let bc := code b in
  if Js.str_lt ac bc then -1
  else if Js.str_lt bc ac then 1
  else
    let ad := description a in
    let bd := description b in
    if Js.str_lt ad bd then -1
    else if Js.str_lt bd ad then 1
    else 0.

Definition sortChildren := compareRecords.

(** [for (let i = code.length - 1; i > 0; i--)], entered at [i]. *)
Fixpoint findParentCodeFrom (code : string) (codeSet : gset string) (i : nat)
  : option string :=
  match i with
  | O => None
  | S i' =>
      let cand := Js.slice0 code i in
      if decide (cand ∈ codeSet) then Some cand
      else findParentCodeFrom code codeSet i'
  end.

(** The longest proper prefix that exists in the dataset. *)
Definition findParentCode (code : string) (codeSet : gset string) : option string :=
  findParentCodeFrom code codeSet (String.length code - 1).

(** What the comment of [findParentCode] promises, spelled out: [p] is the
    longest non-empty proper prefix of [c] among [codes]. *)
Definition longestProperPrefix (codes : gset string) (p c : string) : Prop :=
  p ∈ codes ∧ String.prefix p c = true ∧
  (0 < String.length p < String.length c)%nat ∧
  ∀ q, q ∈ codes → String.prefix q c = true →
       (0 < String.length q < String.length c)%nat →
       (String.length q ≤ String.length p)%nat.

Definition presentCodes (rows : list CustomsFlatRow) : gset string :=
  list_to_set (code <$> rows).

Definition buildTreeFromList (rows : list CustomsFlatRow)
  : list string * gmap string (TreeObject string CustomsRecord) :=
  buildGraph code (λ row, findParentCode (code row) (presentCodes rows))
    compareRecords rows.

(** The forest a caller walks through [subRows], cut off at depth [fuel]. *)
Definition treeOf (fuel : nat) (rows : list CustomsFlatRow)
  : option (list CustomsTreeNode) :=
  readForest fuel (buildTreeFromList rows).

(** A record of the bundled dataset before coercion. *)
Record RawRecord := mkRawRecord {
  raw_code : Js.value;
  raw_description : Js.value;
  raw_percentage : Js.value;
  raw_cefta : Js.value;
  raw_msa : Js.value;
  raw_trmtl : Js.value;
  raw_tvsh : Js.value;
  raw_excise : Js.value;
  raw_validFrom : Js.value;
  raw_uomCode : Js.value;
  raw_fileUrl : Js.value;
  raw_importMeasure : Js.value;
  raw_exportMeasure : Js.value
}.

(** [v == null ? "" : String(v)] *)
Definition stringOrEmpty (host : Js.Host) (v : Js.value) : string :=
  if Js.isNullish v then "" else Js.ToString host v.

(** [Number.isFinite(Number(v)) ? Number(v) : 0] *)
Definition finiteOrZero (host : Js.Host) (v : Js.value) : Js.number :=
  if Js.isFinite (Js.ToNumber host v) then Js.ToNumber host v else Js.zero.

(** The [// Normalize] step of [initializeData]. *)
Definition normalize (host : Js.Host) (d : RawRecord) : CustomsRecord :=
  {| code := stringOrEmpty host (raw_code d);
     description := stringOrEmpty host (raw_description d);
     percentage := finiteOrZero host (raw_percentage d);
     cefta := finiteOrZero host (raw_cefta d);
     msa := finiteOrZero host (raw_msa d);
     trmtl := finiteOrZero host (raw_trmtl d);
     tvsh := finiteOrZero host (raw_tvsh d);
     excise := finiteOrZero host (raw_excise d);
     validFrom := Js.nullish (raw_validFrom d) (Js.JString "");
     uomCode := Js.nullish (raw_uomCode d) Js.JNull;
     rootCode := None;
     highlightedDescription := None;
     fileUrl := Js.nullish (raw_fileUrl d) Js.JNull;
     importMeasure := Js.nullish (raw_importMeasure d) Js.JNull;
     exportMeasure := Js.nullish (raw_exportMeasure d) Js.JNull |}.

Definition withRootCode (root : option string) (r : CustomsRecord) : CustomsRecord :=
  {| code := code r; description := description r; percentage := percentage r;
     cefta := cefta r; msa := msa r; trmtl := trmtl r; tvsh := tvsh r;
     excise := excise r; validFrom := validFrom r; uomCode := uomCode r;
     rootCode := root; highlightedDescription := highlightedDescription r;
     fileUrl := fileUrl r; importMeasure := importMeasure r;
     exportMeasure := exportMeasure r |}.

Definition withHighlightedDescription (h : option string) (r : CustomsRecord)
  : CustomsRecord :=
  {| code := code r; description := description r; percentage := percentage r;
     cefta := cefta r; msa := msa r; trmtl := trmtl r; tvsh := tvsh r;
     excise := excise r; validFrom := validFrom r; uomCode := uomCode r;
     rootCode := rootCode r; highlightedDescription := h;
     fileUrl := fileUrl r; importMeasure := importMeasure r;
     exportMeasure := exportMeasure r |}.

End CodeKeyed.


(** ** Effects

    The service awaits storage and index operations on one thread; a
    computation is a function of the world that completes normally, throws,
    or is cut off when a loop has used its fuel. *)

Module Eff.

Inductive JsError :=
| NoWindow          (* "Customs database is only available in the browser." *)
| StorageError      (* a rejected IndexedDB request *)
| ConstraintError   (* a key added twice *)
| ImportError       (* the bundled dataset could not be loaded *)
| IndexError        (* the search library threw *)
| RangeError        (* maximum call stack size exceeded *)
| Thrown (what : string).   (* a value thrown by code of the caller *)

Inductive Completion (A : Type) :=
| Normal (a : A)
| Throw (e : JsError)
| OutOfFuel.

Arguments Normal {A}.
Arguments Throw {A}.
Arguments OutOfFuel {A}.

Definition M (W A : Type) : Type := W → Completion A * W.

Definition ret {W A} (a : A) : M W A := λ w, (Normal a, w).

Definition bind {W A B} (m : M W A) (k : A → M W B) : M W B :=
  λ w, match m w with
       | (Normal a, w') => k a w'
       | (Throw e, w') => (Throw e, w')
       | (OutOfFuel, w') => (OutOfFuel, w')
       end.

Definition throw {W A} (e : JsError) : M W A := λ w, (Throw e, w).

Definition outOfFuel {W A} : M W A := λ w, (OutOfFuel, w).

(** [try { body } catch (error) { handler }] *)
Definition try_catch {W A} (body : M W A) (handler : JsError → M W A) : M W A :=
  λ w, match body w with
       | (Throw e, w') => handler e w'
       | r => r
       end.

Definition gets {W A} (f : W → A) : M W A := λ w, (Normal (f w), w).

Definition modify {W} (f : W → W) : M W unit := λ w, (Normal tt, f w).

(** [Promise.all(xs.map(f))] of computations that only read. *)
Fixpoint mapM {W A B} (f : A → M W B) (xs : list A) : M W (list B) :=
  match xs with
  | [] => ret []
  | x :: xs' => bind (f x) (λ y, bind (mapM f xs') (λ ys, ret (y :: ys)))
  end.

End Eff.

(** The sequencing of awaited steps, in stdpp's monad notation
    [x ← m; k] and [m;; k]. *)
Global Instance M_ret {W} : MRet (Eff.M W) := λ A, Eff.ret.
Global Instance M_bind {W} : MBind (Eff.M W) := λ A B k m, Eff.bind m k.

(** ** The world of the service *)

Inductive InitializationPhase :=
| LoadData | Indexing | Done | Cached | Error.

(** The message templates of [initializeData], with the numbers they format. *)
Inductive Message :=
| MsgFound (existing : Z)            (* "U gjetën N rreshta ekzistues." *)
| MsgLoading                         (* "Duke ngarkuar të dhënat e tarifave..." *)
| MsgIndexing (loaded total : Z)     (* "Duke indeksuar L / T rreshta..." *)
| MsgDone                            (* "Indeksimi i të dhënave u përfundua." *)
| MsgFailed.                         (* "Indeksimi dështoi. ..." *)

Record InitializationProgress := mkProgress {
  phase : InitializationPhase;
  loaded : Z;
  total : Z;
  message : Message
}.

(** A line written to the console. *)
Inductive Diagnostic :=
| ErrorInitializing (e : Eff.JsError)   (* "Error initializing database:" *)
| ErrorFetchingAll (e : Eff.JsError)    (* "Error fetching all data:" *)
| ErrorBuildingCache (e : Eff.JsError)  (* "Error building data cache:" *)
| SearchFailed (idPrefix descQuery : string) (e : Eff.JsError)
| WarnNoData.                           (* "No data available for search" *)

Section World.
Context {Raw Row Cache Index : Type}.

Record World := mkWorld {
  window : bool;                 (* [typeof window !== "undefined"] *)
  dataset : list Raw;            (* the bundled [tarrifs.json] *)
  table : list Row;              (* the rows of [db.customs] *)
  faults : list bool;            (* whether the next awaited operations reject *)
  stackLimit : nat;              (* the depth of the call stack *)
  console : list Diagnostic;
  progress : list InitializationProgress;    (* the reports [onProgress] was given *)
  allData : option Cache;        (* the materialized cache, [null] as [None] *)
  descriptionIndex : option Index;
  writes : nat                   (* how many [clear] and [bulkAdd] calls ran *)
}.

Definition setTable (t : list Row) (w : World) : World :=
  mkWorld (window w) (dataset w) t (faults w) (stackLimit w) (console w)
    (progress w) (allData w) (descriptionIndex w) (writes w).

Definition setFaults (f : list bool) (w : World) : World :=
  mkWorld (window w) (dataset w) (table w) f (stackLimit w) (console w)
    (progress w) (allData w) (descriptionIndex w) (writes w).

Definition setConsole (c : list Diagnostic) (w : World) : World :=
  mkWorld (window w) (dataset w) (table w) (faults w) (stackLimit w) c
    (progress w) (allData w) (descriptionIndex w) (writes w).

Definition setProgress (p : list InitializationProgress) (w : World) : World :=
  mkWorld (window w) (dataset w) (table w) (faults w) (stackLimit w) (console w)
    p (allData w) (descriptionIndex w) (writes w).

Definition setAllData (c : option Cache) (w : World) : World :=
  mkWorld (window w) (dataset w) (table w) (faults w) (stackLimit w) (console w)
    (progress w) c (descriptionIndex w) (writes w).

Definition setWrites (n : nat) (w : World) : World :=
  mkWorld (window w) (dataset w) (table w) (faults w) (stackLimit w) (console w)
    (progress w) (allData w) (descriptionIndex w) n.

Definition setDescriptionIndex (i : option Index) (w : World) : World :=
  mkWorld (window w) (dataset w) (table w) (faults w) (stackLimit w) (console w)
    (progress w) (allData w) i (writes w).

(** An awaited operation of a library: it rejects with [e] when the fault
    plan says so, and runs otherwise. *)
Definition awaited {A} (e : Eff.JsError) (run : Eff.M World A) : Eff.M World A :=
  λ w, match faults w with
       | true :: rest => (Eff.Throw e, setFaults rest w)
       | false :: rest => run (setFaults rest w)
       | [] => run w
       end.

(** [console.error] and [console.warn] *)
Definition log (d : Diagnostic) : Eff.M World unit :=
  Eff.modify (λ w, setConsole (console w ++ [d]) w).

(** The caller's [onProgress]: a function that is handed a report and
    returns or throws. What it does may depend on the reports made before;
    it is given all of them, the last one being the report of this call.
    It is taken to touch the service in no other way: it calls no method of
    it and does not write to the database. *)
Definition ProgressCallback : Type :=
  list InitializationProgress → option Eff.JsError.

(** [onProgress?.({ phase, loaded, total, message })]: nothing happens
    without a callback; a callback is called with the report, and what it
    throws is thrown on. *)
Definition onProgress (callback : option ProgressCallback)
    (ph : InitializationPhase) (l t : Z) (m : Message) : Eff.M World unit :=
  match callback with
  | None => Eff.ret tt
  | Some f =>
      Eff.bind (Eff.modify (λ w, setProgress (progress w ++ [mkProgress ph l t m]) w))
        (λ _, Eff.bind (Eff.gets progress)
                (λ reports, match f reports with
                            | Some e => Eff.throw e
                            | None => Eff.ret tt
                            end))
  end.

(** [getDb()] *)
Definition getDb : Eff.M World unit :=
  λ w, if window w then (Eff.Normal tt, w) else (Eff.Throw Eff.NoWindow, w).

(** *** The Dexie table [db.customs] with primary key [key] *)

Context {Key : Type} `{EqDecision Key}.
Variable key : Row → Key.
Variable codeOf : Row → string.

(** [db.customs.count()] *)
Definition count : Eff.M World Z :=
  awaited Eff.StorageError (Eff.gets (λ w, Z.of_nat (length (table w)))).

(** [db.customs.clear()] *)
Definition clear : Eff.M World unit :=
  awaited Eff.StorageError
    (Eff.modify (λ w, setWrites (S (writes w)) (setTable [] w))).

(** The rows of a chunk whose key is not taken yet, and whether one was. *)
Fixpoint addRows (t : list Row) (chunk : list Row) : list Row * bool :=
  match chunk with
  | [] => (t, false)
  | r :: chunk' =>
      if decide (key r ∈ key <$> t)
      then let '(t', _) := addRows t chunk' in (t', true)
      else addRows (t ++ [r]) chunk'
  end.

(** [db.customs.bulkAdd(chunk)]: the rows whose key is free are added, and
    the call rejects when a key was taken. *)
Definition bulkAdd (chunk : list Row) : Eff.M World unit :=
  awaited Eff.StorageError
    (λ w, let '(t', clash) := addRows (table w) chunk in
          (if clash then Eff.Throw Eff.ConstraintError else Eff.Normal tt,
           setWrites (S (writes w)) (setTable t' w))).

(** [db.transaction("rw", db.customs, body)]: the table is as before
    unless the body completes and the transaction commits. *)
Definition transaction {A} (body : Eff.M World A) : Eff.M World A :=
  λ w, match body w with
       | (Eff.Normal a, w') =>
           match awaited Eff.StorageError (Eff.ret a) w' with
           | (Eff.Normal a', w'') => (Eff.Normal a', w'')
           | (r, w'') => (r, setTable (table w) w'')
           end
       | (r, w') => (r, setTable (table w) w')
       end.

(** The order of the index on [code]; rows of one code keep their order. *)
Definition byCodeOrder (a b : Row) : Z :=
  if Js.str_lt (codeOf a) (codeOf b) then -1
  else if Js.str_lt (codeOf b) (codeOf a) then 1 else 0.

(** [db.customs.orderBy("code").toArray()] *)
Definition toArrayByCode : Eff.M World (list Row) :=
  awaited Eff.StorageError (Eff.gets (λ w, Js.sort byCodeOrder (table w))).

(** [db.customs.where("code").startsWith(prefix).toArray()] *)
Definition whereCodeStartsWith (prefix : string) : Eff.M World (list Row) :=
  awaited Eff.StorageError
    (Eff.gets (λ w, filter (λ r, Js.startsWith (codeOf r) prefix = true)
                      (Js.sort byCodeOrder (table w)))).

(** [db.customs.where("code").startsWith(prefix).limit(n).primaryKeys()]:
    the index on [code] lists the rows in the order of their codes, and the
    rows of one code in the order of their primary keys ([keyOrder]). *)
Definition primaryKeysStartingWith (keyOrder : Row → Row → Z) (prefix : string) (n : Z)
  : Eff.M World (list Key) :=
  awaited Eff.StorageError
    (Eff.gets (λ w, key <$> take (Z.to_nat n)
                      (filter (λ r, Js.startsWith (codeOf r) prefix = true)
                         (Js.sort byCodeOrder (Js.sort keyOrder (table w)))))).

(** [db.customs.get(k)] *)
Definition getByKey (k : Key) : Eff.M World (option Row) :=
  awaited Eff.StorageError
    (Eff.gets (λ w, head (filter (λ r, key r = k) (table w)))).

(** [await import("@/data/tarrifs.json")] *)
Definition importDataset : Eff.M World (list Raw) :=
  awaited Eff.ImportError (Eff.gets dataset).

End World.

Arguments World : clear implicits.

(** ** The FlexSearch revisions

    The two revisions with a materialized cache differ in the key of a row
    ([id] or [code]), in the way a root is derived and in the fields
    [initializeData] coerces; the service around them is the same text. *)

(** What [index.search] may return, as far as [extractFlexDocHits] looks. *)
Inductive RawId := NoId | NumberId (n : Z) | StringId (s : string).

Inductive RawNode :=
| RFalsy                        (* [null], [undefined], [false] *)
| RArray (items : list RawNode)
| RNumber (n : Z)
| RString (s : string)
| RObject (id : RawId) (highlight docHighlight : option string)
    (result hits : option (list RawNode))
| ROther.                       (* [true], a function, a symbol *)

Module Flex.

Section FlexService.
Context {Raw Row Key : Type} `{Countable Key}.
Variable key : Row → Key.
Variable codeOf : Row → string.
Variable descriptionOf : Row → string.
(** [row.rootId] or [row.rootCode] *)
Variable rootOf : Row → option Key.
Variable highlightedDescriptionOf : Row → option string.
(** [{ ...row, highlightedDescription: h }] *)
Variable withHighlightedDescription : option string → Row → Row.
(** The order of the primary key, in which [toArray] lists the table. *)
Variable keyOrder : Row → Row → Z.
(** The coercion of one record of the dataset. *)
Variable normalize : Raw → Row.
(** The key a numeric or string id of a search result stands for. *)
Variable keyOfNumber : Z → option Key.
Variable keyOfString : string → option Key.

Record CachedData := mkCachedData {
  cache : list Row;
  byKey : gmap Key Row;
  byRoot : gmap Key (list Row);
  rootOrder : list Key
}.

(** [buildCachedData], [None] when the call stack is exhausted. *)
Variable buildCachedData : nat → list Row → option CachedData.

(** The documents added to the index. *)
Definition FlexIndex : Type := list (Key * string).

(** [index.search(query, { limit, highlight, enrich, pluck })] *)
Variable flexSearch : FlexIndex → string → option Z → RawNode.

Definition FlexDocHit : Type := Key * option string.

Definition hitOf (id : RawId) (highlight : option string) : list FlexDocHit :=
  match id with
  | NoId => []
  | NumberId n => match keyOfNumber n with Some k => [(k, highlight)] | None => [] end
  | StringId s => match keyOfString s with Some k => [(k, highlight)] | None => [] end
  end.

(** The hits [visit] pushes, in order. *)
Fixpoint visit (node : RawNode) : list FlexDocHit :=
  match node with
  | RFalsy => []
  | RArray items => flat_map visit items
  | RNumber n => if n =? 0 then [] else hitOf (NumberId n) None
  | RString s => if decide (s = "") then [] else hitOf (StringId s) None
  | RObject id highlight docHighlight result hits =>
      hitOf id (match highlight with Some h => Some h | None => docHighlight end)
      ++ match result with Some items => flat_map visit items | None => [] end
      ++ match hits with Some items => flat_map visit items | None => [] end
  | ROther => []
  end.

Definition truthy (s : option string) : bool :=
  match s with Some s => negb (String.eqb s "") | None => false end.

(** One step of the de-duplication: the first entry of an id stays in
    place and takes the first highlight that comes for it. *)
Fixpoint dedupStep (dedup : list FlexDocHit) (h : FlexDocHit) : list FlexDocHit :=
  match dedup with
  | [] => [h]
  | (id, highlight) :: rest =>
      if decide (id = fst h)
      then (if negb (truthy highlight) && truthy (snd h)
            then (id, snd h) else (id, highlight)) :: rest
      else (id, highlight) :: dedupStep rest h
  end.

Definition extractFlexDocHits (raw : RawNode) : list FlexDocHit :=
  foldl dedupStep [] (visit raw).

Notation ServiceWorld := (World Raw Row CachedData FlexIndex).
Notation Service := (Eff.M ServiceWorld).

Definition INDEX_CHUNK_SIZE : nat := 2000.
Definition CODE_SEARCH_MULTIPLIER : Z := 4.
Definition DESC_SEARCH_MULTIPLIER : Z := 6.
Definition MAX_ALL_DATA_LIMIT : Z := 10000.

Definition resetCaches : Service unit :=
  Eff.modify (λ w, setDescriptionIndex None (setAllData None w)).

(** [db.customs.toArray()] *)
Definition toArray : Service (list Row) :=
  awaited Eff.StorageError (Eff.gets (λ w, Js.sort keyOrder (table w))).

(** The chunked inserts of [initializeData], entered at [start]. *)
Fixpoint addChunks (callback : option ProgressCallback) (fuel : nat)
    (normalized : list Row) (start : nat) : Service unit :=
  if decide (start < length normalized)%nat then
    match fuel with
    | O => Eff.outOfFuel
    | S fuel' =>
        let chunk := Js.sliceNat normalized start (start + INDEX_CHUNK_SIZE) in
        bulkAdd key chunk;;
        let loaded := Nat.min (start + length chunk) (length normalized) in
        onProgress callback Indexing (Z.of_nat loaded) (Z.of_nat (length normalized))
          (MsgIndexing (Z.of_nat loaded) (Z.of_nat (length normalized)));;
        addChunks callback fuel' normalized (start + INDEX_CHUNK_SIZE)
    end
  else mret tt.

(** [initializeData({ force = false, onProgress })], [callback] being the
    [onProgress] of the caller. *)
Definition initializeData (force : bool) (callback : option ProgressCallback)
  : Service bool :=
  hasWindow ← Eff.gets window;
  if negb hasWindow then mret false else
  Eff.try_catch
    (getDb;;
     existing ← count;
     if negb force && (0 <? existing) then
       resetCaches;;
       onProgress callback Cached existing existing (MsgFound existing);;
       mret false
     else
       onProgress callback LoadData 0 0 MsgLoading;;
       data ← importDataset;
       let total := Z.of_nat (length data) in
       onProgress callback Indexing 0 total (MsgIndexing 0 total);;
       let normalized := normalize <$> data in
       transaction (clear;; addChunks callback (length normalized) normalized 0);;
       resetCaches;;
       onProgress callback Done total total MsgDone;;
       mret true)
    (λ error,
       log (ErrorInitializing error);;
       onProgress callback Error 0 0 MsgFailed;;
       mret false).

Definition emptyCachedData : CachedData := mkCachedData [] ∅ ∅ [].

Definition ensureAllDataCache : Service (list Row) :=
  cached ← Eff.gets allData;
  match cached with
  | Some c => mret (cache c)
  | None =>
      hasWindow ← Eff.gets window;
      if negb hasWindow then mret [] else
      Eff.try_catch
        (getDb;;
         rows ← toArray;
         limit ← Eff.gets stackLimit;
         match buildCachedData limit rows with
         | None => Eff.throw Eff.RangeError
         | Some c => Eff.modify (setAllData (Some c));; mret (cache c)
         end)
        (λ error,
           log (ErrorBuildingCache error);;
           Eff.modify (setAllData (Some emptyCachedData));;
           mret [])
  end.

Definition ensureDescriptionIndex : Service FlexIndex :=
  existing ← Eff.gets descriptionIndex;
  match existing with
  | Some index => mret index
  | None =>
      data ← ensureAllDataCache;
      index ← awaited Eff.IndexError (mret ((λ r, (key r, descriptionOf r)) <$> data));
      Eff.modify (setDescriptionIndex (Some index));;
      mret index
  end.

Definition getAllData : Service (list Row) :=
  Eff.try_catch
    (cache ← ensureAllDataCache; mret cache)
    (λ error, log (ErrorFetchingAll error);; mret []).

Definition searchByCode (codePrefix : string) (parentLimit : Z)
  : Service (gset Key) :=
  getDb;;
  ids ← primaryKeysStartingWith key codeOf keyOrder codePrefix
           (parentLimit * CODE_SEARCH_MULTIPLIER);
  mret (list_to_set ids).

Definition searchByDescriptionHits (query : string) (itemLimit : Z)
  : Service (list FlexDocHit) :=
  index ← ensureDescriptionIndex;
  data ← ensureAllDataCache;
  let dataLength := Z.of_nat (length data) in
  let m := Z.min (itemLimit * DESC_SEARCH_MULTIPLIER) dataLength in
  let searchLimit := if m =? 0 then None else Some m in
  raw ← awaited Eff.IndexError (mret (flexSearch index query searchLimit));
  mret (extractFlexDocHits raw).

Definition intersect (a b : option (gset Key)) : gset Key :=
  match a, b with
  | Some a, Some b => filter (λ id, id ∈ b) a
  | Some a, None => a
  | None, Some b => b
  | None, None => ∅
  end.

(** [{ ...row, highlightedDescription: highlightById.get(row.id) ??
    row.highlightedDescription ?? null }] *)
Definition resultRow (highlightById : gmap Key string) (row : Row) : Row :=
  withHighlightedDescription
    (match highlightById !! key row with
     | Some h => Some h
     | None => highlightedDescriptionOf row
     end) row.

(** The inner loop over the rows of one root; [true] when it returned. *)
Fixpoint emitRows (highlightById : gmap Key string) (itemLimit : Z)
    (rowsForRoot : list Row) (results : list Row) : list Row * bool :=
  match rowsForRoot with
  | [] => (results, false)
  | row :: rest =>
      let results' := results ++ [resultRow highlightById row] in
      if itemLimit <=? Z.of_nat (length results') then (results', true)
      else emitRows highlightById itemLimit rest results'
  end.

Fixpoint emitRoots (c : CachedData) (matchedRoots : gset Key)
    (highlightById : gmap Key string) (itemLimit : Z)
    (roots : list Key) (results : list Row) : list Row :=
  match roots with
  | [] => results
  | rootId :: rest =>
      if decide (rootId ∈ matchedRoots) then
        match byRoot c !! rootId with
        | None => emitRoots c matchedRoots highlightById itemLimit rest results
        | Some rowsForRoot =>
            let '(results', returned) :=
              emitRows highlightById itemLimit rowsForRoot results in
            if returned then results'
            else emitRoots c matchedRoots highlightById itemLimit rest results'
        end
      else emitRoots c matchedRoots highlightById itemLimit rest results
  end.

(** [matchedRootIds]: the roots of the ids the cache knows. *)
Definition matchedRootsOf (c : CachedData) (ids : gset Key) : gset Key :=
  list_to_set
    (omap (λ id, match byKey c !! id with
                 | Some row => Some (default (key row) (rootOf row))
                 | None => None
                 end) (elements ids)).

Definition buildSearchResults (ids : gset Key) (highlightById : gmap Key string)
    (itemLimit : Z) : Service (list Row) :=
  cached ← Eff.gets allData;
  match cached with
  | None => mret []
  | Some c =>
      let matchedRoots := matchedRootsOf c ids in
      if decide (size matchedRoots = 0%nat) then mret []
      else mret (emitRoots c matchedRoots highlightById itemLimit (rootOrder c) [])
  end.

(** [highlightById]: the truthy highlights of the hits, the last one of an
    id winning. *)
Definition highlightsOf (hits : list FlexDocHit) : gmap Key string :=
  foldl (λ m h, match snd h with
                | Some s => if truthy (Some s) then <[fst h := s]> m else m
                | None => m
                end) ∅ hits.

Definition searchByFields (idPrefix descQuery : string) (parentLimit itemLimit : Z)
  : Service (list Row) :=
  hasWindow ← Eff.gets window;
  if negb hasWindow then mret [] else
  Eff.try_catch
    (let codePrefix := Js.trim idPrefix in
     let descQueryTrimmed := Js.trim descQuery in
     let hasCodeQuery := (0 <? String.length codePrefix)%nat in
     let hasDescQuery := (0 <? String.length descQueryTrimmed)%nat in
     if negb hasCodeQuery && negb hasDescQuery then
       allData ← getAllData;
       mret (Js.sliceTo allData (Z.min itemLimit MAX_ALL_DATA_LIMIT))
     else
       data ← ensureAllDataCache;
       if decide (length data = 0%nat) then log WarnNoData;; mret [] else
       codeIds ← (if hasCodeQuery
                  then ids ← searchByCode codePrefix parentLimit; mret (Some ids)
                  else mret None);
       descHits ← (if hasDescQuery
                   then hits ← searchByDescriptionHits descQueryTrimmed itemLimit;
                        mret (Some hits)
                   else mret None);
       let highlightById := highlightsOf (default [] descHits) in
       let descIds := (λ hits, list_to_set (fst <$> hits)) <$> descHits in
       let finalIds := intersect codeIds descIds in
       if decide (size finalIds = 0%nat) then mret []
       else buildSearchResults finalIds highlightById itemLimit)
    (λ error, log (SearchFailed idPrefix descQuery error);; mret []).

End FlexService.

End Flex.

(** ** The FlexSearch revision keyed by [code] (part 7) *)

Module FlexCodeRev.
Export CodeKeyed.

(** The [while (curr)] walk of [findRoot]; [None] when the fuel is used up. *)
Fixpoint findRootWalk (fuel : nat) (codeSet : gset string)
    (curr : option string) (last : string) : option string :=
  match curr with
  | None => Some last
  | Some c =>
      match fuel with
      | O => None
      | S fuel' => findRootWalk fuel' codeSet (findParentCode c codeSet) c
      end
  end.

(** [findRoot]: the memoized walk up the prefixes. Every step shortens the
    code, so [String.length code] steps are enough and [default] never
    applies (lemma [findRootWalk_total]). *)
Definition findRoot (codeSet : gset string) (rootCache : gmap string string)
    (code : string) : string * gmap string string :=
  match rootCache !! code with
  | Some root => (root, rootCache)
  | None =>
      let last := default code
        (findRootWalk (String.length code) codeSet (findParentCode code codeSet) code) in
      (last, <[code := last]> rootCache)
  end.

Record BuildState := mkBuildState {
  st_rootCache : gmap string string;
  st_byRootCode : gmap string (list CustomsFlatRow);
  st_rootOrder : list string;
  st_cloned : list CustomsFlatRow
}.

(** One iteration of [for (const row of cloned)]. *)
Definition assignRoot (codeSet : gset string) (st : BuildState) (row : CustomsFlatRow)
  : BuildState :=
  let '(root, rootCache) := findRoot codeSet (st_rootCache st) (code row) in
  let row' := withRootCode (Some root) row in
  match st_byRootCode st !! root with
  | None =>
      mkBuildState rootCache (<[root := [row']]> (st_byRootCode st))
        (st_rootOrder st ++ [root]) (st_cloned st ++ [row'])
  | Some bucket =>
      mkBuildState rootCache (<[root := bucket ++ [row']]> (st_byRootCode st))
        (st_rootOrder st) (st_cloned st ++ [row'])
  end.

Definition buildState (rows : list CustomsRecord) : BuildState :=
  let cloned := Js.sort (byCodeOrder code) rows in
  let codeSet : gset string := list_to_set (code <$> cloned) in
  foldl (assignRoot codeSet) (mkBuildState ∅ ∅ [] []) cloned.

(** [byCode] holds the cloned objects, which carry their root by the time
    [buildCachedData] returns. *)
Definition buildCachedData (rows : list CustomsRecord)
  : Flex.CachedData (Row := CustomsFlatRow) (Key := string) :=
  let st := buildState rows in
  Flex.mkCachedData (st_cloned st)
    (foldl (λ m row, <[code row := row]> m) ∅ (st_cloned st))
    (st_byRootCode st) (st_rootOrder st).

Definition keyOfNumber (print : Z → string) (n : Z) : option string := Some (print n).
Definition keyOfString (s : string) : option string := Some s.

Section Service.
(** The host conversions, [String(n)] on the integer ids of a search
    result, and the search of the FlexSearch index. *)
Variable host : Js.Host.
Variable printInteger : Z → string.
Variable flexSearch : list (string * string) → string → option Z → RawNode.

Definition Service := Eff.M (World RawRecord CustomsFlatRow
  (Flex.CachedData (Row := CustomsFlatRow) (Key := string)) (list (string * string))).

Definition extractFlexDocHits : RawNode → list (string * option string) :=
  Flex.extractFlexDocHits (keyOfNumber printInteger) keyOfString.

Definition initializeData (force : bool) (callback : option ProgressCallback)
  : Service bool :=
  Flex.initializeData code (normalize host) force callback.

Definition ensureAllDataCache : Service (list CustomsFlatRow) :=
  Flex.ensureAllDataCache (byCodeOrder code) (λ _, Some ∘ buildCachedData).

Definition getAllData : Service (list CustomsFlatRow) :=
  Flex.getAllData (byCodeOrder code) (λ _, Some ∘ buildCachedData).

Definition searchByCodeCodes (codePrefix : string) (parentLimit : Z)
  : Service (gset string) :=
  Flex.searchByCode code code (byCodeOrder code) codePrefix parentLimit.

Definition searchByDescriptionHits (query : string) (itemLimit : Z)
  : Service (list (string * option string)) :=
  Flex.searchByDescriptionHits code description (byCodeOrder code)
    (keyOfNumber printInteger) keyOfString (λ _, Some ∘ buildCachedData)
    flexSearch query itemLimit.

Definition intersectCodes := Flex.intersect (Key := string).

Definition buildSearchResults (codes : gset string)
    (highlightByCode : gmap string string) (itemLimit : Z)
  : Service (list CustomsFlatRow) :=
  Flex.buildSearchResults code rootCode highlightedDescription
    withHighlightedDescription codes highlightByCode itemLimit.

(** [searchByFields(idPrefix, descQuery, { parentLimit, itemLimit })] *)
Definition searchByFields (idPrefix descQuery : string) (parentLimit itemLimit : Z)
  : Service (list CustomsFlatRow) :=
  Flex.searchByFields code code description rootCode highlightedDescription
    withHighlightedDescription (byCodeOrder code)
    (keyOfNumber printInteger) keyOfString (λ _, Some ∘ buildCachedData)
    flexSearch idPrefix descQuery parentLimit itemLimit.

(** The defaults [{ parentLimit = 200, itemLimit = 4000 }]. *)
Definition searchByFieldsDefault (idPrefix descQuery : string) :=
  searchByFields idPrefix descQuery 200 4000.

End Service.

End FlexCodeRev.

(** ** The FlexSearch revision keyed by [id], with [parentId] links *)

Module ParentIdRev.

(** [initializeData] of this revision coerces [code], [description],
    [validFrom] and the three optional fields only; the rates and [uomCode]
    are stored as the dataset has them. *)
Record CustomsRecord := mkCustomsRecord {
  id : Z;
  parentId : option Z;
  code : string;
  description : string;
  percentage : Js.value;
  cefta : Js.value;
  msa : Js.value;
  trmtl : Js.value;
  tvsh : Js.value;
  excise : Js.value;
  validFrom : Js.value;
  uomCode : Js.value;
  fileUrl : Js.value;
  importMeasure : Js.value;
  exportMeasure : Js.value;
  rootId : option Z;
  highlightedDescription : option string
}.

Definition CustomsFlatRow := CustomsRecord.
Definition CustomsTreeNode := TreeNode CustomsRecord.

Record RawRecord := mkRawRecord {
  raw_id : Z;
  raw_parentId : option Z;
  raw_code : Js.value;
  raw_description : Js.value;
  raw_percentage : Js.value;
  raw_cefta : Js.value;
  raw_msa : Js.value;
  raw_trmtl : Js.value;
  raw_tvsh : Js.value;
  raw_excise : Js.value;
  raw_validFrom : Js.value;
  raw_uomCode : Js.value;
  raw_fileUrl : Js.value;
  raw_importMeasure : Js.value;
  raw_exportMeasure : Js.value
}.

(** [{ ...d, code, description, importMeasure, exportMeasure, fileUrl,
    validFrom }] *)
Definition normalize (host : Js.Host) (d : RawRecord) : CustomsRecord :=
  {| id := raw_id d;
     parentId := raw_parentId d;
     code := CodeKeyed.stringOrEmpty host (raw_code d);
     description := CodeKeyed.stringOrEmpty host (raw_description d);
     percentage := raw_percentage d;
     cefta := raw_cefta d;
     msa := raw_msa d;
     trmtl := raw_trmtl d;
     tvsh := raw_tvsh d;
     excise := raw_excise d;
     validFrom := Js.nullish (raw_validFrom d) (Js.JString "");
     uomCode := raw_uomCode d;
     fileUrl := Js.nullish (raw_fileUrl d) Js.JNull;
     importMeasure := Js.nullish (raw_importMeasure d) Js.JNull;
     exportMeasure := Js.nullish (raw_exportMeasure d) Js.JNull;
     rootId := None;
     highlightedDescription := None |}.

Definition withRootId (root : option Z) (r : CustomsRecord) : CustomsRecord :=
  {| id := id r; parentId := parentId r; code := code r;
     description := description r; percentage := percentage r;
     cefta := cefta r; msa := msa r; trmtl := trmtl r; tvsh := tvsh r;
     excise := excise r; validFrom := validFrom r; uomCode := uomCode r;
     fileUrl := fileUrl r; importMeasure := importMeasure r;
     exportMeasure := exportMeasure r; rootId := root;
     highlightedDescription := highlightedDescription r |}.

Definition withHighlightedDescription (h : option string) (r : CustomsRecord)
  : CustomsRecord :=
  {| id := id r; parentId := parentId r; code := code r;
     description := description r; percentage := percentage r;
     cefta := cefta r; msa := msa r; trmtl := trmtl r; tvsh := tvsh r;
     excise := excise r; validFrom := validFrom r; uomCode := uomCode r;
     fileUrl := fileUrl r; importMeasure := importMeasure r;
     exportMeasure := exportMeasure r; rootId := rootId r;
     highlightedDescription := h |}.

Definition sortChildren (a b : CustomsRecord) : Z :=
  let ac := code a in
  let bc := code b in
  if Js.str_lt ac bc then -1
  else if Js.str_lt bc ac then 1
  else
    let ad := description a in
    let bd := description b in
    if Js.str_lt ad bd then -1
    else if Js.str_lt bd ad then 1
    else id a - id b.

(** [row.parentId == null || !byId.has(row.parentId)] makes a root. *)
Definition buildTreeFromList (rows : list CustomsFlatRow)
  : list Z * gmap Z (TreeObject Z CustomsRecord) :=
  buildGraph id parentId sortChildren rows.

Definition treeOf (fuel : nat) (rows : list CustomsFlatRow)
  : option (list CustomsTreeNode) :=
  readForest fuel (buildTreeFromList rows).

(** [!row.parentId]: [null], [undefined] and [0] name no parent. *)
Definition noParent (r : CustomsRecord) : bool :=
  match parentId r with
  | None => true
  | Some p => p =? 0
  end.

(** [findRootId], a recursion as deep as the chain of parents; [None] when
    the call stack of [fuel] frames is exhausted. The result is the root
    returned ([None] for [null]) and the memo table. *)
Fixpoint findRootId (fuel : nat) (byId : gmap Z CustomsFlatRow)
    (rootCache : gmap Z Z) (row : option CustomsFlatRow)
  : option (option Z * gmap Z Z) :=
  match fuel with
  | O => None
  | S fuel' =>
      match row with
      | None => Some (None, rootCache)
      | Some row =>
          match rootCache !! id row with
          | Some cached => Some (Some cached, rootCache)
          | None =>
              if noParent row then Some (Some (id row), <[id row := id row]> rootCache)
              else
                let parent := default 0 (parentId row) in
                match findRootId fuel' byId rootCache (byId !! parent) with
                | None => None
                | Some (found, rootCache') =>
                    let rootId := default parent found in
                    Some (Some rootId, <[id row := rootId]> rootCache')
                end
          end
      end
  end.

Record BuildState := mkBuildState {
  st_rootCache : gmap Z Z;
  st_byRootId : gmap Z (list CustomsFlatRow);
  st_rootOrder : list Z;
  st_cloned : list CustomsFlatRow
}.

(** One iteration of [for (const row of cloned)]. *)
Definition assignRoot (fuel : nat) (byId : gmap Z CustomsFlatRow)
    (st : option BuildState) (row : CustomsFlatRow) : option BuildState :=
  st ← st;
  '(found, rootCache) ← findRootId fuel byId (st_rootCache st) (Some row);
  let root := default (id row) found in
  let row' := withRootId (Some root) row in
  match st_byRootId st !! root with
  | None =>
      Some (mkBuildState rootCache (<[root := [row']]> (st_byRootId st))
              (st_rootOrder st ++ [root]) (st_cloned st ++ [row']))
  | Some bucket =>
      Some (mkBuildState rootCache (<[root := bucket ++ [row']]> (st_byRootId st))
              (st_rootOrder st) (st_cloned st ++ [row']))
  end.

Definition byIdOf (rows : list CustomsFlatRow) : gmap Z CustomsFlatRow :=
  foldl (λ m row, <[id row := row]> m) ∅ rows.

Definition buildState (fuel : nat) (rows : list CustomsRecord) : option BuildState :=
  foldl (assignRoot fuel (byIdOf rows)) (Some (mkBuildState ∅ ∅ [] [])) rows.

Definition buildCachedData (fuel : nat) (rows : list CustomsRecord)
  : option (Flex.CachedData (Row := CustomsFlatRow) (Key := Z)) :=
  st ← buildState fuel rows;
  Some (Flex.mkCachedData (st_cloned st) (byIdOf (st_cloned st))
          (st_byRootId st) (st_rootOrder st)).

Definition byIdOrder (a b : CustomsRecord) : Z := id a - id b.

Definition keyOfNumber (n : Z) : option Z := Some n.
Definition keyOfString (s : string) : option Z := None.

Section Service.
Variable host : Js.Host.
Variable flexSearch : list (Z * string) → string → option Z → RawNode.

Definition Service := Eff.M (World RawRecord CustomsFlatRow
  (Flex.CachedData (Row := CustomsFlatRow) (Key := Z)) (list (Z * string))).

Definition extractFlexDocHits : RawNode → list (Z * option string) :=
  Flex.extractFlexDocHits keyOfNumber keyOfString.

Definition initializeData (force : bool) (callback : option ProgressCallback)
  : Service bool :=
  Flex.initializeData id (normalize host) force callback.

Definition ensureAllDataCache : Service (list CustomsFlatRow) :=
  Flex.ensureAllDataCache byIdOrder buildCachedData.

Definition getAllData : Service (list CustomsFlatRow) :=
  Flex.getAllData byIdOrder buildCachedData.

Definition searchByCodeIds (codePrefix : string) (parentLimit : Z)
  : Service (gset Z) :=
  Flex.searchByCode id code byIdOrder codePrefix parentLimit.

Definition searchByDescriptionHits (query : string) (itemLimit : Z)
  : Service (list (Z * option string)) :=
  Flex.searchByDescriptionHits id description byIdOrder keyOfNumber keyOfString
    buildCachedData flexSearch query itemLimit.

Definition intersectIds := Flex.intersect (Key := Z).

Definition buildSearchResults (ids : gset Z) (highlightById : gmap Z string)
    (itemLimit : Z) : Service (list CustomsFlatRow) :=
  Flex.buildSearchResults id rootId highlightedDescription withHighlightedDescription
    ids highlightById itemLimit.

Definition searchByFields (idPrefix descQuery : string) (parentLimit itemLimit : Z)
  : Service (list CustomsFlatRow) :=
  Flex.searchByFields id code description rootId highlightedDescription
    withHighlightedDescription byIdOrder keyOfNumber keyOfString buildCachedData
    flexSearch idPrefix descQuery parentLimit itemLimit.

End Service.

End ParentIdRev.

(** ** The MiniSearch revision *)

Module MiniSearchRev.
Export CodeKeyed.

Definition MiniSearchHit : Type := string * option string.

(** A result of [index.search]: the id, the matched terms when the library
    reports them, and the stored description. *)
Record SearchResult := mkSearchResult {
  res_id : string;
  res_terms : option (list string);
  res_description : option string
}.

(** The documents [addAll] was given. *)
Definition MiniSearchIndex : Type := list (string * string).

Section Service.
Variable host : Js.Host.
(** [index.search(query, { prefix: true, fuzzy: false })] *)
Variable miniSearch : MiniSearchIndex → string → list SearchResult.
(** [description.replace(new RegExp(`\\b${term}\\b`, "gi"), TEMPLATE)];
    [None] when the pattern does not compile. *)
Variable highlightTerm : string → string → option string.

Definition Service := Eff.M (World RawRecord CustomsRecord unit MiniSearchIndex).

Definition INDEX_CHUNK_SIZE : nat := 2000.

Definition ensureDescriptionIndex : Service MiniSearchIndex :=
  existing ← Eff.gets descriptionIndex;
  match existing with
  | Some index => mret index
  | None =>
      getDb;;
      data ← toArrayByCode code;
      index ← awaited Eff.IndexError (mret ((λ r, (code r, description r)) <$> data));
      Eff.modify (setDescriptionIndex (Some index));;
      mret index
  end.

Fixpoint addChunks (callback : option ProgressCallback) (fuel : nat)
    (normalized : list CustomsRecord) (start : nat) : Service unit :=
  if decide (start < length normalized)%nat then
    match fuel with
    | O => Eff.outOfFuel
    | S fuel' =>
        let chunk := Js.sliceNat normalized start (start + INDEX_CHUNK_SIZE) in
        bulkAdd code chunk;;
        let loaded := Nat.min (start + length chunk) (length normalized) in
        onProgress callback Indexing (Z.of_nat loaded) (Z.of_nat (length normalized))
          (MsgIndexing (Z.of_nat loaded) (Z.of_nat (length normalized)));;
        addChunks callback fuel' normalized (start + INDEX_CHUNK_SIZE)
    end
  else mret tt.

(** [initializeData({ force = false, onProgress })], [callback] being the
    [onProgress] of the caller. *)
Definition initializeData (force : bool) (callback : option ProgressCallback)
  : Service bool :=
  hasWindow ← Eff.gets window;
  if negb hasWindow then mret false else
  Eff.try_catch
    (getDb;;
     existing ← count;
     if negb force && (0 <? existing) then
       onProgress callback Cached existing existing (MsgFound existing);;
       mret false
     else
       onProgress callback LoadData 0 0 MsgLoading;;
       data ← importDataset;
       let total := Z.of_nat (length data) in
       onProgress callback Indexing 0 total (MsgIndexing 0 total);;
       let normalized := normalize host <$> data in
       transaction (clear;; addChunks callback (length normalized) normalized 0);;
       ensureDescriptionIndex;;
       onProgress callback Done total total MsgDone;;
       mret true)
    (λ error,
       log (ErrorInitializing error);;
       onProgress callback Error 0 0 MsgFailed;;
       mret false).

Definition getAllData : Service (list CustomsFlatRow) :=
  Eff.try_catch
    (getDb;;
     rows ← toArrayByCode code;
     mret rows)
    (λ error, log (ErrorFetchingAll error);; mret []).

(** [for (let i = code.length - 1; i > 0; i--)], entered at [i]. *)
Fixpoint findExistingParentFrom (c : string) (i : nat) : Service (option string) :=
  match i with
  | O => mret None
  | S i' =>
      let cand := Js.slice0 c i in
      rec ← getByKey code cand;
      match rec with
      | Some _ => mret (Some cand)
      | None => findExistingParentFrom c i'
      end
  end.

Definition findExistingParent (c : string) : Service (option string) :=
  findExistingParentFrom c (String.length c - 1).

(** [while (curr && curr.length > 0)] *)
Fixpoint lowestExistingAncestorLoop (fuel : nat) (curr : option string)
  : Service (option string) :=
  match curr with
  | None => mret None
  | Some c =>
      if (String.length c =? 0)%nat then mret None else
      match fuel with
      | O => Eff.outOfFuel
      | S fuel' =>
          rec ← getByKey code c;
          match rec with
          | Some _ => mret (Some c)
          | None =>
              next ← findExistingParent c;
              lowestExistingAncestorLoop fuel' next
          end
      end
  end.

Definition getLowestExistingAncestor (prefix : string) : Service (option string) :=
  lowestExistingAncestorLoop (S (String.length prefix)) (Some prefix).

(** [while (true)] of [getPath] *)
Fixpoint pathLoop (fuel : nat) (curr : string) (path : list string)
  : Service (list string) :=
  match fuel with
  | O => Eff.outOfFuel
  | S fuel' =>
      parent ← findExistingParent curr;
      match parent with
      | None => mret path
      | Some p => pathLoop fuel' p (p :: path)
      end
  end.

Definition getPath (target : string) : Service (list string) :=
  pathLoop (S (String.length target)) target [target].

Definition getDirectChildrenRecords (parentCode : string)
  : Service (list CustomsRecord) :=
  candidates ← whereCodeStartsWith code parentCode;
  if decide (length candidates = 0%nat) then mret [] else
  let codeSet : gset string := list_to_set (code <$> candidates) in
  let children :=
    filter (λ record, code record ≠ parentCode ∧
                      findParentCode (code record) codeSet = Some parentCode)
      candidates in
  mret (Js.sort compareRecords children).

(** [addRecord]: the first record of a code stays. *)
Definition addRecord (allRecords : list CustomsRecord) (record : option CustomsRecord)
  : list CustomsRecord :=
  match record with
  | None => allRecords
  | Some r =>
      if decide (code r ∈ code <$> allRecords) then allRecords
      else allRecords ++ [r]
  end.

Definition addToSet (s : list string) (x : string) : list string :=
  if decide (x ∈ s) then s else s ++ [x].

(** [for (const code of pathToLca)]: the parents whose children are the
    siblings shown for context. *)
Fixpoint parentsForSiblingsOf (path : list string) (parents : list string)
  : Service (list string) :=
  match path with
  | [] => mret parents
  | c :: rest =>
      parent ← findExistingParent c;
      parentsForSiblingsOf rest
        (match parent with Some p => addToSet parents p | None => parents end)
  end.

Fixpoint addDirectChildren (parents : list string) (allRecords : list CustomsRecord)
  : Service (list CustomsRecord) :=
  match parents with
  | [] => mret allRecords
  | parentCode :: rest =>
      directChildren ← getDirectChildrenRecords parentCode;
      addDirectChildren rest (foldl addRecord allRecords (Some <$> directChildren))
  end.

Definition getSubtreeWithAncestors (target : string) : Service (list CustomsFlatRow) :=
  getDb;;
  subtree ← whereCodeStartsWith code target;
  if decide (length subtree = 0%nat) then mret [] else
  lca ← getLowestExistingAncestor target;
  pathToLca ← match lca with Some l => getPath l | None => mret [] end;
  let allRecords := foldl addRecord [] (Some <$> subtree) in
  ancestorRecords ← Eff.mapM (getByKey code) pathToLca;
  let allRecords := foldl addRecord allRecords ancestorRecords in
  parentsForSiblings ← parentsForSiblingsOf pathToLca [];
  allRecords ← addDirectChildren parentsForSiblings allRecords;
  mret (Js.sort compareRecords allRecords).

(** [new Map(hits.map((h) => [h.id, h.highlight || null]))] *)
Definition highlightMapOf (hits : list MiniSearchHit) : gmap string (option string) :=
  foldl (λ m h, <[fst h := match snd h with
                            | Some s => if String.eqb s "" then None else Some s
                            | None => None
                            end]> m) ∅ hits.

Definition applyHighlight (highlightMap : gmap string (option string))
    (record : CustomsRecord) : CustomsRecord :=
  match highlightMap !! code record with
  | Some (Some hl) => withHighlightedDescription (Some hl) record
  | _ => record
  end.

Definition getSubtreesForHits (codes : list string) (hits : list MiniSearchHit)
  : Service (list CustomsFlatRow) :=
  let highlightMap := highlightMapOf hits in
  subtrees ← Eff.mapM getSubtreeWithAncestors codes;
  let allRecords := foldl addRecord [] (Some <$> concat subtrees) in
  mret (Js.sort compareRecords (applyHighlight highlightMap <$> allRecords)).

(** [result.terms.forEach(...)] *)
Fixpoint highlightTerms (description : string) (terms : list string)
  : Service string :=
  match terms with
  | [] => mret description
  | term :: rest =>
      match highlightTerm description term with
      | None => Eff.throw Eff.IndexError
      | Some description' => highlightTerms description' rest
      end
  end.

Definition hitOfResult (result : SearchResult) : Service MiniSearchHit :=
  match res_terms result with
  | Some terms =>
      highlight ← highlightTerms (default "" (res_description result)) terms;
      mret (res_id result, Some highlight)
  | None => mret (res_id result, None)
  end.

Definition searchByDescriptionHits (query : string) : Service (list MiniSearchHit) :=
  index ← ensureDescriptionIndex;
  results ← awaited Eff.IndexError (mret (miniSearch index query));
  Eff.mapM hitOfResult results.

Definition searchByFields (idPrefix descQuery : string) : Service (list CustomsFlatRow) :=
  hasWindow ← Eff.gets window;
  if negb hasWindow then mret [] else
  let codePrefix := Js.trim idPrefix in
  let descQueryTrimmed := Js.trim descQuery in
  let hasCodeQuery := (0 <? String.length codePrefix)%nat in
  let hasDescQuery := (0 <? String.length descQueryTrimmed)%nat in
  Eff.try_catch
    (if negb hasCodeQuery && negb hasDescQuery then getAllData
     else if negb hasDescQuery then getSubtreeWithAncestors codePrefix
     else
       hits ← searchByDescriptionHits descQueryTrimmed;
       let relevantHits :=
         if hasCodeQuery
         then filter (λ h, Js.startsWith (fst h) codePrefix = true) hits
         else hits in
       if decide (length relevantHits = 0%nat) then
         (if hasCodeQuery then getSubtreeWithAncestors codePrefix else mret [])
       else getSubtreesForHits (fst <$> relevantHits) relevantHits)
    (λ error, log (SearchFailed idPrefix descQuery error);; mret []).

End Service.

End MiniSearchRev.

(** * Properties *)

(** ** Stable sorting with a comparator *)

Section SortFacts.
Context {A : Type} (cmp : A → A → Z).

Lemma insertSorted_Permutation x l : Js.insertSorted cmp x l ≡ₚ x :: l.
Proof.
  induction l as [|y l IH]; simpl; [done|].
  destruct (cmp x y <=? 0); [done|].
  rewrite IH. apply Permutation_swap.
Qed.

Lemma sort_Permutation l : Js.sort cmp l ≡ₚ l.
Proof.
  induction l as [|x l IH]; simpl; [done|].
  by rewrite insertSorted_Permutation, IH.
Qed.

Lemma sort_elem_of x l : x ∈ Js.sort cmp l ↔ x ∈ l.
Proof. by rewrite sort_Permutation. Qed.

Lemma sort_length l : length (Js.sort cmp l) = length l.
Proof. by rewrite sort_Permutation. Qed.

(** Lists of at most one element are left as they are, so the guard
    [subRows.length > 1] changes nothing. *)
Lemma sort_short l : (length l ≤ 1)%nat → Js.sort cmp l = l.
Proof. destruct l as [|x [|y l]]; simpl; [done|done|lia]. Qed.

Lemma insertSorted_ext_in (cmp' : A → A → Z) x l :
  (∀ b, b ∈ l → cmp x b = cmp' x b) →
  Js.insertSorted cmp x l = Js.insertSorted cmp' x l.
Proof.
  induction l as [|y l IH]; intros Hext; simpl; [done|].
  rewrite (Hext y) by left.
  destruct (cmp' x y <=? 0); [done|].
  f_equal. apply IH. intros b Hb. apply Hext. by right.
Qed.

Lemma sort_ext_in (cmp' : A → A → Z) l :
  (∀ a b, a ∈ l → b ∈ l → cmp a b = cmp' a b) →
  Js.sort cmp l = Js.sort cmp' l.
Proof.
  induction l as [|x l IH]; intros Hext; simpl; [done|].
  rewrite <- IH by (intros; apply Hext; by right).
  apply insertSorted_ext_in. intros b Hb.
  apply Hext; [left|right]. by apply sort_elem_of.
Qed.

(** A comparator is consistent when "not after" is a total preorder. *)
Definition notAfter (a b : A) : Prop := cmp a b ≤ 0.

Context (cmp_total : ∀ a b, notAfter a b ∨ notAfter b a).

Lemma insertSorted_Sorted x l :
  Sorted notAfter l → Sorted notAfter (Js.insertSorted cmp x l).
Proof.
  induction 1 as [|y l Hl IH Hhd]; simpl.
  { repeat constructor. }
  destruct (Z.leb_spec (cmp x y) 0) as [Hle|Hgt].
  { constructor; [by constructor|]. by constructor. }
  constructor; [done|].
  assert (notAfter y x) as Hyx.
  { destruct (cmp_total x y) as [Hxy|]; [|done]. unfold notAfter in Hxy. lia. }
  destruct Hhd as [|z l' Hyz]; simpl; [by constructor|].
  destruct (cmp x z <=? 0); by constructor.
Qed.

(** Sorting leaves a sorted list as it is. *)
Lemma sort_sorted l : Sorted notAfter l → Js.sort cmp l = l.
Proof.
  induction 1 as [|x l Hl IH Hhd]; [done|]. cbn [Js.sort]. rewrite IH.
  destruct Hhd as [|y l' Hxy]; [done|]. cbn [Js.insertSorted].
  unfold notAfter in Hxy. by rewrite (proj2 (Z.leb_le _ _) Hxy).
Qed.

Lemma sort_Sorted l : Sorted notAfter (Js.sort cmp l).
Proof.
  induction l as [|x l IH]; simpl; [constructor|].
  by apply insertSorted_Sorted.
Qed.

Context (cmp_trans : Transitive notAfter).

(** Where the comparator separates any two different elements, the sorted
    array depends on the elements only, not on the order they came in. *)
Lemma sort_Permutation_eq l1 l2 :
  (∀ a b, a ∈ l1 → b ∈ l1 → notAfter a b → notAfter b a → a = b) →
  l1 ≡ₚ l2 → Js.sort cmp l1 = Js.sort cmp l2.
Proof.
  intros Hsep Hperm.
  apply (Sorted_unique_strong notAfter); [|apply sort_Sorted..|].
  - intros a b Ha Hb.
    apply (proj1 (sort_elem_of _ _)) in Ha, Hb.
    apply Hsep; [done|]. by rewrite Hperm.
  - by rewrite !sort_Permutation.
Qed.

End SortFacts.

Lemma sort_fmap {A B} (f : A → B) (cmp : B → B → Z) (l : list A) :
  f <$> Js.sort (λ a b, cmp (f a) (f b)) l = Js.sort cmp (f <$> l).
Proof.
  induction l as [|x l IH]; csimpl; [done|].
  rewrite <- IH. generalize (Js.sort (λ a b, cmp (f a) (f b)) l) as k.
  induction k as [|y k IHk]; csimpl; [done|].
  destruct (cmp (f x) (f y) <=? 0); csimpl; [done|].
  by rewrite IHk.
Qed.

(** ** List helpers *)

Lemma Forall2_impl_elem {A B} (P Q : A → B → Prop) l k :
  Forall2 P l k → (∀ x y, x ∈ l → y ∈ k → P x y → Q x y) → Forall2 Q l k.
Proof.
  induction 1 as [|x y l k Hxy Hlk IH]; intros Himp; constructor.
  - apply Himp; [left|left|done].
  - apply IH. intros x' y' Hx' Hy'. apply Himp; by right.
Qed.

Lemma elem_of_flat_map {A B} (f : A → list B) (l : list A) (y : B) :
  y ∈ flat_map f l ↔ ∃ x, x ∈ l ∧ y ∈ f x.
Proof.
  rewrite list_elem_of_In, in_flat_map. split.
  - intros (x & Hx & Hy). exists x. by rewrite !list_elem_of_In.
  - intros (x & Hx & Hy). exists x. by rewrite <- !list_elem_of_In.
Qed.

Lemma Forall2_elem_of_r {A B} (Q : A → B → Prop) l k y :
  Forall2 Q l k → y ∈ k → ∃ x, x ∈ l ∧ Q x y.
Proof.
  induction 1 as [|x y' l k Hxy Hlk IH]; intros Hy.
  { by apply elem_of_nil in Hy. }
  apply elem_of_cons in Hy as [->|Hy].
  - exists x. split; [left|done].
  - destruct (IH Hy) as (x' & Hx' & HQ). exists x'. split; [by right|done].
Qed.

Lemma Forall2_elem_of_l {A B} (Q : A → B → Prop) l k x :
  Forall2 Q l k → x ∈ l → ∃ y, y ∈ k ∧ Q x y.
Proof.
  induction 1 as [|x' y l k Hxy Hlk IH]; intros Hx.
  { by apply elem_of_nil in Hx. }
  apply elem_of_cons in Hx as [->|Hx].
  - exists y. split; [left|done].
  - destruct (IH Hx) as (y' & Hy' & HQ). exists y'. split; [by right|done].
Qed.

(** Subtrees hanging under pairwise different children, each without
    repetition and pairwise disjoint, flatten without repetition. *)
Lemma NoDup_flat_map_Forall2 {A B C} (Q : A → B → Prop) (g : B → list C) cs ts :
  Forall2 Q cs ts → NoDup cs →
  (∀ c t, c ∈ cs → Q c t → NoDup (g t)) →
  (∀ c1 t1 c2 t2 x, c1 ∈ cs → c2 ∈ cs → Q c1 t1 → Q c2 t2 →
     x ∈ g t1 → x ∈ g t2 → c1 = c2) →
  NoDup (flat_map g ts).
Proof.
  induction 1 as [|c t cs ts Hct Hrest IH]; intros Hnd Hone Hdisj; simpl.
  { constructor. }
  apply NoDup_cons in Hnd as [Hc Hnd]. apply NoDup_app. split; [|split].
  - apply (Hone c); [left|done].
  - intros x Hx (t2 & Ht2 & Hx2)%elem_of_flat_map.
    destruct (Forall2_elem_of_r _ _ _ _ Hrest Ht2) as (c2 & Hc2 & HQ2).
    assert (c = c2) as <-; [|done].
    apply (Hdisj c t c2 t2 x); [left|by right|done..].
  - apply IH; [done|..].
    + intros c' t' Hc'. apply Hone. by right.
    + intros c1 t1 c2 t2 x H1 H2. apply Hdisj; by right.
Qed.

Lemma Forall2_fmap_eq {A B} (f : B → A) (l : list A) (k : list B) :
  Forall2 (λ x y, f y = x) l k → f <$> k = l.
Proof. induction 1; csimpl; congruence. Qed.

(** ** The hierarchy builder *)

Section HierarchyFacts.
Context {K Row : Type} `{Countable K}.
Context (key : Row → K) (parentOf : Row → option K) (cmp : Row → Row → Z).


(** *** First pass *)

Lemma createNodes_from_lookup_notin (m : gmap K (TreeObject K Row)) rows k :
  k ∉ key <$> rows →
  foldl (λ byKey row, <[key row := mkTreeObject row []]> byKey) m rows !! k = m !! k.
Proof.
  revert m. induction rows as [|r rows IH]; intros m Hk; csimpl in *; [done|].
  apply not_elem_of_cons in Hk as [Hne Hk].
  rewrite IH by done. by rewrite lookup_insert_ne.
Qed.

Lemma createNodes_from_lookup_in (m : gmap K (TreeObject K Row)) rows r :
  NoDup (key <$> rows) → r ∈ rows →
  foldl (λ byKey row, <[key row := mkTreeObject row []]> byKey) m rows !! key r
  = Some (mkTreeObject r []).
Proof.
  revert m. induction rows as [|r0 rows IH]; intros m Hnd Hr; csimpl in *.
  { by apply elem_of_nil in Hr. }
  apply NoDup_cons in Hnd as [Hr0 Hnd].
  apply elem_of_cons in Hr as [->|Hr]; [|by apply IH].
  rewrite createNodes_from_lookup_notin by done. apply lookup_insert_eq.
Qed.

Lemma createNodes_lookup_None rows k :
  k ∉ key <$> rows → (createNodes key) rows !! k = None.
Proof. intros Hk. unfold createNodes. by rewrite createNodes_from_lookup_notin. Qed.

Lemma createNodes_lookup_Some rows r :
  NoDup (key <$> rows) → r ∈ rows →
  (createNodes key) rows !! key r = Some (mkTreeObject r []).
Proof. apply createNodes_from_lookup_in. Qed.

(** Every registered key is the key of a row, with or without duplicates. *)
Lemma createNodes_is_Some rows k :
  is_Some ((createNodes key) rows !! k) ↔ k ∈ key <$> rows.
Proof.
  unfold createNodes.
  assert (∀ m : gmap K (TreeObject K Row),
    is_Some (foldl (λ byKey row, <[key row := mkTreeObject row []]> byKey) m rows !! k)
    ↔ is_Some (m !! k) ∨ k ∈ key <$> rows) as Hgen.
  { induction rows as [|r rows IH]; intros m; csimpl.
    - rewrite elem_of_nil. tauto.
    - rewrite IH, elem_of_cons, lookup_insert. case_decide; subst.
      + split; [by eauto|]. intros _. left. by eexists.
      + split; [tauto|]. intros [?|[?|?]]; [tauto|congruence|tauto]. }
  rewrite Hgen, lookup_empty. split; [|tauto].
  intros [[? ?]|?]; [done|done].
Qed.

(** *** Second pass *)

Definition pushed (ks : list K) (o : TreeObject K Row) : TreeObject K Row :=
  mkTreeObject (obj_row o) (obj_subRows o ++ ks).

Lemma attachNode_resolved rows (byKey : gmap K (TreeObject K Row)) roots r :
  (∀ k, is_Some (byKey !! k) ↔ k ∈ key <$> rows) →
  (attachNode key parentOf) (byKey, roots) r
  = match (resolvedParent key parentOf) rows r with
    | Some p => (alter (pushSubRow (key r)) p byKey, roots)
    | None => (byKey, roots ++ [key r])
    end.
Proof.
  intros Hdom. unfold attachNode, resolvedParent.
  destruct (parentOf r) as [p|]; [|done].
  destruct (decide (is_Some (byKey !! p))) as [Hin|Hout].
  - by rewrite decide_True by (by apply Hdom).
  - by rewrite decide_False by (by rewrite <- Hdom).
Qed.

Lemma attachNodes_spec rows (byKey : gmap K (TreeObject K Row)) (roots : list K) l :
  (∀ k, is_Some (byKey !! k) ↔ k ∈ key <$> rows) →
  ∃ byKey',
    foldl (attachNode key parentOf) (byKey, roots) l
    = (byKey', roots ++ (key <$> filter (λ r, (resolvedParent key parentOf) rows r = None) l)) ∧
    ∀ k, byKey' !! k
         = pushed (key <$> filter (λ r, (resolvedParent key parentOf) rows r = Some k) l) <$> byKey !! k.
Proof.
  revert byKey roots. induction l as [|r l IH]; intros byKey roots Hdom; cbn [foldl].
  { exists byKey. simpl. rewrite app_nil_r. split; [done|]. intros k.
    destruct (byKey !! k) as [[? ?]|]; simpl; [|done].
    unfold pushed; simpl. by rewrite app_nil_r. }
  rewrite (attachNode_resolved rows) by done.
  destruct ((resolvedParent key parentOf) rows r) as [p|] eqn:Hres.
  - destruct (IH (alter (pushSubRow (key r)) p byKey) roots) as (byKey' & -> & Hlk).
    { intros k. rewrite <- Hdom, lookup_alter.
      case_decide; subst; [|done]. by rewrite fmap_is_Some. }
    exists byKey'. split.
    { by rewrite filter_cons, decide_False by congruence. }
    intros k. rewrite Hlk, lookup_alter, filter_cons.
    case_decide as Hk; subst.
    + rewrite decide_True by done.
      destruct (byKey !! k) as [[? ?]|]; simpl; [|done].
      unfold pushed, pushSubRow; simpl. by rewrite <- app_assoc.
    + by rewrite decide_False by congruence.
  - destruct (IH byKey (roots ++ [key r])) as (byKey' & -> & Hlk); [done|].
    exists byKey'. split.
    { rewrite filter_cons, decide_True by done. csimpl. by rewrite <- app_assoc. }
    intros k. rewrite Hlk, filter_cons. by rewrite decide_False by congruence.
Qed.

(** *** Third pass *)

Lemma sortSubRows_eq (byKey : gmap K (TreeObject K Row)) o :
  sortSubRows cmp byKey o
  = mkTreeObject (obj_row o) (Js.sort (cmpNodes cmp byKey) (obj_subRows o)).
Proof.
  unfold sortSubRows. destruct (Nat.ltb_spec 1 (length (obj_subRows o))); [done|].
  rewrite sort_short by lia. by destruct o.
Qed.

Lemma sort_cmpNodes (byKey : gmap K (TreeObject K Row)) rs :
  (∀ r, r ∈ rs → ∃ ks, byKey !! key r = Some (mkTreeObject r ks)) →
  Js.sort (cmpNodes cmp byKey) (key <$> rs) = key <$> Js.sort cmp rs.
Proof.
  intros Hrs. rewrite <- sort_fmap. f_equal.
  apply sort_ext_in. intros a b Ha Hb.
  destruct (Hrs a Ha) as [ka Hka], (Hrs b Hb) as [kb Hkb].
  unfold cmpNodes. by rewrite Hka, Hkb.
Qed.

(** The returned object graph, for a list whose keys are pairwise different:
    the roots are the rows without a resolved parent, and every row's node
    holds the rows that resolve to it, both in comparator order. *)
Lemma buildGraph_spec rows :
  NoDup (key <$> rows) →
  fst ((buildGraph key parentOf cmp) rows) = key <$> Js.sort cmp ((rootRows key parentOf) rows) ∧
  (∀ r, r ∈ rows →
     snd ((buildGraph key parentOf cmp) rows) !! key r
     = Some (mkTreeObject r (key <$> Js.sort cmp ((childrenOf key parentOf) rows (key r))))) ∧
  (∀ k, k ∉ key <$> rows → snd ((buildGraph key parentOf cmp) rows) !! k = None).
Proof.
  intros Hnd. unfold buildGraph, attachNodes.
  destruct (attachNodes_spec rows ((createNodes key) rows) [] rows) as (byKey & -> & Hlk).
  { apply createNodes_is_Some. }
  assert (∀ r, r ∈ rows →
    byKey !! key r = Some (mkTreeObject r (key <$> (childrenOf key parentOf) rows (key r)))) as Hrow.
  { intros r Hr. by rewrite Hlk, createNodes_lookup_Some. }
  cbn [fst snd app]. split; [|split].
  - apply sort_cmpNodes. intros r [_ Hr]%list_elem_of_filter. eauto.
  - intros r Hr. rewrite lookup_fmap, Hrow by done. cbn.
    rewrite sortSubRows_eq. cbn. f_equal. f_equal.
    apply sort_cmpNodes. intros r' [_ Hr']%list_elem_of_filter. eauto.
  - intros k Hk. by rewrite lookup_fmap, Hlk, createNodes_lookup_None.
Qed.

(** *** Reading the graph as a forest *)

Section ForestFacts.
Context (rows : list Row) (Hnd : NoDup (key <$> rows)).

Lemma key_inj_rows r1 r2 : r1 ∈ rows → r2 ∈ rows → key r1 = key r2 → r1 = r2.
Proof using Hnd.
  intros [i Hi]%list_elem_of_lookup [j Hj]%list_elem_of_lookup Heq.
  assert (i = j) as ->; [|congruence].
  apply (NoDup_lookup (key <$> rows) i j (key r1)); [done|..].
  - by rewrite list_lookup_fmap, Hi.
  - by rewrite list_lookup_fmap, Hj, Heq.
Qed.

Lemma elem_of_childrenOf r k :
  r ∈ (childrenOf key parentOf) rows k ↔ (resolvedParent key parentOf) rows r = Some k ∧ r ∈ rows.
Proof. unfold childrenOf. by rewrite list_elem_of_filter. Qed.

Lemma elem_of_rootRows r :
  r ∈ (rootRows key parentOf) rows ↔ (resolvedParent key parentOf) rows r = None ∧ r ∈ rows.
Proof. unfold rootRows. by rewrite list_elem_of_filter. Qed.

Lemma resolvedParent_in r p :
  (resolvedParent key parentOf) rows r = Some p → ∃ r', r' ∈ rows ∧ key r' = p.
Proof.
  unfold resolvedParent. destruct (parentOf r) as [q|]; [|done].
  case_decide as Hq; [|done]. intros [= ->].
  apply list_elem_of_fmap in Hq as (r' & -> & Hr'). eauto.
Qed.

Lemma NoDup_childrenOf k : NoDup (key <$> Js.sort cmp ((childrenOf key parentOf) rows k)).
Proof using Hnd.
  rewrite sort_Permutation.
  apply (NoDup_fmap_2_strong key).
  - intros r1 r2 [_ ?]%elem_of_childrenOf [_ ?]%elem_of_childrenOf. by apply key_inj_rows.
  - apply NoDup_filter. by apply NoDup_fmap_1 in Hnd.
Qed.

Lemma NoDup_rootRows : NoDup (key <$> Js.sort cmp ((rootRows key parentOf) rows)).
Proof using Hnd.
  rewrite sort_Permutation.
  apply (NoDup_fmap_2_strong key).
  - intros r1 r2 [_ ?]%elem_of_rootRows [_ ?]%elem_of_rootRows. by apply key_inj_rows.
  - apply NoDup_filter. by apply NoDup_fmap_1 in Hnd.
Qed.

Notation heap := (snd ((buildGraph key parentOf cmp) rows)).

Lemma readNode_unfold n r :
  r ∈ rows →
  readNode (S n) heap (key r)
  = (children ← mapM (readNode n heap) (key <$> Js.sort cmp ((childrenOf key parentOf) rows (key r)));
     Some (mkTreeNode r children)).
Proof using Hnd.
  intros Hr. destruct (buildGraph_spec rows Hnd) as (_ & Hheap & _).
  cbn [readNode]. by rewrite Hheap.
Qed.

(** A node that was read carries its row, and its [subRows] are the trees
    read at the rows that resolve to it. *)
Lemma readNode_inv n r t :
  r ∈ rows → readNode n heap (key r) = Some t →
  ∃ n', n = S n' ∧ row t = r ∧
    Forall2 (λ r' t', readNode n' heap (key r') = Some t')
      (Js.sort cmp ((childrenOf key parentOf) rows (key r))) (subRows t).
Proof using Hnd.
  intros Hr. destruct n as [|n]; [done|]. rewrite readNode_unfold by done.
  intros (ts & Hts & [= <-])%bind_Some. exists n. split; [done|]. split; [done|].
  apply mapM_Some in Hts. by apply Forall2_fmap_l in Hts.
Qed.

Lemma readNode_None_notin n k : k ∉ key <$> rows → readNode n heap k = None.
Proof using Hnd.
  intros Hk. destruct (buildGraph_spec rows Hnd) as (_ & _ & Hout).
  destruct n; [done|]. cbn [readNode]. by rewrite Hout.
Qed.

(** Reading succeeds only on a complete subtree, so more fuel reads the
    same tree. *)
Lemma readNode_mono n m r t :
  r ∈ rows → (n ≤ m)%nat →
  readNode n heap (key r) = Some t → readNode m heap (key r) = Some t.
Proof using Hnd.
  revert m r t. induction n as [|n IH]; intros m r t Hr Hle; [done|].
  destruct m as [|m]; [lia|]. rewrite !readNode_unfold by done.
  intros (ts & Hts & [= <-])%bind_Some. apply bind_Some. exists ts. split; [|done].
  apply mapM_Some. apply mapM_Some in Hts.
  apply Forall2_fmap_l. apply Forall2_fmap_l in Hts.
  eapply Forall2_impl_elem; [done|]. cbn.
  intros r' t' Hr' _ Hread.
  apply (proj1 (sort_elem_of _ _ _)), elem_of_childrenOf in Hr'.
  apply IH; [tauto|lia|done].
Qed.

(** *** Acyclic parent links

    [rank] decreases strictly from a row to the parent it resolves to: the
    length of the code when the parent is a proper prefix. *)

Context (rank : K → nat).
Context (Hrank : ∀ r p, r ∈ rows → (resolvedParent key parentOf) rows r = Some p →
                        (rank p < rank (key r))%nat).

Lemma readNode_total n bound r :
  r ∈ rows → (∀ r', r' ∈ rows → rank (key r') ≤ bound)%nat →
  (bound < n + rank (key r))%nat →
  is_Some (readNode n heap (key r)).
Proof using Hnd Hrank.
  intros Hr Hbound. revert r Hr. induction n as [|n IH]; intros r Hr Hlt.
  { specialize (Hbound r Hr). lia. }
  rewrite readNode_unfold by done.
  assert (is_Some (mapM (readNode n heap)
    (key <$> Js.sort cmp ((childrenOf key parentOf) rows (key r))))) as [ts Hts]; [|by rewrite Hts].
  apply mapM_is_Some, Forall_fmap, Forall_forall.
  intros r' Hr'. apply (proj1 (sort_elem_of _ _ _)), elem_of_childrenOf in Hr'.
  destruct Hr' as [Hres Hr']. cbn.
  apply IH; [done|]. pose proof (Hrank r' (key r) Hr' Hres). lia.
Qed.

(** [ancestor x k]: following resolved parents from [x] reaches [k]. *)
Inductive ancestor : K → K → Prop :=
| ancestor_refl k : ancestor k k
| ancestor_step r p k :
    r ∈ rows → (resolvedParent key parentOf) rows r = Some p → ancestor p k → ancestor (key r) k.

Lemma ancestor_trans x y z : ancestor x y → ancestor y z → ancestor x z.
Proof. induction 1; [done|]. intros. eapply ancestor_step; eauto. Qed.

Lemma ancestor_rank x k : ancestor x k → x = k ∨ (rank k < rank x)%nat.
Proof using Hrank.
  induction 1 as [|r p k Hr Hres _ IH]; [by left|]. right.
  pose proof (Hrank r p Hr Hres). destruct IH as [->|?]; lia.
Qed.

Lemma ancestor_linear x a b : ancestor x a → ancestor x b → ancestor a b ∨ ancestor b a.
Proof using Hnd.
  induction 1 as [k|r p k Hr Hres Hpk IH]; intros Hb; [by left|].
  inversion Hb as [|r' p' k' Hr' Hres' Hpb Hkey]; subst.
  - right. by eapply ancestor_step.
  - apply key_inj_rows in Hkey; [|done..]. subst r'.
    apply IH. congruence.
Qed.

(** Two different rows with the same resolved parent (or both roots) have
    no descendant in common. *)
Lemma siblings_disjoint r1 r2 x :
  r1 ∈ rows → r2 ∈ rows → (resolvedParent key parentOf) rows r1 = (resolvedParent key parentOf) rows r2 →
  ancestor x (key r1) → ancestor x (key r2) → r1 = r2.
Proof using Hnd Hrank.
  assert (∀ a b, a ∈ rows → b ∈ rows → (resolvedParent key parentOf) rows a = (resolvedParent key parentOf) rows b →
    ancestor (key a) (key b) → a = b) as Hup.
  { intros a b Ha Hb Hres Hab.
    inversion Hab as [k Hk|r p k Hr Hresr Hpb Hkey]; subst.
    - by apply key_inj_rows.
    - apply key_inj_rows in Hkey; [|done..]. subst r.
      rewrite Hresr in Hres. symmetry in Hres.
      pose proof (Hrank b p Hb Hres).
      apply ancestor_rank in Hpb as [->|?]; lia. }
  intros Hr1 Hr2 Hres H1 H2.
  destruct (ancestor_linear _ _ _ H1 H2); [by apply Hup|].
  symmetry. by apply Hup.
Qed.


(** Whatever a subtree holds descends from its root and is the key of a row. *)
Lemma flatten_ancestor n r t x :
  r ∈ rows → readNode n heap (key r) = Some t → x ∈ (flatten key) t →
  ancestor x (key r) ∧ x ∈ key <$> rows.
Proof using Hnd.
  revert r t x. induction n as [|n IH]; intros r t x Hr Hread Hx; [done|].
  destruct (readNode_inv _ _ _ Hr Hread) as (n' & [= <-] & Hrow & Hkids).
  destruct t as [r0 ts]; cbn in *; subst r0.
  apply elem_of_cons in Hx as [->|Hx].
  { split; [constructor|by apply list_elem_of_fmap_2]. }
  apply elem_of_flat_map in Hx as (t' & Ht' & Hx).
  destruct (Forall2_elem_of_r _ _ _ _ Hkids Ht') as (r' & Hr' & Hread').
  apply (proj1 (sort_elem_of _ _ _)), elem_of_childrenOf in Hr' as [Hres Hr'].
  destruct (IH r' t' x Hr' Hread' Hx) as [Hanc Hin]. split; [|done].
  eapply ancestor_trans; [done|]. eapply ancestor_step; [done..|constructor].
Qed.

(** A subtree that holds a key holds the rows that resolve to it. *)
Lemma flatten_children_closed n r t p r' :
  r ∈ rows → readNode n heap (key r) = Some t → p ∈ (flatten key) t →
  r' ∈ rows → (resolvedParent key parentOf) rows r' = Some p → key r' ∈ (flatten key) t.
Proof using Hnd.
  revert r t. induction n as [|n IH]; intros r t Hr Hread Hp Hr' Hres; [done|].
  destruct (readNode_inv _ _ _ Hr Hread) as (n' & [= <-] & Hrow & Hkids).
  destruct t as [r0 ts]; cbn in *; subst r0.
  apply elem_of_cons in Hp as [->|Hp].
  - assert (r' ∈ Js.sort cmp ((childrenOf key parentOf) rows (key r))) as Hin.
    { apply sort_elem_of, elem_of_childrenOf. done. }
    destruct (Forall2_elem_of_l _ _ _ _ Hkids Hin) as (t' & Ht' & Hread').
    right. apply elem_of_flat_map. exists t'. split; [done|].
    destruct (readNode_inv _ _ _ Hr' Hread') as (? & _ & Hrow' & _).
    destruct t'; cbn in *; subst. left.
  - apply elem_of_flat_map in Hp as (t' & Ht' & Hp).
    destruct (Forall2_elem_of_r _ _ _ _ Hkids Ht') as (r1 & Hr1 & Hread1).
    apply (proj1 (sort_elem_of _ _ _)), elem_of_childrenOf in Hr1 as [_ Hr1].
    right. apply elem_of_flat_map. exists t'. split; [done|].
    by apply (IH r1).
Qed.

Lemma flatten_descendant n r t x :
  r ∈ rows → readNode n heap (key r) = Some t → ancestor x (key r) → x ∈ (flatten key) t.
Proof using Hnd.
  intros Hr Hread Hanc.
  remember (key r) as k eqn:Hk. induction Hanc as [k|r' p k Hr' Hres _ IH]; subst.
  - destruct (readNode_inv _ _ _ Hr Hread) as (? & _ & Hrow & _).
    destruct t; cbn in *; subst. left.
  - apply (flatten_children_closed n r t p r'); [done|done|by apply IH|done|done].
Qed.

Lemma flatten_NoDup n r t :
  r ∈ rows → readNode n heap (key r) = Some t → NoDup ((flatten key) t).
Proof using Hnd Hrank.
  revert r t. induction n as [|n IH]; intros r t Hr Hread; [done|].
  destruct (readNode_inv _ _ _ Hr Hread) as (n' & [= <-] & Hrow & Hkids).
  destruct t as [r0 ts]; cbn in *; subst r0.
  assert (∀ r', r' ∈ Js.sort cmp ((childrenOf key parentOf) rows (key r)) →
    (resolvedParent key parentOf) rows r' = Some (key r) ∧ r' ∈ rows) as Hkid.
  { intros r' Hr'. by apply (proj1 (sort_elem_of _ _ _)), elem_of_childrenOf in Hr'. }
  apply NoDup_cons. split.
  - intros (t' & Ht' & Hx)%elem_of_flat_map.
    destruct (Forall2_elem_of_r _ _ _ _ Hkids Ht') as (r' & Hr' & Hread').
    destruct (Hkid r' Hr') as [Hres Hin].
    destruct (flatten_ancestor _ _ _ _ Hin Hread' Hx) as [Hanc _].
    pose proof (Hrank r' (key r) Hin Hres) as Hlt.
    apply ancestor_rank in Hanc as [Heq|?]; [rewrite Heq in Hlt|]; lia.
  - eapply NoDup_flat_map_Forall2; [exact Hkids|..].
    + eapply NoDup_fmap_1, NoDup_childrenOf.
    + intros r' t' Hr' Hread'. apply (IH r' t'); [by apply Hkid|done].
    + intros r1 t1 r2 t2 x H1 H2 Hread1 Hread2 Hx1 Hx2.
      destruct (Hkid r1 H1) as [Hres1 Hin1], (Hkid r2 H2) as [Hres2 Hin2].
      apply (siblings_disjoint r1 r2 x); [done|done|congruence|..].
      * by apply (flatten_ancestor _ _ _ _ Hin1 Hread1).
      * by apply (flatten_ancestor _ _ _ _ Hin2 Hread2).
Qed.

(** Every node of a tree that was read is the tree read at some row. *)
Lemma nodes_read n r t t' :
  r ∈ rows → readNode n heap (key r) = Some t → t' ∈ nodes t →
  ∃ n' r', r' ∈ rows ∧ readNode n' heap (key r') = Some t'.
Proof using Hnd.
  revert r t. induction n as [|n IH]; intros r t Hr Hread Ht'; [done|].
  destruct (readNode_inv _ _ _ Hr Hread) as (n' & [= <-] & Hrow & Hkids).
  destruct t as [r0 ts]; cbn in Hrow, Hkids, Ht'; subst r0.
  apply elem_of_cons in Ht' as [->|Ht']; [by eauto|].
  apply elem_of_flat_map in Ht' as (t1 & Ht1 & Ht').
  destruct (Forall2_elem_of_r _ _ _ _ Hkids Ht1) as (r1 & Hr1 & Hread1).
  apply (proj1 (sort_elem_of _ _ _)), elem_of_childrenOf in Hr1 as [_ Hr1].
  by apply (IH r1 t1).
Qed.

(** Every row descends from a root row. *)
Lemma root_exists r :
  r ∈ rows → ∃ r0, r0 ∈ (rootRows key parentOf) rows ∧ ancestor (key r) (key r0).
Proof using Hrank.
  remember (rank (key r)) as d eqn:Hd. revert r Hd.
  induction d as [d IH] using lt_wf_ind; intros r -> Hr.
  destruct ((resolvedParent key parentOf) rows r) as [p|] eqn:Hres.
  - destruct (resolvedParent_in _ _ Hres) as (r' & Hr' & <-).
    destruct (IH (rank (key r')) (Hrank r _ Hr Hres) r' eq_refl Hr') as (r0 & Hr0 & Hanc).
    exists r0. split; [done|]. by eapply ancestor_step.
  - exists r. split; [by apply elem_of_rootRows|constructor].
Qed.

(** The forest [buildTreeFromList] returns when keys are pairwise different
    and parent links are acyclic: it is read with any fuel above the rank
    bound, its roots are the rows without a resolved parent, every node holds
    exactly the rows that resolve to it, and flattening it gives every key
    once. *)
Lemma buildGraph_forest bound :
  (∀ r, r ∈ rows → rank (key r) ≤ bound)%nat →
  ∃ forest,
    (∀ n, (bound < n)%nat → readForest n ((buildGraph key parentOf cmp) rows) = Some forest) ∧
    row <$> forest = Js.sort cmp ((rootRows key parentOf) rows) ∧
    (∀ t, t ∈ flat_map nodes forest →
       row t ∈ rows ∧
       row <$> subRows t = Js.sort cmp ((childrenOf key parentOf) rows (key (row t)))) ∧
    flat_map (flatten key) forest ≡ₚ key <$> rows.
Proof using Hnd Hrank.
  intros Hbound.
  destruct (buildGraph_spec rows Hnd) as (Hroots & _ & _).
  assert (∀ r, r ∈ Js.sort cmp ((rootRows key parentOf) rows) →
    (resolvedParent key parentOf) rows r = None ∧ r ∈ rows) as Hroot.
  { intros r Hr. by apply (proj1 (sort_elem_of _ _ _)), elem_of_rootRows in Hr. }
  assert (is_Some (readForest (S bound) ((buildGraph key parentOf cmp) rows))) as [forest Hforest].
  { unfold readForest. rewrite Hroots.
    apply mapM_is_Some, Forall_fmap, Forall_forall. intros r Hr. unfold compose.
    apply (readNode_total _ bound); [by apply Hroot|done|lia]. }
  assert (Forall2 (λ r t, readNode (S bound) heap (key r) = Some t)
    (Js.sort cmp ((rootRows key parentOf) rows)) forest) as Hread.
  { unfold readForest in Hforest. rewrite Hroots in Hforest.
    apply mapM_Some in Hforest. by apply Forall2_fmap_l in Hforest. }
  assert (∀ n r t, r ∈ rows → readNode n heap (key r) = Some t →
    row t = r ∧ row <$> subRows t = Js.sort cmp ((childrenOf key parentOf) rows (key r))) as Hnode.
  { intros n r t Hr Hrd.
    destruct (readNode_inv _ _ _ Hr Hrd) as (n' & _ & Hrow & Hkids).
    split; [done|]. apply Forall2_fmap_eq.
    eapply Forall2_impl_elem; [exact Hkids|]. cbv beta. intros r' t' Hr' _ Hrd'.
    apply (proj1 (sort_elem_of _ _ _)), elem_of_childrenOf in Hr' as [_ Hr'].
    by destruct (readNode_inv _ _ _ Hr' Hrd') as (_ & _ & ? & _). }
  exists forest. split; [|split; [|split]].
  - intros n Hn. unfold readForest. rewrite Hroots.
    apply mapM_Some, Forall2_fmap_l.
    eapply Forall2_impl_elem; [exact Hread|]. cbv beta. intros r t Hr _ Hrd.
    apply (readNode_mono (S bound)); [by apply Hroot|lia|done].
  - apply Forall2_fmap_eq.
    eapply Forall2_impl_elem; [exact Hread|]. cbv beta. intros r t Hr _ Hrd.
    by apply (Hnode (S bound)); [apply Hroot|].
  - intros t (t0 & Ht0 & Ht)%elem_of_flat_map.
    destruct (Forall2_elem_of_r _ _ _ _ Hread Ht0) as (r0 & Hr0 & Hrd0).
    destruct (nodes_read _ _ _ _ (proj2 (Hroot r0 Hr0)) Hrd0 Ht) as (n' & r' & Hr' & Hrd').
    destruct (Hnode n' r' t Hr' Hrd') as [Hrow Hsub]. by rewrite Hrow.
  - apply NoDup_Permutation; [|done|].
    + eapply NoDup_flat_map_Forall2; [exact Hread|..].
      * eapply NoDup_fmap_1, NoDup_rootRows.
      * intros r t Hr Hrd. apply (flatten_NoDup (S bound) r); [by apply Hroot|done].
      * intros r1 t1 r2 t2 x H1 H2 Hrd1 Hrd2 Hx1 Hx2.
        destruct (Hroot r1 H1) as [Hres1 Hin1], (Hroot r2 H2) as [Hres2 Hin2].
        apply (siblings_disjoint r1 r2 x); [done|done|congruence|..].
        -- by apply (flatten_ancestor _ _ _ _ Hin1 Hrd1).
        -- by apply (flatten_ancestor _ _ _ _ Hin2 Hrd2).
    + intros x. split.
      * intros (t0 & Ht0 & Hx)%elem_of_flat_map.
        destruct (Forall2_elem_of_r _ _ _ _ Hread Ht0) as (r0 & Hr0 & Hrd0).
        by apply (flatten_ancestor _ _ _ _ (proj2 (Hroot r0 Hr0)) Hrd0).
      * intros (r & -> & Hr)%list_elem_of_fmap.
        destruct (root_exists r Hr) as (r0 & Hr0 & Hanc).
        assert (r0 ∈ Js.sort cmp ((rootRows key parentOf) rows)) as Hr0' by (by apply sort_elem_of).
        destruct (Forall2_elem_of_l _ _ _ _ Hread Hr0') as (t0 & Ht0 & Hrd0).
        apply elem_of_flat_map. exists t0. split; [done|].
        apply (flatten_descendant (S bound) r0); [by apply Hroot|done|done].
Qed.

End ForestFacts.

(** *** Input order *)

Lemma resolvedParent_Permutation rows1 rows2 r :
  rows1 ≡ₚ rows2 → (resolvedParent key parentOf) rows1 r = (resolvedParent key parentOf) rows2 r.
Proof.
  intros Hperm. unfold resolvedParent.
  destruct (parentOf r) as [p|]; [|done].
  destruct (decide (p ∈ key <$> rows1)) as [Hin|Hout].
  - rewrite decide_True; [done|]. by rewrite <- Hperm.
  - rewrite decide_False; [done|]. by rewrite <- Hperm.
Qed.

(** With a consistent comparator that separates rows of different keys, the
    returned graph does not depend on the order of the input. *)
Lemma buildGraph_Permutation rows1 rows2 :
  (∀ a b, cmp a b ≤ 0 ∨ cmp b a ≤ 0) →
  Transitive (notAfter cmp) →
  (∀ a b, cmp a b ≤ 0 → cmp b a ≤ 0 → key a = key b) →
  NoDup (key <$> rows1) → rows1 ≡ₚ rows2 →
  (buildGraph key parentOf cmp) rows1 = (buildGraph key parentOf cmp) rows2.
Proof.
  intros Htotal Htrans Hsep Hnd1 Hperm.
  assert (NoDup (key <$> rows2)) as Hnd2 by (by rewrite <- Hperm).
  destruct (buildGraph_spec rows1 Hnd1) as (Hroots1 & Hin1 & Hout1).
  destruct (buildGraph_spec rows2 Hnd2) as (Hroots2 & Hin2 & Hout2).
  assert (∀ (P1 P2 : Row → Prop) `{∀ x, Decision (P1 x)} `{∀ x, Decision (P2 x)},
    (∀ x, P1 x ↔ P2 x) →
    Js.sort cmp (filter P1 rows1) = Js.sort cmp (filter P2 rows2)) as Hsort.
  { intros P1 P2 ? ? HP. apply sort_Permutation_eq; [done|done|..].
    - intros a b [_ Ha]%list_elem_of_filter [_ Hb]%list_elem_of_filter Hab Hba.
      apply (key_inj_rows rows1); [done..|]. by apply Hsep.
    - rewrite (list_filter_iff P1 P2) by done. by rewrite Hperm. }
  apply injective_projections.
  - rewrite Hroots1, Hroots2. f_equal. apply Hsort.
    intros x. by rewrite (resolvedParent_Permutation rows1 rows2).
  - apply map_eq. intros k.
    destruct (decide (k ∈ key <$> rows1)) as [Hk|Hk].
    + apply list_elem_of_fmap in Hk as (r & -> & Hr).
      rewrite Hin1 by done. rewrite Hin2 by (by rewrite <- Hperm).
      do 3 f_equal. apply Hsort.
      intros x. by rewrite (resolvedParent_Permutation rows1 rows2).
    + rewrite Hout1 by done. rewrite Hout2; [done|]. by rewrite <- Hperm.
Qed.

End HierarchyFacts.

(** ** Strings *)

Lemma str_compare_refl s : String.compare s s = Eq.
Proof.
  induction s as [|c s IH]; simpl; [done|].
  unfold Ascii.compare. by rewrite N.compare_refl.
Qed.

Lemma str_compare_eq s t : String.compare s t = Eq ↔ s = t.
Proof. split; [apply String.compare_eq_iff|intros ->; apply str_compare_refl]. Qed.

Lemma str_compare_lt_trans s t u :
  String.compare s t = Lt → String.compare t u = Lt → String.compare s u = Lt.
Proof.
  revert t u. induction s as [|a s IH]; intros [|b t] [|c u]; simpl; try done.
  unfold Ascii.compare.
  destruct (N.compare_spec (N_of_ascii a) (N_of_ascii b)) as [Hab|Hab|Hab];
    destruct (N.compare_spec (N_of_ascii b) (N_of_ascii c)) as [Hbc|Hbc|Hbc];
    try done; intros Hst Htu.
  - rewrite Hab, Hbc, N.compare_refl. by apply (IH t).
  - rewrite Hab. by apply N.compare_lt_iff in Hbc as ->.
  - rewrite <- Hbc. by apply N.compare_lt_iff in Hab as ->.
  - assert (N_of_ascii a < N_of_ascii c)%N as Hac by lia.
    by apply N.compare_lt_iff in Hac as ->.
Qed.

Lemma str_compare_gt s t : String.compare s t = Gt ↔ String.compare t s = Lt.
Proof.
  rewrite (String.compare_antisym t s).
  destruct (String.compare s t); simpl; split; congruence.
Qed.

(** "Not after" on strings: [s < t] or [s = t]. *)
Definition str_le (s t : string) : Prop := String.compare s t ≠ Gt.

Lemma str_le_trans s t u : str_le s t → str_le t u → str_le s u.
Proof.
  unfold str_le. intros Hst Htu.
  destruct (String.compare s t) eqn:Est; [|clear Hst|done].
  { by apply str_compare_eq in Est as ->. }
  destruct (String.compare t u) eqn:Etu; [|clear Htu|done].
  { apply str_compare_eq in Etu as <-. by rewrite Est. }
  by rewrite (str_compare_lt_trans s t u).
Qed.

Lemma str_le_antisym s t : str_le s t → str_le t s → s = t.
Proof.
  unfold str_le. rewrite (String.compare_antisym t s).
  destruct (String.compare s t) eqn:E; simpl; [|done..].
  intros _ _. by apply str_compare_eq.
Qed.

Lemma str_le_total s t : str_le s t ∨ str_le t s.
Proof.
  unfold str_le. rewrite (String.compare_antisym t s).
  destruct (String.compare s t); simpl; [by left|by left|by right].
Qed.

Lemma str_lt_spec s t : Js.str_lt s t = true ↔ String.compare s t = Lt.
Proof. unfold Js.str_lt. destruct (String.compare s t); split; congruence. Qed.

Lemma length_slice0 s i : String.length (Js.slice0 s i) = (i `min` String.length s)%nat.
Proof.
  revert i. induction s as [|c s IH]; intros [|i]; simpl; [done..|].
  by rewrite IH.
Qed.

Lemma prefix_slice0 s i : String.prefix (Js.slice0 s i) s = true.
Proof.
  revert i. induction s as [|c s IH]; intros [|i]; simpl; [done..|].
  rewrite IH. by destruct (ascii_dec c c).
Qed.

Lemma prefix_is_slice0 q s :
  String.prefix q s = true → q = Js.slice0 s (String.length q).
Proof.
  revert q. induction s as [|c s IH]; intros [|d q]; simpl; try done.
  destruct (ascii_dec d c) as [->|]; [|done]. intros Hq. f_equal. by apply IH.
Qed.

Lemma prefix_length q s : String.prefix q s = true → (String.length q ≤ String.length s)%nat.
Proof.
  revert q. induction s as [|c s IH]; intros [|d q]; simpl; try done; try lia.
  destruct (ascii_dec d c); [|done]. intros Hq%IH. lia.
Qed.

(** ** The revisions keyed by [code] *)

Module CodeKeyedFacts.
Import CodeKeyed.

Lemma compareRecords_le a b :
  compareRecords a b ≤ 0 ↔
  String.compare (code a) (code b) = Lt ∨
  (code a = code b ∧ str_le (description a) (description b)).
Proof.
  unfold compareRecords, Js.str_lt, str_le.
  rewrite (String.compare_antisym (code b) (code a)).
  rewrite (String.compare_antisym (description b) (description a)).
  destruct (String.compare (code a) (code b)) eqn:Ec; simpl.
  - apply str_compare_eq in Ec.
    destruct (String.compare (description a) (description b)); simpl;
      split; try lia; try (intros [?|[_ ?]]; done); by right.
  - split; [by left|lia].
  - split; [lia|]. intros [?|[Heq _]]; [done|].
    apply str_compare_eq in Heq. congruence.
Qed.

Lemma compareRecords_total a b : compareRecords a b ≤ 0 ∨ compareRecords b a ≤ 0.
Proof.
  rewrite !compareRecords_le.
  destruct (String.compare (code a) (code b)) eqn:Ec.
  - apply str_compare_eq in Ec.
    destruct (str_le_total (description a) (description b)); [left|right]; by right.
  - left. by left.
  - right. left. by apply str_compare_gt.
Qed.

Lemma compareRecords_trans : Transitive (notAfter compareRecords).
Proof.
  intros a b c. unfold notAfter. rewrite !compareRecords_le.
  intros [Hab|[Hab Hdab]] [Hbc|[Hbc Hdbc]].
  - left. by apply (str_compare_lt_trans _ (code b)).
  - left. by rewrite <- Hbc.
  - left. by rewrite Hab.
  - right. split; [congruence|]. by apply (str_le_trans _ (description b)).
Qed.

Lemma compareRecords_sep a b :
  compareRecords a b ≤ 0 → compareRecords b a ≤ 0 → code a = code b.
Proof.
  rewrite !compareRecords_le. intros [Hab|[? _]] [Hba|[? _]]; try done.
  apply str_compare_gt in Hba. congruence.
Qed.

(** *** [findParentCode] *)

Lemma findParentCodeFrom_Some c codes i p :
  (i < String.length c)%nat →
  findParentCodeFrom c codes i = Some p ↔
  ∃ j, (0 < j ≤ i)%nat ∧ p = Js.slice0 c j ∧ p ∈ codes ∧
       ∀ j', (j < j' ≤ i)%nat → Js.slice0 c j' ∉ codes.
Proof.
  intros Hi. induction i as [|i IH]; simpl.
  { split; [done|]. intros (j & ? & _). lia. }
  case_decide as Hin.
  - split.
    + intros [= <-]. exists (S i). repeat split; [lia|lia|done|]. intros; lia.
    + intros (j & Hj & -> & Hp & Hmax).
      destruct (decide (j = S i)) as [->|Hne]; [done|].
      destruct (Hmax (S i)); [lia|done].
  - rewrite IH by lia. split.
    + intros (j & Hj & -> & Hp & Hmax). exists j. repeat split; [lia|lia|done|].
      intros j' Hj'. destruct (decide (j' = S i)) as [->|]; [done|]. apply Hmax. lia.
    + intros (j & Hj & -> & Hp & Hmax).
      destruct (decide (j = S i)) as [->|Hne]; [done|].
      exists j. repeat split; [lia|lia|done|]. intros j' Hj'. apply Hmax. lia.
Qed.

(** [findParentCode] returns the longest non-empty proper prefix in the set. *)
Lemma findParentCode_Some c codes p :
  findParentCode c codes = Some p ↔ longestProperPrefix codes p c.
Proof.
  unfold findParentCode, longestProperPrefix.
  destruct (decide (String.length c = 0)%nat) as [Hz|Hnz].
  { rewrite Hz. simpl. split; [done|]. intros (_ & _ & ? & _). lia. }
  rewrite findParentCodeFrom_Some by lia. split.
  - intros (j & Hj & -> & Hp & Hmax).
    assert (String.length (Js.slice0 c j) = j) as Hlen by (rewrite length_slice0; lia).
    repeat split; [done|apply prefix_slice0|lia|lia|].
    intros q Hq Hpre Hlq. rewrite Hlen.
    destruct (decide (String.length q ≤ j)%nat) as [|Hgt]; [done|].
    destruct (Hmax (String.length q)); [lia|].
    by rewrite <- (prefix_is_slice0 q c).
  - intros (Hp & Hpre & Hlen & Hmax).
    exists (String.length p). repeat split; [lia|lia|by apply prefix_is_slice0|done|].
    intros j' Hj' Hin.
    assert (String.length (Js.slice0 c j') = j') as Hl by (rewrite length_slice0; lia).
    specialize (Hmax _ Hin (prefix_slice0 c j')). lia.
Qed.

Lemma findParentCode_in c codes p : findParentCode c codes = Some p → p ∈ codes.
Proof. by intros (? & _)%findParentCode_Some. Qed.

Lemma findParentCode_shorter c codes p :
  findParentCode c codes = Some p → (String.length p < String.length c)%nat.
Proof. intros (_ & _ & ? & _)%findParentCode_Some. lia. Qed.

Lemma elem_of_presentCodes rows c : c ∈ presentCodes rows ↔ c ∈ code <$> rows.
Proof. unfold presentCodes. by rewrite elem_of_list_to_set. Qed.

Lemma presentCodes_Permutation rows1 rows2 :
  rows1 ≡ₚ rows2 → presentCodes rows1 = presentCodes rows2.
Proof.
  intros Hperm. apply set_eq. intros c.
  by rewrite !elem_of_presentCodes, Hperm.
Qed.

(** The test [byCode.has(parentCode)] never fails: the parent found is a
    code of the list. *)
Lemma resolvedParent_findParentCode rows r :
  resolvedParent code (λ row, findParentCode (code row) (presentCodes rows)) rows r
  = findParentCode (code r) (presentCodes rows).
Proof.
  unfold resolvedParent.
  destruct (findParentCode (code r) (presentCodes rows)) as [p|] eqn:Hp; [|done].
  rewrite decide_True; [done|].
  by apply elem_of_presentCodes, (findParentCode_in (code r)).
Qed.

End CodeKeyedFacts.

(** ** Running the service *)

Section RunFacts.
Context {W : Type}.

Lemma run_bind {A B} (m : Eff.M W A) (k : A → Eff.M W B) w :
  (x ← m; k x) w
  = match m w with
    | (Eff.Normal a, w') => k a w'
    | (Eff.Throw e, w') => (Eff.Throw e, w')
    | (Eff.OutOfFuel, w') => (Eff.OutOfFuel, w')
    end.
Proof. reflexivity. Qed.

Lemma run_ret {A} (a : A) (w : W) : (mret a : Eff.M W A) w = (Eff.Normal a, w).
Proof. reflexivity. Qed.

Lemma run_try_catch {A} (body : Eff.M W A) handler w :
  Eff.try_catch body handler w
  = match body w with
    | (Eff.Throw e, w') => handler e w'
    | r => r
    end.
Proof. reflexivity. Qed.

Lemma run_bind_normal {A B} (m : Eff.M W A) (k : A → Eff.M W B) w a w1 :
  m w = (Eff.Normal a, w1) → (x ← m; k x) w = k a w1.
Proof. intros Hrun. by rewrite run_bind, Hrun. Qed.

Lemma try_catch_run {A} (body : Eff.M W A) handler w r w1 :
  body w = (r, w1) →
  Eff.try_catch body handler w
  = match r with
    | Eff.Throw e => handler e w1
    | r => (r, w1)
    end.
Proof. intros Hrun. rewrite run_try_catch, Hrun. by destruct r. Qed.

End RunFacts.

(** Unfold the sequencing of a computation applied to a world. *)
Ltac run :=
  unfold mbind, M_bind, mret, M_ret, Eff.bind, Eff.ret, Eff.gets, Eff.modify,
    Eff.throw, Eff.try_catch, Eff.outOfFuel, log, onProgress in *;
  cbn beta iota zeta in *.

Section WorldFacts.
Context {Raw Row Cache Index : Type}.
Notation World := (World Raw Row Cache Index).

(** What an awaited operation does to the fault plan. *)
Lemma awaited_cases {A} (e : Eff.JsError) (run : Eff.M World A) (w : World) :
  (∃ rest, faults w = true :: rest ∧ awaited e run w = (Eff.Throw e, setFaults rest w)) ∨
  (∃ rest, faults w = false :: rest ∧ awaited e run w = run (setFaults rest w)) ∨
  (faults w = [] ∧ awaited e run w = run w).
Proof.
  unfold awaited. destruct (faults w) as [|[|] rest]; eauto.
Qed.

Lemma setFaults_id (w : World) : setFaults (faults w) w = w.
Proof. by destruct w. Qed.

(** An awaited operation consumes at most one entry of the fault plan: it
    rejects on [true] and runs on the rest otherwise. *)
Lemma awaited_run {A} (e : Eff.JsError) (run : Eff.M World A) (w : World) :
  ∃ used rest, faults w = (used ++ rest) ∧
    ((used = [true] ∧ awaited e run w = (Eff.Throw e, setFaults rest w)) ∨
     ((true ∉ used) ∧ awaited e run w = run (setFaults rest w))).
Proof.
  unfold awaited. destruct (faults w) as [|[|] rest] eqn:Hf.
  - exists [], []. split; [done|]. right. split; [by apply not_elem_of_nil|].
    by rewrite <- Hf, setFaults_id.
  - exists [true], rest. split; [done|]. by left.
  - exists [false], rest. split; [done|]. right. split; [|done].
    intros Hin. apply list_elem_of_singleton in Hin. done.
Qed.

Lemma awaited_quiet {A} (e : Eff.JsError) (run : Eff.M World A) (w : World) :
  faults w = [] → awaited e run w = run w.
Proof. unfold awaited. by intros ->. Qed.

End WorldFacts.


Lemma sliceTo_sublist {A} (arr : list A) (e : Z) : Js.sliceTo arr e `prefix_of` arr.
Proof. unfold Js.sliceTo. apply prefix_take. Qed.

Lemma trim_empty_length s : Js.trim s = "" → (0 <? String.length (Js.trim s))%nat = false.
Proof. by intros ->. Qed.

(** ** The FlexSearch revisions: the service *)

Section FlexServiceFacts.
Context {Raw Row Key : Type} `{Countable Key}.
Context (key : Row → Key) (codeOf descriptionOf : Row → string).
Context (rootOf : Row → option Key) (highlightedDescriptionOf : Row → option string).
Context (withHighlightedDescription : option string → Row → Row).
Context (keyOrder : Row → Row → Z) (normalize : Raw → Row).
Context (keyOfNumber : Z → option Key) (keyOfString : string → option Key).
Context (buildCachedData : nat → list Row → option (Flex.CachedData (Row := Row) (Key := Key))).
Context (flexSearch : Flex.FlexIndex (Key := Key) → string → option Z → RawNode).

Notation ServiceWorld :=
  (World Raw Row (Flex.CachedData (Row := Row) (Key := Key)) (Flex.FlexIndex (Key := Key))).
Notation ensureAllDataCache := (Flex.ensureAllDataCache (Raw := Raw) keyOrder buildCachedData).
Notation getAllData := (Flex.getAllData (Raw := Raw) keyOrder buildCachedData).
Notation searchByFields :=
  (Flex.searchByFields (Raw := Raw) key codeOf descriptionOf rootOf highlightedDescriptionOf
     withHighlightedDescription keyOrder keyOfNumber keyOfString buildCachedData
     flexSearch).

(** The four ways [ensureAllDataCache] goes: the cache is there; there is
    no window; the table is read and the cache built; or reading or building
    fails, which is logged and leaves an empty cache. *)
Lemma ensureAllDataCache_cases (w : ServiceWorld) :
  (∃ c, allData w = Some c ∧ ensureAllDataCache w = (Eff.Normal (Flex.cache c), w)) ∨
  (allData w = None ∧ window w = false ∧ ensureAllDataCache w = (Eff.Normal [], w)) ∨
  (allData w = None ∧ window w = true ∧ ∃ used rest c,
     faults w = (used ++ rest) ∧ (true ∉ used) ∧
     buildCachedData (stackLimit w) (Js.sort keyOrder (table w)) = Some c ∧
     ensureAllDataCache w
     = (Eff.Normal (Flex.cache c), setAllData (Some c) (setFaults rest w))) ∨
  (allData w = None ∧ window w = true ∧ ∃ used rest e,
     faults w = (used ++ rest) ∧
     (true ∈ used ∨
      buildCachedData (stackLimit w) (Js.sort keyOrder (table w)) = None) ∧
     ensureAllDataCache w
     = (Eff.Normal [],
        setAllData (Some Flex.emptyCachedData)
          (setConsole (console w ++ [ErrorBuildingCache e]) (setFaults rest w)))).
Proof.
  unfold Flex.ensureAllDataCache. run.
  destruct (allData w) as [c|] eqn:Hc; [by eauto|].
  destruct (window w) eqn:Hwin; cbn; [|by eauto 6].
  right. right. unfold getDb, Flex.toArray. rewrite Hwin.
  destruct (awaited_run Eff.StorageError
    (Eff.gets (λ w0 : ServiceWorld, Js.sort keyOrder (table w0))) w)
    as (used & rest & Hf & [[-> ->]|[Hused ->]]).
  - right. split; [done|]. split; [done|].
    exists [true], rest, Eff.StorageError. split; [done|]. split; [left; left|done].
  - run. cbn.
    destruct (buildCachedData (stackLimit w) (Js.sort keyOrder (table w))) as [c|] eqn:Hb.
    + left. split; [done|]. split; [done|]. by exists used, rest, c.
    + right. split; [done|]. split; [done|].
      exists used, rest, Eff.RangeError. split; [done|]. split; [by right|done].
Qed.

Lemma ensureAllDataCache_normal (w : ServiceWorld) :
  ∃ rows w', ensureAllDataCache w = (Eff.Normal rows, w').
Proof.
  destruct (ensureAllDataCache_cases w)
    as [(c & _ & ->)|[(_ & _ & ->)|[(_ & _ & ? & ? & c & _ & _ & _ & ->)|
        (_ & _ & ? & ? & ? & _ & _ & ->)]]]; eauto.
Qed.

(** [getAllData] returns what [ensureAllDataCache] returns. *)
Lemma getAllData_eq (w : ServiceWorld) : getAllData w = ensureAllDataCache w.
Proof.
  unfold Flex.getAllData. run.
  destruct (ensureAllDataCache_normal w) as (rows & w' & ->). done.
Qed.



End FlexServiceFacts.

(** ** The MiniSearch revision: the service *)

Module MiniSearchFacts.
Import MiniSearchRev.

Section Facts.
Context (host : Js.Host).
Context (miniSearch : MiniSearchIndex → string → list SearchResult).
Context (highlightTerm : string → string → option string).

Notation ServiceWorld := (World RawRecord CustomsRecord unit MiniSearchIndex).




End Facts.

End MiniSearchFacts.

(** ** The revision keyed by [id] *)

Module ParentIdFacts.
Import ParentIdRev.

Lemma sortChildren_le a b :
  sortChildren a b ≤ 0 ↔
  String.compare (code a) (code b) = Lt ∨
  (code a = code b ∧
   (String.compare (description a) (description b) = Lt ∨
    (description a = description b ∧ id a ≤ id b))).
Proof.
  unfold sortChildren, Js.str_lt.
  rewrite (String.compare_antisym (code b) (code a)).
  rewrite (String.compare_antisym (description b) (description a)).
  destruct (String.compare (code a) (code b)) eqn:Ec; simpl.
  - apply str_compare_eq in Ec.
    destruct (String.compare (description a) (description b)) eqn:Ed; simpl.
    + apply str_compare_eq in Ed. split; [intros; right; split; [done|]; right; split; [done|lia]|].
      intros [?|[_ [?|[_ ?]]]]; [done|done|lia].
    + split; [intros _; right; split; [done|]; by left|lia].
    + split; [lia|]. intros [?|[_ [?|[Hd _]]]]; [done|done|].
      apply str_compare_eq in Hd. congruence.
  - split; [by left|lia].
  - split; [lia|]. intros [?|[Hc _]]; [done|].
    apply str_compare_eq in Hc. congruence.
Qed.

Lemma sortChildren_total a b : sortChildren a b ≤ 0 ∨ sortChildren b a ≤ 0.
Proof.
  rewrite !sortChildren_le.
  destruct (String.compare (code a) (code b)) eqn:Ec.
  - apply str_compare_eq in Ec.
    destruct (String.compare (description a) (description b)) eqn:Ed.
    + apply str_compare_eq in Ed.
      destruct (Z.le_ge_cases (id a) (id b)); [left|right]; right;
        (split; [done|]); right; (split; [done|lia]).
    + left. right. split; [done|]. by left.
    + right. right. split; [done|]. left. by apply str_compare_gt.
  - left. by left.
  - right. left. by apply str_compare_gt.
Qed.

Lemma sortChildren_trans : Transitive (notAfter sortChildren).
Proof.
  intros a b c. unfold notAfter. rewrite !sortChildren_le.
  intros [Hab|[Hab Hdab]] [Hbc|[Hbc Hdbc]].
  - left. by apply (str_compare_lt_trans _ (code b)).
  - left. by rewrite <- Hbc.
  - left. by rewrite Hab.
  - right. split; [congruence|].
    destruct Hdab as [Hdab|[Hdab Hiab]], Hdbc as [Hdbc|[Hdbc Hibc]].
    + left. by apply (str_compare_lt_trans _ (description b)).
    + left. by rewrite <- Hdbc.
    + left. by rewrite Hdab.
    + right. split; [congruence|lia].
Qed.

Lemma sortChildren_sep a b :
  sortChildren a b ≤ 0 → sortChildren b a ≤ 0 → id a = id b.
Proof.
  rewrite !sortChildren_le.
  intros [Hab|[Hc [Hdab|[Hd Hi]]]] [Hba|[Hc' [Hdba|[Hd' Hi']]]];
    try (apply str_compare_gt in Hba); try (apply str_compare_gt in Hdba);
    try congruence; try lia.
  - rewrite Hc' in Hab. by rewrite str_compare_refl in Hab.
  - rewrite Hc' in Hab. by rewrite str_compare_refl in Hab.
  - rewrite Hc in Hba. by rewrite str_compare_refl in Hba.
  - rewrite Hd' in Hdab. by rewrite str_compare_refl in Hdab.
  - rewrite Hc in Hba. by rewrite str_compare_refl in Hba.
  - rewrite Hd in Hdba. by rewrite str_compare_refl in Hdba.
Qed.

End ParentIdFacts.

(** A list sorted by a comparator that separates different keys is strictly
    increasing. *)
Lemma StronglySorted_strict {A B} (R S : relation A) (f : A → B) (l : list A) :
  (∀ a b, R a b → S a b ∨ f a = f b) →
  NoDup (f <$> l) → StronglySorted R l → StronglySorted S l.
Proof.
  intros HRS Hnd Hsorted. induction Hsorted as [|x l Hl IH Hx]; [constructor|].
  csimpl in Hnd. apply NoDup_cons in Hnd as [Hxl Hnd].
  constructor; [by apply IH|].
  rewrite Forall_forall in Hx. apply Forall_forall. intros y Hy.
  destruct (HRS x y (Hx y Hy)) as [?|Heq]; [done|].
  destruct Hxl. rewrite Heq. by apply list_elem_of_fmap_2.
Qed.

(** ** De-duplication of search hits *)

Section DedupFacts.
Context {Key : Type} `{EqDecision Key}.
Implicit Types (d hits : list (Key * option string)) (h : Key * option string).

Lemma dedupStep_ids d h :
  fst <$> Flex.dedupStep d h
  = if decide (fst h ∈ fst <$> d) then fst <$> d else (fst <$> d) ++ [fst h].
Proof.
  induction d as [|[id hl] d IH].
  { case_decide as Hin; [by apply elem_of_nil in Hin|done]. }
  cbn [Flex.dedupStep]. destruct (decide (id = fst h)) as [->|Hne].
  - rewrite decide_True by (csimpl; left).
    by destruct (negb _ && _).
  - rewrite fmap_cons, IH. cbn [fst].
    destruct (decide (fst h ∈ fst <$> d)) as [Hin|Hout].
    + rewrite decide_True; [done|]. csimpl. by right.
    + rewrite decide_False; [done|]. csimpl.
      intros [?|?]%elem_of_cons; [congruence|done].
Qed.

Lemma dedupStep_elem_of d h x :
  x ∈ Flex.dedupStep d h → x ∈ d ∨ x = h.
Proof.
  induction d as [|[id hl] d IH]; csimpl.
  { intros ->%list_elem_of_singleton. by right. }
  destruct (decide (id = fst h)) as [->|Hne].
  - destruct (negb (Flex.truthy hl) && Flex.truthy (snd h)).
    + intros [->|?]%elem_of_cons; [right; by destruct h|left; by right].
    + by left.
  - intros [->|Hx]%elem_of_cons; [left; left|].
    destruct (IH Hx); [left; by right|by right].
Qed.

(** An entry that carries a highlight is never replaced, and a hit that
    carries one leaves its id with one. *)
Lemma dedupStep_truthy d h k :
  (k = fst h ∧ Flex.truthy (snd h) = true) ∨
  (∃ hl, (k, hl) ∈ d ∧ Flex.truthy hl = true) →
  ∃ hl, (k, hl) ∈ Flex.dedupStep d h ∧ Flex.truthy hl = true.
Proof.
  induction d as [|[id hl] d IH]; csimpl.
  { intros [[-> Ht]|(hl & Hin & _)]; [|by apply elem_of_nil in Hin].
    exists (snd h). split; [|done]. destruct h. by apply list_elem_of_singleton. }
  intros Hk. destruct (decide (id = fst h)) as [->|Hne].
  - destruct (Flex.truthy hl) eqn:Hhl; simpl.
    + destruct Hk as [[-> _]|(hl' & [[= -> ->]|Hin]%elem_of_cons & Ht)].
      * exists hl. split; [left|done].
      * exists hl. split; [left|done].
      * exists hl'. split; [by right|done].
    + destruct (Flex.truthy (snd h)) eqn:Hh; simpl.
      * destruct Hk as [[-> _]|(hl' & [[= -> ->]|Hin]%elem_of_cons & Ht)].
        -- exists (snd h). split; [left|done].
        -- congruence.
        -- exists hl'. split; [by right|done].
      * destruct Hk as [[-> ?]|(hl' & [[= -> ->]|Hin]%elem_of_cons & Ht)];
          [congruence|congruence|].
        exists hl'. split; [by right|done].
  - destruct Hk as [Hk|(hl' & [[= -> ->]|Hin]%elem_of_cons & Ht)].
    + destruct (IH (or_introl Hk)) as (hl' & Hin & Ht).
      exists hl'. split; [by right|done].
    + exists hl. split; [left|done].
    + destruct (IH (or_intror (ex_intro _ hl' (conj Hin Ht)))) as (hl'' & Hin' & Ht').
      exists hl''. split; [by right|done].
Qed.

Lemma dedup_fold_spec d hits :
  NoDup (fst <$> d) →
  NoDup (fst <$> foldl Flex.dedupStep d hits) ∧
  (∀ k, k ∈ fst <$> foldl Flex.dedupStep d hits ↔ k ∈ fst <$> d ∨ k ∈ fst <$> hits) ∧
  (∀ x, x ∈ foldl Flex.dedupStep d hits → x ∈ d ∨ x ∈ hits) ∧
  (∀ k, (∃ hl, ((k, hl) ∈ d ∨ (k, hl) ∈ hits) ∧ Flex.truthy hl = true) →
        ∃ hl, (k, hl) ∈ foldl Flex.dedupStep d hits ∧ Flex.truthy hl = true).
Proof.
  revert d. induction hits as [|h hits IH]; intros d Hnd; csimpl.
  { split; [done|]. split; [|split].
    - intros k. rewrite elem_of_nil. tauto.
    - by left.
    - intros k (hl & [Hin|Hin] & Ht); [by eauto|by apply elem_of_nil in Hin]. }
  assert (NoDup (fst <$> Flex.dedupStep d h)) as Hnd'.
  { rewrite dedupStep_ids. case_decide as Hin; [done|].
    apply NoDup_app. split; [done|]. split; [|apply NoDup_singleton].
    intros x Hx ->%list_elem_of_singleton. done. }
  destruct (IH _ Hnd') as (H1 & H2 & H3 & H4).
  split; [done|]. split; [|split].
  - intros k. rewrite H2, dedupStep_ids, elem_of_cons.
    case_decide as Hin.
    + split; [tauto|]. intros [?|[->|?]]; tauto.
    + rewrite elem_of_app, list_elem_of_singleton. tauto.
  - intros x Hx. destruct (H3 x Hx) as [Hd|Hh]; [|right; by right].
    destruct (dedupStep_elem_of _ _ _ Hd) as [?| ->]; [by left|right; left].
  - intros k (hl & Hin & Ht). apply H4.
    assert (∃ hl', (k, hl') ∈ Flex.dedupStep d h ∧ Flex.truthy hl' = true ∨
                   (k, hl') ∈ hits ∧ Flex.truthy hl' = true) as (hl' & Hcase).
    { destruct Hin as [Hin|[<-|Hin]%elem_of_cons].
      - destruct (dedupStep_truthy d h k) as (hl' & ? & ?); [right; eauto|].
        exists hl'. by left.
      - destruct (dedupStep_truthy d (k, hl) k) as (hl' & ? & ?); [left; done|].
        exists hl'. by left.
      - exists hl. by right. }
    exists hl'. destruct Hcase as [[? ?]|[? ?]]; split; auto.
Qed.

End DedupFacts.

(** ** Assembling the result rows *)

Section EmitFacts.
Context {Row Key : Type} `{Countable Key}.
Context (key : Row → Key) (highlightedDescriptionOf : Row → option string).
Context (withHighlightedDescription : option string → Row → Row).

Notation CachedData := (Flex.CachedData (Row := Row) (Key := Key)).
Notation resultRow := (Flex.resultRow key highlightedDescriptionOf withHighlightedDescription).
Notation emitRows := (Flex.emitRows key highlightedDescriptionOf withHighlightedDescription).
Notation emitRoots := (Flex.emitRoots key highlightedDescriptionOf withHighlightedDescription).

(** The rows of the matched roots, in the order of [rootOrder]. *)
Definition matchedRows (c : CachedData) (matchedRoots : gset Key) (roots : list Key)
  : list Row :=
  flat_map (λ root, default [] (Flex.byRoot c !! root))
    (filter (λ root, root ∈ matchedRoots) roots).

(** The inner loop pushes rows one after the other and returns as soon as
    [itemLimit] rows are there. *)
Lemma emitRows_spec hl (itemLimit : Z) rowsForRoot results :
  ∃ n, (n ≤ length rowsForRoot)%nat ∧
    fst (emitRows hl itemLimit rowsForRoot results)
    = results ++ (resultRow hl <$> take n rowsForRoot) ∧
    (snd (emitRows hl itemLimit rowsForRoot results) = false →
       n = length rowsForRoot ∧
       (rowsForRoot = [] ∨
        Z.of_nat (length (fst (emitRows hl itemLimit rowsForRoot results))) < itemLimit)) ∧
    (snd (emitRows hl itemLimit rowsForRoot results) = true →
       (0 < n)%nat ∧
       itemLimit ≤ Z.of_nat (length (fst (emitRows hl itemLimit rowsForRoot results))) ∧
       Z.of_nat (length (fst (emitRows hl itemLimit rowsForRoot results)))
       ≤ Z.max itemLimit (Z.of_nat (length results) + 1)).
Proof.
  revert results. induction rowsForRoot as [|r rest IH]; intros results; cbn [Flex.emitRows].
  { exists 0%nat. cbn. rewrite app_nil_r. repeat split; auto; done. }
  destruct (Z.leb_spec itemLimit (Z.of_nat (length (results ++ [resultRow hl r]))))
    as [Hle|Hgt]; cbn [fst snd].
  - exists 1%nat. cbn. split; [lia|]. split; [done|]. split; [done|].
    intros _. split; [lia|]. split; [done|]. rewrite length_app in *. cbn in *. lia.
  - destruct (IH (results ++ [resultRow hl r])) as (n & Hn & Hfst & Hfalse & Htrue).
    exists (S n). cbn. split; [lia|]. split.
    { rewrite Hfst, <- app_assoc. done. }
    split.
    + intros Hstop. destruct (Hfalse Hstop) as [-> Hcase]. split; [done|]. right.
      destruct Hcase as [->|?]; [|done]. cbn. done.
    + intros Hstop. destruct (Htrue Hstop) as (_ & H1 & H2). split; [lia|].
      split; [done|]. rewrite length_app in *. cbn in *. lia.
Qed.

(** What [buildSearchResults] emits is a prefix of the rows of the matched
    roots, in root order. *)
Lemma emitRoots_prefix c matchedRoots hl (itemLimit : Z) roots results :
  ∃ emitted,
    emitRoots c matchedRoots hl itemLimit roots results = results ++ emitted ∧
    emitted `prefix_of` (resultRow hl <$> matchedRows c matchedRoots roots).
Proof.
  revert results. induction roots as [|root rest IH]; intros results; cbn [Flex.emitRoots].
  { exists []. rewrite app_nil_r. split; [done|]. apply prefix_nil. }
  unfold matchedRows. rewrite filter_cons.
  destruct (decide (root ∈ matchedRoots)) as [Hin|Hout]; [|apply IH].
  cbn [flat_map]. destruct (Flex.byRoot c !! root) as [bucket|] eqn:Hb; cbn [default].
  2:{ apply IH. }
  destruct (emitRows_spec hl itemLimit bucket results) as (n & Hn & Hfst & Hfalse & Htrue).
  destruct (emitRows hl itemLimit bucket results) as [results' stop]; cbn [fst snd] in *.
  destruct stop.
  - exists (resultRow hl <$> take n bucket). split; [done|].
    exists ((resultRow hl <$> drop n bucket)
            ++ (resultRow hl <$> matchedRows c matchedRoots rest)).
    rewrite app_assoc, <- fmap_app, take_drop. by rewrite fmap_app.
  - destruct (Hfalse eq_refl) as [-> _]. rewrite firstn_all in Hfst. subst results'.
    destruct (IH (results ++ (resultRow hl <$> bucket))) as (emitted & -> & [k Hk]).
    exists ((resultRow hl <$> bucket) ++ emitted). split; [by rewrite app_assoc|].
    exists k. rewrite fmap_app. unfold matchedRows in Hk. rewrite Hk.
    by rewrite app_assoc.
Qed.

(** Nothing is cut when fewer than [itemLimit] rows come back. *)
Lemma emitRoots_untruncated c matchedRoots hl (itemLimit : Z) roots results :
  Z.of_nat (length (emitRoots c matchedRoots hl itemLimit roots results)) < itemLimit →
  emitRoots c matchedRoots hl itemLimit roots results
  = results ++ (resultRow hl <$> matchedRows c matchedRoots roots).
Proof.
  revert results. induction roots as [|root rest IH]; intros results; cbn [Flex.emitRoots].
  { intros _. unfold matchedRows. cbn. by rewrite app_nil_r. }
  unfold matchedRows. rewrite filter_cons.
  destruct (decide (root ∈ matchedRoots)) as [Hin|Hout]; [|apply IH].
  cbn [flat_map]. destruct (Flex.byRoot c !! root) as [bucket|] eqn:Hb; cbn [default].
  2:{ apply IH. }
  destruct (emitRows_spec hl itemLimit bucket results) as (n & Hn & Hfst & Hfalse & Htrue).
  destruct (emitRows hl itemLimit bucket results) as [results' stop]; cbn [fst snd] in *.
  destruct stop.
  - intros Hlt. destruct (Htrue eq_refl) as (_ & Hge & _). lia.
  - destruct (Hfalse eq_refl) as [-> _]. rewrite firstn_all in Hfst. subst results'.
    intros Hlt. rewrite (IH _ Hlt). rewrite fmap_app. unfold matchedRows.
    by rewrite app_assoc.
Qed.

(** The inner loop, exactly: with fewer than [max itemLimit 1] rows
    pushed so far it pushes the rows of the bucket up to that number, and
    returns when the number is reached. *)
Lemma emitRows_exact hl (itemLimit : Z) rowsForRoot results :
  (length results < Z.to_nat (Z.max itemLimit 1))%nat →
  emitRows hl itemLimit rowsForRoot results
  = (results ++ (resultRow hl <$>
                   take (Z.to_nat (Z.max itemLimit 1) - length results) rowsForRoot),
     bool_decide (Z.to_nat (Z.max itemLimit 1) - length results ≤ length rowsForRoot)%nat).
Proof.
  revert results. induction rowsForRoot as [|r rest IH]; intros results Hlt;
    cbn [Flex.emitRows].
  { rewrite take_nil. cbn. rewrite app_nil_r. rewrite bool_decide_eq_false_2; [done|]. lia. }
  rewrite length_app. cbn [length].
  destruct (Z.leb_spec itemLimit (Z.of_nat (length results + 1))) as [Hle|Hgt].
  - replace (Z.to_nat (Z.max itemLimit 1) - length results)%nat with 1%nat by lia.
    cbn. rewrite take_0. rewrite bool_decide_eq_true_2; [done|]. lia.
  - rewrite IH by (rewrite length_app; cbn; lia).
    rewrite length_app. cbn [length].
    replace (Z.to_nat (Z.max itemLimit 1) - length results)%nat
      with (S (Z.to_nat (Z.max itemLimit 1) - (length results + 1)))%nat by lia.
    cbn [take fmap list_fmap]. rewrite <- app_assoc. cbn [app]. f_equal.
    apply bool_decide_ext. lia.
Qed.

(** The outer loop, exactly: the first [max itemLimit 1] rows of the matched
    roots. *)
Lemma emitRoots_exact c matchedRoots hl (itemLimit : Z) roots results :
  (length results < Z.to_nat (Z.max itemLimit 1))%nat →
  emitRoots c matchedRoots hl itemLimit roots results
  = results ++ (resultRow hl <$>
                  take (Z.to_nat (Z.max itemLimit 1) - length results)
                    (matchedRows c matchedRoots roots)).
Proof.
  revert results. induction roots as [|root rest IH]; intros results Hlt;
    cbn [Flex.emitRoots].
  { unfold matchedRows. cbn. rewrite take_nil. cbn. by rewrite app_nil_r. }
  unfold matchedRows. rewrite filter_cons.
  destruct (decide (root ∈ matchedRoots)) as [Hin|Hout]; [|by apply IH].
  cbn [flat_map]. destruct (Flex.byRoot c !! root) as [bucket|] eqn:Hb; cbn [default].
  2:{ by apply IH. }
  rewrite emitRows_exact by done.
  case_bool_decide as Hstop.
  - unfold id. by rewrite take_app_le by done.
  - rewrite take_ge by lia. rewrite IH by (rewrite length_app, length_fmap; lia).
    rewrite length_app, length_fmap, <- app_assoc. f_equal.
    unfold id. rewrite take_app_ge by lia. rewrite fmap_app. f_equal. f_equal.
    unfold matchedRows. f_equal. lia.
Qed.

End EmitFacts.

Lemma flat_map_ext_elem {A B} (f g : A → list B) (l : list A) :
  (∀ x, x ∈ l → f x = g x) → flat_map f l = flat_map g l.
Proof.
  induction l as [|x l IH]; intros Hl; [done|]. cbn.
  rewrite (Hl x) by left. f_equal. apply IH. intros y Hy. apply Hl. by right.
Qed.

Lemma filter_none {A} (P : A → Prop) `{∀ x, Decision (P x)} (l : list A) :
  (∀ x, x ∈ l → ¬ P x) → filter P l = [].
Proof.
  induction l as [|x l IH]; intros Hl; [done|].
  rewrite filter_cons, decide_False by (apply Hl; left).
  apply IH. intros y Hy. apply Hl. by right.
Qed.

(** ** Grouping rows under their root *)

Section GroupFacts.
Context {Row Key : Type} `{Countable Key}.
(** The root a processed row carries. *)
Context (rootOf : Row → option Key).

(** The buckets, the order of the roots and the rows processed so far fit
    together. *)
Definition grouped (byRoot : gmap Key (list Row)) (rootOrder : list Key)
    (cloned : list Row) : Prop :=
  NoDup rootOrder ∧
  (∀ root, root ∈ rootOrder ↔ ∃ r, r ∈ cloned ∧ rootOf r = Some root) ∧
  (∀ root, byRoot !! root
           = if decide (root ∈ rootOrder)
             then Some (filter (λ r, rootOf r = Some root) cloned) else None).

Lemma grouped_empty : grouped ∅ [] [].
Proof.
  split; [constructor|]. split.
  - intros root. split; [by intros ?%elem_of_nil|].
    intros (r & ?%elem_of_nil & _). done.
  - intros root. rewrite lookup_empty. by rewrite decide_False by apply not_elem_of_nil.
Qed.

(** One more row: a first row of its root opens a bucket at the end of the
    order, any other row joins the bucket of its root. *)
Lemma grouped_step byRoot rootOrder cloned row root :
  grouped byRoot rootOrder cloned → rootOf row = Some root →
  match byRoot !! root with
  | None => grouped (<[root := [row]]> byRoot) (rootOrder ++ [root]) (cloned ++ [row])
  | Some bucket => grouped (<[root := bucket ++ [row]]> byRoot) rootOrder (cloned ++ [row])
  end.
Proof.
  intros (Hnd & Hin & Hlk) Hroot.
  pose proof (Hlk root) as Hb. destruct (decide (root ∈ rootOrder)) as [Hroot_in|Hroot_out];
    rewrite Hb.
  - split; [done|]. split.
    + intros k. rewrite Hin. split.
      * intros (r & Hr & Hk). exists r. split; [|done]. apply elem_of_app. by left.
      * intros (r & [Hr| ->%list_elem_of_singleton]%elem_of_app & Hk); [by eauto|].
        assert (k = root) as -> by congruence. by apply Hin.
    + intros k. rewrite lookup_insert. case_decide as Hk; subst.
      * rewrite decide_True by done. rewrite filter_app. f_equal. f_equal.
        rewrite filter_cons, decide_True by done. done.
      * rewrite Hlk. case_decide; [|done]. rewrite filter_app. f_equal.
        rewrite filter_cons, decide_False by congruence. by rewrite app_nil_r.
  - split.
    { apply NoDup_app. split; [done|]. split; [|apply NoDup_singleton].
      intros x Hx ->%list_elem_of_singleton. done. }
    split.
    + intros k. rewrite elem_of_app, list_elem_of_singleton, Hin. split.
      * intros [(r & Hr & Hk)| ->].
        -- exists r. split; [|done]. apply elem_of_app. by left.
        -- exists row. split; [|done]. apply elem_of_app. right. left.
      * intros (r & [Hr| ->%list_elem_of_singleton]%elem_of_app & Hk); [left; by eauto|].
        right. congruence.
    + intros k. rewrite lookup_insert. case_decide as Hk; subst.
      * rewrite decide_True by (apply elem_of_app; right; left).
        rewrite filter_app. f_equal.
        rewrite (filter_none (λ r, rootOf r = Some k) cloned).
        { by rewrite filter_cons, decide_True by done. }
        intros r Hr Hk. apply Hroot_out, Hin. by eauto.
      * rewrite Hlk.
        destruct (decide (k ∈ rootOrder)) as [Hk_in|Hk_out].
        -- rewrite decide_True by (apply elem_of_app; by left).
           rewrite filter_app. f_equal.
           rewrite filter_cons, decide_False by congruence. by rewrite app_nil_r.
        -- rewrite decide_False; [done|].
           intros [?| ->%list_elem_of_singleton]%elem_of_app; done.
Qed.

(** Every processed row sits in exactly one bucket. *)
Lemma grouped_partition byRoot rootOrder cloned :
  grouped byRoot rootOrder cloned →
  (∀ r, r ∈ cloned → is_Some (rootOf r)) →
  flat_map (λ root, default [] (byRoot !! root)) rootOrder ≡ₚ cloned.
Proof.
  intros (Hnd & Hin & Hlk) Hsome.
  rewrite (flat_map_ext_elem (λ root, default [] (byRoot !! root))
             (λ root, filter (λ r, rootOf r = Some root) cloned)).
  2:{ intros root Hroot. by rewrite Hlk, decide_True. }
  assert (∀ r, r ∈ cloned → ∃ root, rootOf r = Some root ∧ root ∈ rootOrder) as Hall.
  { intros r Hr. destruct (Hsome r Hr) as [root Hroot]. exists root. split; [done|].
    apply Hin. by eauto. }
  clear Hin Hlk Hsome. induction cloned as [|x l IH].
  { clear. induction rootOrder as [|k ks IH]; cbn; [done|by apply IH]. }
  destruct (Hall x) as (root & Hx & Hroot); [left|].
  transitivity (x :: flat_map (λ root, filter (λ r, rootOf r = Some root) l) rootOrder).
  2:{ constructor. apply IH. intros r Hr. apply Hall. by right. }
  clear IH Hall. revert Hroot. induction Hnd as [|k ks Hk Hnd IH]; intros Hroot.
  { by apply elem_of_nil in Hroot. }
  cbn [flat_map]. rewrite filter_cons.
  destruct (decide (rootOf x = Some k)) as [Hxk|Hxk].
  - assert (k = root) as -> by congruence.
    cbn [flat_map app]. constructor. apply Permutation_app_head.
    apply reflexive_eq, flat_map_ext_elem. intros k' Hk'.
    rewrite filter_cons, decide_False; [done|].
    intros Hxk'. assert (k' = root) as -> by congruence. done.
  - apply elem_of_cons in Hroot as [->|Hroot]; [congruence|].
    rewrite (IH Hroot). symmetry. apply Permutation_middle.
Qed.

End GroupFacts.

(** ** Maps filled from a list, and lists read side by side *)

Lemma None_is_Some {A} (x : option A) : x = None → is_Some x → False.
Proof. intros -> [? [=]]. Qed.

Lemma Some_agree {A} (x : option A) (a b : A) : x = Some a → x = Some b → a = b.
Proof. congruence. Qed.

Lemma foldl_insert_lookup {K A} `{Countable K} (key : A → K) (l : list A)
    (m : gmap K A) (k : K) :
  foldl (λ m row, <[key row := row]> m) m l !! k
  = match last (filter (λ r, key r = k) l) with
    | Some r => Some r
    | None => m !! k
    end.
Proof.
  revert m. induction l as [|x l IH]; intros m; cbn [foldl]; [done|].
  rewrite IH, filter_cons. destruct (decide (key x = k)) as [<-|Hk].
  - rewrite last_cons. destruct (last _); [done|]. by rewrite lookup_insert, decide_True.
  - destruct (last _); [done|]. by rewrite lookup_insert, decide_False.
Qed.

Lemma last_filter_unique {K A} `{EqDecision K} (key : A → K) (l : list A) (r : A) :
  NoDup (key <$> l) → r ∈ l → last (filter (λ x, key x = key r) l) = Some r.
Proof.
  induction l as [|x l IH]; csimpl; intros Hnd Hr; [by apply elem_of_nil in Hr|].
  apply NoDup_cons in Hnd as [Hx Hnd]. rewrite filter_cons.
  apply elem_of_cons in Hr as [->|Hr].
  - rewrite decide_True by done. rewrite last_cons.
    rewrite (filter_none (λ x0, key x0 = key x) l); [done|].
    intros y Hy Hk. apply Hx. rewrite <- Hk. by apply list_elem_of_fmap_2.
  - rewrite decide_False; [by apply IH|].
    intros Hk. apply Hx. rewrite Hk. by apply list_elem_of_fmap_2.
Qed.

Lemma Sorted_Forall2 {A B} (R : relation A) (R' : relation B) (P : B → A → Prop)
    (l' : list B) (l : list A) :
  (∀ a' b' a b, P a' a → P b' b → R a b → R' a' b') →
  Forall2 P l' l → Sorted R l → Sorted R' l'.
Proof.
  intros HR HP. induction HP as [|a' a l' l Ha HP IH]; intros Hs; [constructor|].
  apply Sorted_inv in Hs as [Hs Hhd]. constructor; [by apply IH|].
  destruct HP as [|b' b l' l Hb HP]; constructor.
  apply HdRel_inv in Hhd. by apply (HR a' b' a b).
Qed.

Lemma byCodeOrder_le {Row} (codeOf : Row → string) (a b : Row) :
  byCodeOrder codeOf a b ≤ 0 ↔ str_le (codeOf a) (codeOf b).
Proof.
  unfold byCodeOrder, Js.str_lt, str_le.
  rewrite (String.compare_antisym (codeOf b) (codeOf a)).
  destruct (String.compare (codeOf a) (codeOf b)); simpl; split; (done || lia).
Qed.

Lemma byCodeOrder_total {Row} (codeOf : Row → string) (a b : Row) :
  notAfter (byCodeOrder codeOf) a b ∨ notAfter (byCodeOrder codeOf) b a.
Proof. unfold notAfter. rewrite !byCodeOrder_le. apply str_le_total. Qed.

(** ** Prefixes of one string *)

Lemma str_prefix_refl s : String.prefix s s = true.
Proof. induction s as [|c s IH]; simpl; [done|]. by destruct (ascii_dec c c). Qed.

Lemma str_prefix_trans a b c :
  String.prefix a b = true → String.prefix b c = true → String.prefix a c = true.
Proof.
  revert b c. induction a as [|x a IH]; intros [|y b] [|z c]; simpl; try done.
  destruct (ascii_dec x y) as [->|]; [|done].
  destruct (ascii_dec y z) as [->|]; [|done]. apply IH.
Qed.

Lemma str_prefix_chain q r c :
  String.prefix q c = true → String.prefix r c = true →
  (String.length q ≤ String.length r)%nat → String.prefix q r = true.
Proof.
  revert r c. induction q as [|x q IH]; intros [|y r] [|z c]; simpl; try done; try lia.
  destruct (ascii_dec x z) as [->|]; [|done].
  destruct (ascii_dec y z) as [->|]; [|done].
  destruct (ascii_dec z z); [|done]. intros ?? Hlen. apply (IH r c); [done..|lia].
Qed.

Lemma str_prefix_same_length q r :
  String.prefix q r = true → String.length q = String.length r → q = r.
Proof.
  revert r. induction q as [|x q IH]; intros [|y r]; simpl; try done.
  destruct (ascii_dec x y) as [->|]; [|done]. intros Hq [= Hlen]. f_equal. by apply IH.
Qed.

(** ** The code-keyed FlexSearch revision: roots and buckets *)

Module FlexCodeFacts.
Import CodeKeyed CodeKeyedFacts FlexCodeRev.

Lemma findParentCodeFrom_None c codes i :
  findParentCodeFrom c codes i = None ↔
  ∀ j, (0 < j ≤ i)%nat → Js.slice0 c j ∉ codes.
Proof.
  induction i as [|i IH]; simpl.
  { split; [|done]. intros _ j Hj. lia. }
  case_decide as Hin.
  - split; [done|]. intros Hall. exfalso. apply (Hall (S i)); [lia|done].
  - rewrite IH. split; intros Hall j Hj.
    + destruct (decide (j = S i)) as [->|]; [done|]. apply Hall. lia.
    + apply Hall. lia.
Qed.

Lemma findParentCode_None c codes :
  findParentCode c codes = None ↔
  ∀ q, q ∈ codes → String.prefix q c = true →
       ¬ (0 < String.length q < String.length c)%nat.
Proof.
  unfold findParentCode. rewrite findParentCodeFrom_None. split.
  - intros Hall q Hq Hpre Hlen. apply (Hall (String.length q)); [lia|].
    by rewrite <- prefix_is_slice0.
  - intros Hall j Hj Hin. apply (Hall (Js.slice0 c j)); [done|apply prefix_slice0|].
    rewrite length_slice0. lia.
Qed.

(** The root of a code: the shortest non-empty prefix of the code among the
    present codes, or the code itself where it has no such proper prefix. *)
Definition shortestPrefix (codes : gset string) (r c : string) : Prop :=
  String.prefix r c = true ∧
  (r = c ∨ (r ∈ codes ∧ 0 < String.length r < String.length c)%nat) ∧
  ∀ q, q ∈ codes → String.prefix q c = true → (0 < String.length q)%nat →
       (String.length r ≤ String.length q)%nat.

Lemma shortestPrefix_unique codes r1 r2 c :
  shortestPrefix codes r1 c → shortestPrefix codes r2 c → r1 = r2.
Proof.
  intros (Hp1 & Hc1 & Hmin1) (Hp2 & Hc2 & Hmin2).
  pose proof (prefix_length _ _ Hp1). pose proof (prefix_length _ _ Hp2).
  destruct Hc1 as [->|[Hin1 Hl1]], Hc2 as [->|[Hin2 Hl2]]; [done|..].
  - pose proof (Hmin1 r2 Hin2 Hp2 ltac:(lia)). lia.
  - pose proof (Hmin2 r1 Hin1 Hp1 ltac:(lia)). lia.
  - pose proof (Hmin1 r2 Hin2 Hp2 ltac:(lia)).
    pose proof (Hmin2 r1 Hin1 Hp1 ltac:(lia)).
    apply str_prefix_same_length; [|lia]. apply (str_prefix_chain _ _ c); [done..|lia].
Qed.

(** A prefix without a parent among the codes is the shortest one. *)
Lemma shortestPrefix_intro codes r c :
  String.prefix r c = true →
  (r = c ∨ (r ∈ codes ∧ 0 < String.length r < String.length c)%nat) →
  findParentCode r codes = None → shortestPrefix codes r c.
Proof.
  intros Hpre Hcase Hnone. split; [done|]. split; [done|].
  intros q Hq Hqc Hpos.
  destruct (decide (String.length r ≤ String.length q)%nat) as [|Hlt]; [done|].
  exfalso. apply (proj1 (findParentCode_None r codes) Hnone q); [done| |lia].
  apply (str_prefix_chain _ _ c); [done..|lia].
Qed.

Lemma findRootWalk_spec codes c fuel last :
  (String.length last ≤ fuel)%nat →
  String.prefix last c = true →
  (last = c ∨ (last ∈ codes ∧ 0 < String.length last < String.length c)%nat) →
  ∃ r, findRootWalk fuel codes (findParentCode last codes) last = Some r ∧
       shortestPrefix codes r c.
Proof.
  revert last. induction fuel as [|fuel IH]; intros last Hlen Hpre Hcase.
  - destruct (findParentCode last codes) as [p|] eqn:Hp.
    { apply findParentCode_shorter in Hp. lia. }
    exists last. split; [done|]. by apply shortestPrefix_intro.
  - destruct (findParentCode last codes) as [p|] eqn:Hp; simpl.
    + pose proof (findParentCode_shorter _ _ _ Hp) as Hshort.
      apply findParentCode_Some in Hp as (Hin & Hpl & Hl & _).
      pose proof (prefix_length _ _ Hpre).
      apply IH; [lia|by apply (str_prefix_trans _ last)|].
      right. split; [done|lia].
    + exists last. split; [done|]. by apply shortestPrefix_intro.
Qed.

(** The memoized roots are the roots the walk finds. *)
Definition cacheSound (codes : gset string) (rootCache : gmap string string) : Prop :=
  ∀ c r, rootCache !! c = Some r → shortestPrefix codes r c.

Lemma findRoot_spec codes rootCache c :
  cacheSound codes rootCache →
  ∃ r, fst (findRoot codes rootCache c) = r ∧ shortestPrefix codes r c ∧
       cacheSound codes (snd (findRoot codes rootCache c)) ∧
       snd (findRoot codes rootCache c) !! c = Some r ∧
       (rootCache !! c = None →
        findRootWalk (String.length c) codes (findParentCode c codes) c = Some r).
Proof.
  intros Hsound. unfold findRoot.
  destruct (rootCache !! c) as [r|] eqn:Hc; simpl.
  { exists r. split; [done|]. split; [by apply Hsound|].
    split; [done|]. split; [done|]. intros [=]. }
  destruct (findRootWalk_spec codes c (String.length c) c) as (r & Hwalk & Hr);
    [done|apply str_prefix_refl|by left|].
  rewrite Hwalk. simpl. exists r. split; [done|]. split; [done|]. split; [|split].
  - intros c' r'. rewrite lookup_insert. case_decide as Hcc.
    + subst c'. by intros [= <-].
    + apply Hsound.
  - by rewrite lookup_insert, decide_True.
  - done.
Qed.

(** A row of the cache: the row of the table with its root set. *)
Definition rooted (codes : gset string) (r' r : CustomsFlatRow) : Prop :=
  ∃ root, r' = withRootCode (Some root) r ∧ shortestPrefix codes root (code r).

Definition stateSound (codes : gset string) (st : BuildState)
    (processed : list CustomsFlatRow) : Prop :=
  cacheSound codes (st_rootCache st) ∧
  Forall2 (rooted codes) (st_cloned st) processed ∧
  grouped rootCode (st_byRootCode st) (st_rootOrder st) (st_cloned st).

Lemma assignRoot_sound codes st processed row :
  stateSound codes st processed →
  stateSound codes (assignRoot codes st row) (processed ++ [row]).
Proof.
  intros (Hcache & Hrows & Hgroups). unfold assignRoot.
  destruct (findRoot_spec codes (st_rootCache st) (code row) Hcache)
    as (root & Hfst & Hroot & Hcache' & _).
  destruct (findRoot codes (st_rootCache st) (code row)) as [root' rootCache'].
  simpl in Hfst, Hcache'. subst root'.
  pose proof (grouped_step (Row := CustomsFlatRow) rootCode _ _ _
                (withRootCode (Some root) row) root Hgroups eq_refl) as Hstep.
  assert (Forall2 (rooted codes) (st_cloned st ++ [withRootCode (Some root) row])
            (processed ++ [row])) as Hrows'.
  { apply Forall2_app; [done|]. constructor; [|constructor]. by exists root. }
  destruct (st_byRootCode st !! root) as [bucket|];
    (split; [exact Hcache'|split; [exact Hrows'|exact Hstep]]).
Qed.

Lemma foldl_assignRoot_sound codes rows st processed :
  stateSound codes st processed →
  stateSound codes (foldl (assignRoot codes) st rows) (processed ++ rows).
Proof.
  revert st processed. induction rows as [|row rows IH]; intros st processed Hst; cbn [foldl].
  { by rewrite app_nil_r. }
  rewrite (cons_middle row), app_assoc. apply IH. by apply assignRoot_sound.
Qed.

Lemma presentCodes_sort rows :
  list_to_set (code <$> Js.sort (byCodeOrder code) rows) = presentCodes rows.
Proof.
  unfold presentCodes. apply set_eq. intros c.
  by rewrite !elem_of_list_to_set, sort_Permutation.
Qed.

Lemma buildState_sound rows :
  stateSound (presentCodes rows) (buildState rows) (Js.sort (byCodeOrder code) rows).
Proof.
  unfold buildState. cbn zeta. rewrite presentCodes_sort.
  apply (foldl_assignRoot_sound _ _ _ []).
  split; [done|]. split; [constructor|]. apply grouped_empty.
Qed.

Lemma shortestPrefix_root codes r c :
  shortestPrefix codes r c → findParentCode r codes = None.
Proof.
  intros (Hpre & _ & Hmin). apply findParentCode_None. intros q Hq Hqr Hlen.
  pose proof (Hmin q Hq (str_prefix_trans _ _ _ Hqr Hpre)). lia.
Qed.

Lemma shortestPrefix_present codes r c :
  c ∈ codes → shortestPrefix codes r c → r ∈ codes.
Proof. by intros Hc (_ & [->|[? _]] & _). Qed.

End FlexCodeFacts.

(** ** The revision with parent links: roots and buckets *)

Module ParentIdRootFacts.
Import ParentIdRev.

(** The root [findRootId] is after: the id of the row itself where the row
    names no parent, the id it names where no row has that id, the root of
    the parent otherwise. *)
Inductive rootOfRow (byId : gmap Z CustomsFlatRow) : CustomsFlatRow → Z → Prop :=
  | root_self row :
      noParent row = true → rootOfRow byId row (id row)
  | root_dangling row p :
      noParent row = false → parentId row = Some p → byId !! p = None →
      rootOfRow byId row p
  | root_parent row p parent r :
      noParent row = false → parentId row = Some p → byId !! p = Some parent →
      rootOfRow byId parent r → rootOfRow byId row r.

(** A chain of [n] parent links starts at the row. *)
Fixpoint parentChain (byId : gmap Z CustomsFlatRow) (n : nat) (row : CustomsFlatRow)
  : Prop :=
  match n with
  | O => True
  | S n' =>
      noParent row = false ∧
      ∃ parent, byId !! default 0 (parentId row) = Some parent ∧
                parentChain byId n' parent
  end.

Definition cacheSound (byId : gmap Z CustomsFlatRow) (rootCache : gmap Z Z) : Prop :=
  ∀ i r, rootCache !! i = Some r → ∃ row, byId !! i = Some row ∧ rootOfRow byId row r.

Definition keyed (byId : gmap Z CustomsFlatRow) : Prop :=
  ∀ i row, byId !! i = Some row → id row = i.

Lemma noParent_false row :
  noParent row = false → ∃ p, parentId row = Some p ∧ p ≠ 0.
Proof.
  unfold noParent. destruct (parentId row) as [p|]; [|done].
  intros Hp%Z.eqb_neq. by exists p.
Qed.

Lemma rootOfRow_unique byId row r1 r2 :
  rootOfRow byId row r1 → rootOfRow byId row r2 → r1 = r2.
Proof.
  intros H1. revert r2.
  induction H1 as [row Hno|row p Hno Hp Hlk|row p parent r Hno Hp Hlk _ IH];
    intros r2 H2;
    inversion H2 as [? Hno2|? p2 Hno2 Hp2 Hlk2|? p2 parent2 ? Hno2 Hp2 Hlk2 Hr2]; subst;
    try congruence.
  apply IH. rewrite Hp in Hp2. injection Hp2 as <-.
  rewrite Hlk in Hlk2. by injection Hlk2 as <-.
Qed.

Lemma rootOfRow_finite byId row r :
  rootOfRow byId row r → ∃ n, ¬ parentChain byId n row.
Proof.
  induction 1 as [row Hno|row p Hno Hp Hlk|row p parent r Hno Hp Hlk _ [n IH]].
  - exists 1%nat. intros [? _]. congruence.
  - exists 1%nat. intros (_ & parent & Hparent & _). rewrite Hp in Hparent. simpl in Hparent.
    congruence.
  - exists (S n). intros (_ & parent' & Hparent & Hchain). rewrite Hp in Hparent.
    simpl in Hparent. apply IH. congruence.
Qed.

Lemma cacheSound_insert byId rootCache (row : CustomsFlatRow) r :
  cacheSound byId rootCache → byId !! id row = Some row → rootOfRow byId row r →
  cacheSound byId (<[id row := r]> rootCache).
Proof.
  intros Hsound Hrow Hr i r'. rewrite lookup_insert. case_decide as Hi.
  - subst i. intros [= <-]. by exists row.
  - apply Hsound.
Qed.

(** Whatever [findRootId] returns is the root, and the memo table stays
    sound. *)
Lemma findRootId_sound byId fuel rootCache (row : CustomsFlatRow) found rootCache' :
  keyed byId → cacheSound byId rootCache → byId !! id row = Some row →
  findRootId fuel byId rootCache (Some row) = Some (found, rootCache') →
  ∃ r, found = Some r ∧ rootOfRow byId row r ∧ cacheSound byId rootCache' ∧
       rootCache' !! id row = Some r.
Proof.
  intros Hkeyed. revert rootCache row found rootCache'.
  induction fuel as [|fuel IH]; intros rootCache row found rootCache' Hsound Hrow; simpl;
    [done|].
  destruct (rootCache !! id row) as [cached|] eqn:Hcached.
  { intros [= <- <-]. exists cached. split; [done|].
    destruct (Hsound _ _ Hcached) as (row' & Hrow' & Hroot).
    pose proof (Some_agree _ _ _ Hrow' Hrow) as ->. done. }
  destruct (noParent row) eqn:Hno.
  { intros [= <- <-]. exists (id row). split; [done|].
    assert (rootOfRow byId row (id row)) by (by constructor).
    split; [done|]. split; [by apply cacheSound_insert|].
    by rewrite lookup_insert, decide_True. }
  destruct (noParent_false _ Hno) as (p & Hp & Hp0). rewrite Hp. simpl.
  destruct (byId !! p) as [parent|] eqn:Hparent.
  - destruct (findRootId fuel byId rootCache (Some parent)) as [[found' cache'']|] eqn:Hrec;
      [|done].
    intros [= <- <-].
    pose proof (Hkeyed _ _ Hparent) as Hid.
    destruct (IH _ _ _ _ Hsound ltac:(by rewrite Hid) Hrec) as (r & -> & Hr & Hsound' & _).
    simpl. exists r. split; [done|].
    assert (rootOfRow byId row r) by (by apply (root_parent _ _ p parent)).
    split; [done|]. split; [by apply cacheSound_insert|].
    by rewrite lookup_insert, decide_True.
  - destruct fuel as [|fuel]; simpl; [done|].
    intros [= <- <-]. simpl. exists p. split; [done|].
    assert (rootOfRow byId row p) by (by apply root_dangling).
    split; [done|]. split; [by apply cacheSound_insert|].
    by rewrite lookup_insert, decide_True.
Qed.

(** With parent links that lead downwards in some rank, a stack of two
    frames more than the rank of the row is enough. *)
Lemma findRootId_returns byId (rank : Z → nat) fuel rootCache (row : CustomsFlatRow) :
  keyed byId →
  (∀ (row : CustomsFlatRow) p parent, byId !! id row = Some row → parentId row = Some p →
                   byId !! p = Some parent → (rank p < rank (id row))%nat) →
  byId !! id row = Some row → (rank (id row) + 2 ≤ fuel)%nat →
  is_Some (findRootId fuel byId rootCache (Some row)).
Proof.
  intros Hkeyed Hrank. revert rootCache row.
  induction fuel as [|fuel IH]; intros rootCache row Hrow Hfuel; simpl; [lia|].
  destruct (rootCache !! id row) as [cached|]; [done|].
  destruct (noParent row) eqn:Hno; [done|].
  destruct (noParent_false _ Hno) as (p & Hp & Hp0). rewrite Hp. simpl.
  destruct (byId !! p) as [parent|] eqn:Hparent.
  - pose proof (Hkeyed _ _ Hparent) as Hid.
    pose proof (Hrank _ _ _ Hrow Hp Hparent).
    destruct (findRootId fuel byId rootCache (Some parent)) as [[found cache']|] eqn:Hrec;
      [done|].
    destruct (None_is_Some _ Hrec). apply IH; [by rewrite Hid|rewrite Hid; lia].
  - destruct fuel as [|fuel]; [lia|done].
Qed.

(** On a chain of parent links without end the recursion exhausts every
    stack. *)
Lemma findRootId_overflow byId fuel rootCache (row : CustomsFlatRow) :
  keyed byId → cacheSound byId rootCache → byId !! id row = Some row →
  (∀ n, parentChain byId n row) →
  findRootId fuel byId rootCache (Some row) = None.
Proof.
  intros Hkeyed Hsound. revert row.
  induction fuel as [|fuel IH]; intros row Hrow Hchain; simpl; [done|].
  destruct (rootCache !! id row) as [cached|] eqn:Hcached.
  { destruct (Hsound _ _ Hcached) as (row' & Hrow' & Hroot).
    rewrite (Some_agree _ _ _ Hrow' Hrow) in Hroot.
    destruct (rootOfRow_finite _ _ _ Hroot) as [n Hn]. by destruct Hn. }
  destruct (Hchain 1%nat) as (Hno & parent & Hparent & _). rewrite Hno, Hparent.
  rewrite IH; [done| |].
  - by rewrite (Hkeyed _ _ Hparent).
  - intros n. destruct (Hchain (S n)) as (_ & parent' & Hparent' & Hn).
    by rewrite (Some_agree _ _ _ Hparent Hparent').
Qed.

(** *** The map by id *)

Lemma byIdOf_lookup rows i :
  byIdOf rows !! i = last (filter (λ r, id r = i) rows).
Proof. unfold byIdOf. rewrite (foldl_insert_lookup id). by destruct (last _). Qed.

Lemma byIdOf_keyed rows : keyed (byIdOf rows).
Proof.
  intros i row. rewrite byIdOf_lookup.
  by intros [Hid _]%last_Some_elem_of%list_elem_of_filter.
Qed.

Lemma byIdOf_elem_of rows row :
  NoDup (id <$> rows) → row ∈ rows → byIdOf rows !! id row = Some row.
Proof. intros Hnd Hrow. rewrite byIdOf_lookup. by apply last_filter_unique. Qed.

Lemma byIdOf_Some rows i row :
  byIdOf rows !! i = Some row → row ∈ rows ∧ id row = i.
Proof.
  rewrite byIdOf_lookup.
  intros [Hid Hin]%last_Some_elem_of%list_elem_of_filter. done.
Qed.

(** *** The loop over the rows *)

Definition rooted (byId : gmap Z CustomsFlatRow) (r' r : CustomsFlatRow) : Prop :=
  ∃ root, r' = withRootId (Some root) r ∧ rootOfRow byId r root.

Definition stateSound (byId : gmap Z CustomsFlatRow) (st : BuildState)
    (processed : list CustomsFlatRow) : Prop :=
  cacheSound byId (st_rootCache st) ∧
  Forall2 (rooted byId) (st_cloned st) processed ∧
  grouped rootId (st_byRootId st) (st_rootOrder st) (st_cloned st).

Lemma assignRootId_sound byId fuel st processed (row : CustomsFlatRow) st' :
  keyed byId → byId !! id row = Some row →
  stateSound byId st processed →
  assignRoot fuel byId (Some st) row = Some st' →
  stateSound byId st' (processed ++ [row]).
Proof.
  intros Hkeyed Hrow (Hcache & Hrows & Hgroups). unfold assignRoot. simpl.
  destruct (findRootId fuel byId (st_rootCache st) (Some row)) as [[found rootCache']|]
    eqn:Hfind; simpl; [|done].
  destruct (findRootId_sound _ _ _ _ _ _ Hkeyed Hcache Hrow Hfind)
    as (root & -> & Hroot & Hcache' & _).
  simpl.
  pose proof (grouped_step (Row := CustomsFlatRow) rootId _ _ _
                (withRootId (Some root) row) root Hgroups eq_refl) as Hstep.
  assert (Forall2 (rooted byId) (st_cloned st ++ [withRootId (Some root) row])
            (processed ++ [row])) as Hrows'.
  { apply Forall2_app; [done|]. constructor; [|constructor]. by exists root. }
  destruct (st_byRootId st !! root) as [bucket|]; intros [= <-];
    (split; [exact Hcache'|split; [exact Hrows'|exact Hstep]]).
Qed.

Lemma assignRootId_None fuel byId (row : CustomsFlatRow) : assignRoot fuel byId None row = None.
Proof. done. Qed.

Lemma foldl_assignRootId_None fuel byId (rows : list CustomsFlatRow) :
  foldl (assignRoot fuel byId) None rows = None.
Proof. induction rows as [|row rows IH]; cbn [foldl]; [done|]. by rewrite assignRootId_None. Qed.

Lemma foldl_assignRootId_sound byId fuel (rows : list CustomsFlatRow) st processed st' :
  keyed byId → (∀ row : CustomsFlatRow, row ∈ rows → byId !! id row = Some row) →
  stateSound byId st processed →
  foldl (assignRoot fuel byId) (Some st) rows = Some st' →
  stateSound byId st' (processed ++ rows).
Proof.
  intros Hkeyed. revert st processed.
  induction rows as [|row rows IH]; intros st processed Hrows Hst; cbn [foldl].
  { intros [= <-]. by rewrite app_nil_r. }
  destruct (assignRoot fuel byId (Some st) row) as [st1|] eqn:Hstep.
  - intros Hfold. rewrite (cons_middle row), app_assoc.
    apply (IH st1); [intros; apply Hrows; by right| |done].
    apply (assignRootId_sound _ fuel st); [done|apply Hrows; left|done..].
  - by rewrite foldl_assignRootId_None.
Qed.

Lemma foldl_assignRootId_returns byId (rank : Z → nat) fuel (rows : list CustomsFlatRow)
    st processed :
  keyed byId →
  (∀ (row : CustomsFlatRow) p parent, byId !! id row = Some row → parentId row = Some p →
                   byId !! p = Some parent → (rank p < rank (id row))%nat) →
  (∀ row : CustomsFlatRow, row ∈ rows → byId !! id row = Some row ∧ (rank (id row) + 2 ≤ fuel)%nat) →
  stateSound byId st processed →
  is_Some (foldl (assignRoot fuel byId) (Some st) rows).
Proof.
  intros Hkeyed Hrank. revert st processed.
  induction rows as [|row rows IH]; intros st processed Hrows Hst; cbn [foldl]; [done|].
  destruct (Hrows row) as [Hrow Hfuel]; [left|].
  assert (is_Some (assignRoot fuel byId (Some st) row)) as [st1 Hstep].
  { unfold assignRoot. simpl.
    destruct (findRootId_returns byId rank fuel (st_rootCache st) row Hkeyed Hrank Hrow Hfuel)
      as [[found cache'] ->]. simpl.
    by destruct (st_byRootId st !! default (id row) found). }
  rewrite Hstep. apply (IH st1 (processed ++ [row])).
  - intros; apply Hrows; by right.
  - by apply (assignRootId_sound _ fuel st).
Qed.

(** A row on an endless chain of parent links stops the loop at every
    stack size. *)
Lemma foldl_assignRootId_overflow byId fuel (rows : list CustomsFlatRow) st processed
    (row : CustomsFlatRow) :
  keyed byId → (∀ row : CustomsFlatRow, row ∈ rows → byId !! id row = Some row) →
  stateSound byId st processed →
  row ∈ rows → (∀ n, parentChain byId n row) →
  foldl (assignRoot fuel byId) (Some st) rows = None.
Proof.
  intros Hkeyed. revert st processed.
  induction rows as [|x rows IH]; intros st processed Hrows Hst Hin Hchain; cbn [foldl].
  { by apply elem_of_nil in Hin. }
  destruct (assignRoot fuel byId (Some st) x) as [st1|] eqn:Hstep;
    [|by rewrite foldl_assignRootId_None].
  apply elem_of_cons in Hin as [->|Hin].
  - exfalso. unfold assignRoot in Hstep. simpl in Hstep.
    rewrite (findRootId_overflow byId fuel (st_rootCache st) x) in Hstep; try done.
    + apply Hst.
    + apply Hrows. left.
  - apply (IH st1 (processed ++ [x])); [intros; apply Hrows; by right| |done..].
    apply (assignRootId_sound _ fuel st); [done|apply Hrows; left|done..].
Qed.

Lemma stateSound_empty byId : stateSound byId (mkBuildState ∅ ∅ [] []) [].
Proof.
  split; [|split; [constructor|apply grouped_empty]].
  intros i r Hi. cbn in Hi. by rewrite lookup_empty in Hi.
Qed.

Lemma rooted_ids byId (cloned rows : list CustomsFlatRow) :
  Forall2 (rooted byId) cloned rows → id <$> cloned = id <$> rows.
Proof.
  induction 1 as [|r' r l' l (root & -> & _) _ IH]; csimpl; [done|]. by rewrite IH.
Qed.

Lemma byIdOf_links (rows : list CustomsFlatRow) (rank : Z → nat) :
  (∀ r p, r ∈ rows → parentId r = Some p → p ∈ id <$> rows →
          (rank p < rank (id r))%nat) →
  ∀ (row : CustomsFlatRow) p parent,
    byIdOf rows !! id row = Some row → parentId row = Some p →
    byIdOf rows !! p = Some parent → (rank p < rank (id row))%nat.
Proof.
  intros Hrank row p parent [Hrow _]%byIdOf_Some Hp [Hparent <-]%byIdOf_Some.
  apply Hrank; [done..|]. by apply list_elem_of_fmap_2.
Qed.

Lemma byIdOf_Permutation (rows1 rows2 : list CustomsFlatRow) :
  NoDup (id <$> rows1) → rows1 ≡ₚ rows2 → byIdOf rows1 = byIdOf rows2.
Proof.
  intros Hnd Hperm. assert (NoDup (id <$> rows2)) as Hnd2 by (by rewrite <- Hperm).
  apply map_eq. intros i.
  destruct (byIdOf rows1 !! i) as [row|] eqn:Hrow.
  - apply byIdOf_Some in Hrow as [Hin <-]. symmetry. apply byIdOf_elem_of; [done|].
    by rewrite <- Hperm.
  - destruct (byIdOf rows2 !! i) as [row|] eqn:Hrow2; [|done].
    apply byIdOf_Some in Hrow2 as [Hin <-]. rewrite <- Hperm in Hin.
    destruct (None_is_Some _ Hrow). exists row. by apply byIdOf_elem_of.
Qed.

(** A row on an endless chain of parent links: no cache for any stack. *)
Lemma buildCachedData_cycle (rows : list CustomsFlatRow) (row : CustomsFlatRow) fuel :
  NoDup (id <$> rows) → row ∈ rows → (∀ n, parentChain (byIdOf rows) n row) →
  buildCachedData fuel rows = None.
Proof.
  intros Hnd Hrow Hchain. unfold buildCachedData, buildState.
  rewrite (foldl_assignRootId_overflow (byIdOf rows) fuel rows _ [] row); try done.
  - apply byIdOf_keyed.
  - intros r Hr. by apply byIdOf_elem_of.
  - apply stateSound_empty.
Qed.

End ParentIdRootFacts.

(** ** Computations that only read the store *)

Section SteadyFacts.
Context {Raw Row Cache Index : Type}.
Notation World := (World Raw Row Cache Index).

(** What a query may change: the fault plan is consumed, diagnostics are
    appended and the caches are filled; the store, the dataset and the
    progress reports stay. *)
Definition stable (w w' : World) : Prop :=
  window w' = window w ∧ dataset w' = dataset w ∧ table w' = table w ∧
  stackLimit w' = stackLimit w ∧ writes w' = writes w ∧
  progress w' = progress w ∧
  console w `prefix_of` console w' ∧ faults w' `suffix_of` faults w.

(** The computation ends, normally or by throwing, and only reads. *)
Definition steady {A} (m : Eff.M World A) : Prop :=
  ∀ w, (m w).1 ≠ Eff.OutOfFuel ∧ stable w (m w).2.

Lemma stable_refl w : stable w w.
Proof. by repeat split. Qed.

Lemma stable_trans w1 w2 w3 : stable w1 w2 → stable w2 w3 → stable w1 w3.
Proof.
  intros (? & ? & ? & ? & ? & ? & Hc1 & Hf1) (? & ? & ? & ? & ? & ? & Hc2 & Hf2).
  repeat split; try congruence.
  - by transitivity (console w2).
  - by transitivity (faults w2).
Qed.

Lemma steady_ret {A} (a : A) : steady (mret a : Eff.M World A).
Proof. intros w. split; [done|apply stable_refl]. Qed.

Lemma steady_throw {A} e : steady (Eff.throw e : Eff.M World A).
Proof. intros w. split; [done|apply stable_refl]. Qed.

Lemma steady_gets {A} (f : World → A) : steady (Eff.gets f).
Proof. intros w. split; [done|apply stable_refl]. Qed.

Lemma steady_bind {A B} (m : Eff.M World A) (k : A → Eff.M World B) :
  steady m → (∀ a, steady (k a)) → steady (x ← m; k x).
Proof.
  intros Hm Hk w. rewrite run_bind. destruct (Hm w) as [Hfuel Hst].
  destruct (m w) as [[a|e|] w1]; simpl in *; [|done..].
  destruct (Hk a w1) as [Hfuel' Hst']. split; [done|]. by apply (stable_trans _ w1).
Qed.

Lemma steady_try_catch {A} (body : Eff.M World A) handler :
  steady body → (∀ e, steady (handler e)) → steady (Eff.try_catch body handler).
Proof.
  intros Hm Hk w. rewrite run_try_catch. destruct (Hm w) as [Hfuel Hst].
  destruct (body w) as [[a|e|] w1]; simpl in *; [done| |done].
  destruct (Hk e w1) as [Hfuel' Hst']. split; [done|]. by apply (stable_trans _ w1).
Qed.

Lemma stable_setFaults w rest b : faults w = b :: rest → stable w (setFaults rest w).
Proof. intros Hf. repeat split; [done|]. cbn. rewrite Hf. by apply suffix_cons_r. Qed.

Lemma steady_awaited {A} e (m : Eff.M World A) : steady m → steady (awaited e m).
Proof.
  intros Hm w. unfold awaited. destruct (faults w) as [|[|] rest] eqn:Hf.
  - apply Hm.
  - split; [done|]. by apply (stable_setFaults _ _ true).
  - destruct (Hm (setFaults rest w)) as [Hfuel Hst]. split; [done|].
    apply (stable_trans _ (setFaults rest w)); [|done]. by apply (stable_setFaults _ _ false).
Qed.

Lemma steady_modify (f : World → World) : (∀ w, stable w (f w)) → steady (Eff.modify f).
Proof. intros Hf w. split; [done|apply Hf]. Qed.

Lemma steady_log d : steady (log d : Eff.M World unit).
Proof.
  apply steady_modify. intros w. repeat split; [|done]. cbn. by apply prefix_app_r.
Qed.

Lemma steady_getDb : steady (getDb : Eff.M World unit).
Proof. intros w. unfold getDb. destruct (window w); (split; [done|apply stable_refl]). Qed.

Lemma steady_setAllData c : steady (Eff.modify (setAllData c) : Eff.M World unit).
Proof. apply steady_modify. intros w. by repeat split. Qed.

Lemma steady_setDescriptionIndex i :
  steady (Eff.modify (setDescriptionIndex i) : Eff.M World unit).
Proof. apply steady_modify. intros w. by repeat split. Qed.

Lemma steady_mapM {A B} (f : A → Eff.M World B) (xs : list A) :
  (∀ x, steady (f x)) → steady (Eff.mapM f xs).
Proof.
  intros Hf. induction xs as [|x xs IH]; cbn [Eff.mapM].
  - apply (steady_ret (A := list B)).
  - apply (steady_bind (f x)); [apply Hf|]. intros y.
    apply (steady_bind (Eff.mapM f xs)); [apply IH|]. intros ys. apply (steady_ret (A := list B)).
Qed.

(** A steady computation under a handler that answers always returns. *)
Lemma steady_caught {A} (body : Eff.M World A) handler w :
  steady body →
  (∀ e w1, ∃ a w2, handler e w1 = (Eff.Normal a, w2) ∧ stable w1 w2) →
  ∃ a w', Eff.try_catch body handler w = (Eff.Normal a, w') ∧ stable w w'.
Proof.
  intros Hbody Hhandler. rewrite run_try_catch. destruct (Hbody w) as [Hfuel Hst].
  destruct (body w) as [[a|e|] w1]; simpl in *; [by eauto| |done].
  destruct (Hhandler e w1) as (a & w2 & -> & Hst'). exists a, w2. split; [done|].
  by apply (stable_trans _ w1).
Qed.

End SteadyFacts.

(** One step of the syntax-directed proof that a computation is steady. *)
Ltac steady_step :=
  lazymatch goal with
  | |- steady (mbind _ _) => apply steady_bind; [|intros ?]
  | |- steady (mret _) => apply steady_ret
  | |- steady (Eff.try_catch _ _) => apply steady_try_catch; [|intros ?]
  | |- steady (awaited _ _) => apply steady_awaited
  | |- steady (Eff.gets _) => apply steady_gets
  | |- steady (Eff.throw _) => apply steady_throw
  | |- steady (log _) => apply steady_log
  | |- steady getDb => apply steady_getDb
  | |- steady (Eff.modify (setAllData _)) => apply steady_setAllData
  | |- steady (Eff.modify (setDescriptionIndex _)) => apply steady_setDescriptionIndex
  | |- steady (if ?b then _ else _) => destruct b
  | |- steady (match ?x with _ => _ end) => destruct x
  end.

Section FlexSteady.
Context {Raw Row Key : Type} `{Countable Key}.
Context (key : Row → Key) (codeOf descriptionOf : Row → string).
Context (rootOf : Row → option Key) (highlightedDescriptionOf : Row → option string).
Context (withHighlightedDescription : option string → Row → Row).
Context (keyOrder : Row → Row → Z) (normalize : Raw → Row).
Context (keyOfNumber : Z → option Key) (keyOfString : string → option Key).
Context (buildCachedData : nat → list Row → option (Flex.CachedData (Row := Row) (Key := Key))).
Context (flexSearch : Flex.FlexIndex (Key := Key) → string → option Z → RawNode).

Notation ServiceWorld :=
  (World Raw Row (Flex.CachedData (Row := Row) (Key := Key)) (Flex.FlexIndex (Key := Key))).

Lemma steady_ensureAllDataCache :
  steady (Flex.ensureAllDataCache (Raw := Raw) keyOrder buildCachedData).
Proof.
  unfold Flex.ensureAllDataCache, Flex.toArray. repeat steady_step.
Qed.

Lemma steady_getAllData :
  steady (Flex.getAllData (Raw := Raw) keyOrder buildCachedData).
Proof.
  unfold Flex.getAllData. steady_step; [|repeat steady_step].
  steady_step; [apply steady_ensureAllDataCache|steady_step].
Qed.

Lemma steady_ensureDescriptionIndex :
  steady (Flex.ensureDescriptionIndex (Raw := Raw) key descriptionOf keyOrder buildCachedData).
Proof.
  unfold Flex.ensureDescriptionIndex. steady_step; [steady_step|].
  steady_step; [steady_step|].
  steady_step; [apply steady_ensureAllDataCache|]. repeat steady_step.
Qed.

Lemma steady_searchByCode codePrefix parentLimit :
  steady (Flex.searchByCode (Raw := Raw) key codeOf keyOrder codePrefix parentLimit).
Proof.
  unfold Flex.searchByCode, primaryKeysStartingWith. repeat steady_step.
Qed.

Lemma steady_searchByDescriptionHits query itemLimit :
  steady (Flex.searchByDescriptionHits (Raw := Raw) key descriptionOf keyOrder keyOfNumber
            keyOfString buildCachedData flexSearch query itemLimit).
Proof.
  unfold Flex.searchByDescriptionHits.
  steady_step; [apply steady_ensureDescriptionIndex|].
  steady_step; [apply steady_ensureAllDataCache|]. repeat steady_step.
Qed.

Lemma steady_buildSearchResults ids highlightById itemLimit :
  steady (Flex.buildSearchResults (Raw := Raw) key rootOf highlightedDescriptionOf
            withHighlightedDescription ids highlightById itemLimit).
Proof. unfold Flex.buildSearchResults. repeat steady_step. Qed.

Lemma steady_searchByFields_body idPrefix descQuery parentLimit itemLimit :
  steady
    (let codePrefix := Js.trim idPrefix in
     let descQueryTrimmed := Js.trim descQuery in
     let hasCodeQuery := (0 <? String.length codePrefix)%nat in
     let hasDescQuery := (0 <? String.length descQueryTrimmed)%nat in
     if negb hasCodeQuery && negb hasDescQuery then
       allData ← Flex.getAllData (Raw := Raw) keyOrder buildCachedData;
       mret (Js.sliceTo allData (Z.min itemLimit Flex.MAX_ALL_DATA_LIMIT))
     else
       data ← Flex.ensureAllDataCache (Raw := Raw) keyOrder buildCachedData;
       if decide (length data = 0%nat) then log WarnNoData;; mret [] else
       codeIds ← (if hasCodeQuery
                  then ids ← Flex.searchByCode key codeOf keyOrder codePrefix parentLimit;
                       mret (Some ids)
                  else mret None);
       descHits ← (if hasDescQuery
                   then hits ← Flex.searchByDescriptionHits key descriptionOf keyOrder
                                 keyOfNumber keyOfString buildCachedData flexSearch
                                 descQueryTrimmed itemLimit;
                        mret (Some hits)
                   else mret None);
       let highlightById := Flex.highlightsOf (default [] descHits) in
       let descIds := (λ hits, list_to_set (fst <$> hits)) <$> descHits in
       let finalIds := Flex.intersect codeIds descIds in
       if decide (size finalIds = 0%nat) then mret []
       else Flex.buildSearchResults key rootOf highlightedDescriptionOf
              withHighlightedDescription finalIds highlightById itemLimit).
Proof.
  cbn zeta. steady_step.
  { steady_step; [apply steady_getAllData|steady_step]. }
  steady_step; [apply steady_ensureAllDataCache|].
  steady_step; [repeat steady_step|].
  steady_step.
  { steady_step; [|steady_step].
    steady_step; [apply steady_searchByCode|steady_step]. }
  steady_step.
  { steady_step; [|steady_step].
    steady_step; [apply steady_searchByDescriptionHits|steady_step]. }
  steady_step; [steady_step|apply steady_buildSearchResults].
Qed.

(** [searchByFields] always returns, and only reads. *)
Lemma searchByFields_returns (w : ServiceWorld) idPrefix descQuery parentLimit itemLimit :
  ∃ rows w',
    Flex.searchByFields key codeOf descriptionOf rootOf highlightedDescriptionOf
      withHighlightedDescription keyOrder keyOfNumber keyOfString buildCachedData
      flexSearch idPrefix descQuery parentLimit itemLimit w = (Eff.Normal rows, w') ∧
    stable w w'.
Proof.
  unfold Flex.searchByFields. rewrite run_bind. unfold Eff.gets.
  destruct (window w); cbn [negb].
  - apply steady_caught; [apply steady_searchByFields_body|].
    intros e w1. eexists [], _. split; [reflexivity|].
    repeat split; [|done]. cbn. by apply prefix_app_r.
  - exists [], w. split; [done|apply stable_refl].
Qed.

Lemma getAllData_returns (w : ServiceWorld) :
  ∃ rows w',
    Flex.getAllData (Raw := Raw) keyOrder buildCachedData w = (Eff.Normal rows, w') ∧
    stable w w'.
Proof.
  unfold Flex.getAllData. apply steady_caught.
  - steady_step; [apply steady_ensureAllDataCache|steady_step].
  - intros e w1. eexists [], _. split; [reflexivity|].
    repeat split; [|done]. cbn. by apply prefix_app_r.
Qed.

(** With a cache in place [ensureAllDataCache] hands it out and touches
    nothing. *)
Lemma ensureAllDataCache_cached (w : ServiceWorld) c :
  allData w = Some c →
  Flex.ensureAllDataCache (Raw := Raw) keyOrder buildCachedData w
  = (Eff.Normal (Flex.cache c), w).
Proof. intros Hc. unfold Flex.ensureAllDataCache. run. by rewrite Hc. Qed.


(** An exhausted call stack does the same. *)
Lemma ensureAllDataCache_overflow (w : ServiceWorld) :
  allData w = None → window w = true → faults w = [] →
  buildCachedData (stackLimit w) (Js.sort keyOrder (table w)) = None →
  Flex.ensureAllDataCache (Raw := Raw) keyOrder buildCachedData w
  = (Eff.Normal [],
     setAllData (Some Flex.emptyCachedData)
       (setConsole (console w ++ [ErrorBuildingCache Eff.RangeError]) w)).
Proof.
  intros Hc Hwin Hf Hb. unfold Flex.ensureAllDataCache. run. rewrite Hc, Hwin. cbn.
  unfold getDb, Flex.toArray, awaited. rewrite Hwin, Hf. run.
  cbn [stackLimit table]. by rewrite Hb.
Qed.

(** Where nothing fails the cache is built from the table in the order of
    the keys. *)
Lemma ensureAllDataCache_built (w : ServiceWorld) c :
  allData w = None → window w = true → faults w = [] →
  buildCachedData (stackLimit w) (Js.sort keyOrder (table w)) = Some c →
  Flex.ensureAllDataCache (Raw := Raw) keyOrder buildCachedData w
  = (Eff.Normal (Flex.cache c), setAllData (Some c) w).
Proof.
  intros Hc Hwin Hf Hb. unfold Flex.ensureAllDataCache. run. rewrite Hc, Hwin. cbn.
  unfold getDb, Flex.toArray, awaited. rewrite Hwin, Hf. run.
  cbn [stackLimit table]. by rewrite Hb.
Qed.


End FlexSteady.

(** ** Loading the dataset *)

Section LoadFacts.
Context {Raw Row Cache Index Key : Type} `{EqDecision Key}.
Context (key : Row → Key).
Notation World := (World Raw Row Cache Index).

(** What the load keeps whatever happens: the environment and the caches;
    reports are only added and the fault plan is only consumed. *)
Definition kept (w w' : World) : Prop :=
  window w' = window w ∧ dataset w' = dataset w ∧ stackLimit w' = stackLimit w ∧
  allData w' = allData w ∧ descriptionIndex w' = descriptionIndex w ∧
  console w' = console w ∧
  progress w `prefix_of` progress w' ∧ faults w' `suffix_of` faults w ∧
  (writes w ≤ writes w')%nat.

Lemma kept_refl w : kept w w.
Proof. by repeat split. Qed.

Lemma kept_trans w1 w2 w3 : kept w1 w2 → kept w2 w3 → kept w1 w3.
Proof.
  intros (? & ? & ? & ? & ? & ? & Hp1 & Hf1 & ?) (? & ? & ? & ? & ? & ? & Hp2 & Hf2 & ?).
  repeat split; try congruence.
  - by transitivity (progress w2).
  - by transitivity (faults w2).
  - lia.
Qed.

Lemma kept_setFaults w rest b : faults w = b :: rest → kept w (setFaults rest w).
Proof. intros Hf. repeat split; [done| |done]. cbn. rewrite Hf. by apply suffix_cons_r. Qed.

Lemma kept_setTable w t : kept w (setTable t w).
Proof. by repeat split. Qed.

Lemma addRows_clash (t chunk : list Row) :
  (addRows key t chunk).2 = false →
  (addRows key t chunk).1 = t ++ chunk ∧
  (NoDup (key <$> t) → NoDup (key <$> t ++ chunk)).
Proof.
  revert t. induction chunk as [|r chunk IH]; intros t; simpl.
  { intros _. by rewrite app_nil_r. }
  case_decide as Hin.
  { destruct (addRows key t chunk). simpl. done. }
  intros Hclash. destruct (IH _ Hclash) as [Heq Hnd].
  rewrite Heq, <- app_assoc. split; [done|].
  intros Ht. rewrite (cons_middle r), app_assoc. apply Hnd.
  rewrite fmap_app. apply NoDup_app. split; [done|]. split; [|apply NoDup_singleton].
  intros k Hk ->%list_elem_of_singleton. done.
Qed.

Lemma addRows_fresh (t chunk : list Row) :
  NoDup (key <$> t ++ chunk) → addRows key t chunk = (t ++ chunk, false).
Proof.
  revert t. induction chunk as [|r chunk IH]; intros t; simpl.
  { intros _. by rewrite app_nil_r. }
  intros Hnd. rewrite decide_False.
  - rewrite IH; rewrite <- app_assoc; done.
  - rewrite fmap_app in Hnd. apply NoDup_app in Hnd as (_ & Hdisj & _).
    intros Hin. apply (Hdisj _ Hin). csimpl. left.
Qed.

(** A caller without a callback, or with one that never throws. *)
Definition quiet (callback : option ProgressCallback) : Prop :=
  ∀ f reports, callback = Some f → f reports = None.

(** The world after [onProgress?.(p)]: the report is made where there is
    a callback. *)
Definition reported (callback : option ProgressCallback) (p : InitializationProgress)
    (w : World) : World :=
  match callback with
  | Some _ => setProgress (progress w ++ [p]) w
  | None => w
  end.

Lemma reported_table callback p w : table (reported callback p w) = table w.
Proof. by destruct callback. Qed.

Lemma reported_faults callback p w : faults (reported callback p w) = faults w.
Proof. by destruct callback. Qed.

Lemma reported_writes callback p w : writes (reported callback p w) = writes w.
Proof. by destruct callback. Qed.

Lemma reported_allData callback p w : allData (reported callback p w) = allData w.
Proof. by destruct callback. Qed.

Lemma reported_descriptionIndex callback p w :
  descriptionIndex (reported callback p w) = descriptionIndex w.
Proof. by destruct callback. Qed.

Lemma reported_progress callback p w :
  progress (reported callback p w) = progress w ++ match callback with Some _ => [p] | None => [] end.
Proof. destruct callback; [done|]. cbn. by rewrite app_nil_r. Qed.

Lemma reported_last callback p w :
  is_Some callback → last (progress (reported callback p w)) = Some p.
Proof. intros [f ->]. cbn. by rewrite last_snoc. Qed.

(** [onProgress?.(p)] makes the report and returns, or throws what the
    callback throws. *)
Lemma onProgress_run callback ph l t m (w : World) :
  onProgress callback ph l t m w
  = (Eff.Normal tt, reported callback (mkProgress ph l t m) w) ∨
  ∃ f e, callback = Some f ∧
         f (progress (reported callback (mkProgress ph l t m) w)) = Some e ∧
         onProgress callback ph l t m w
         = (Eff.Throw e, reported callback (mkProgress ph l t m) w).
Proof.
  destruct callback as [f|]; [|by left]. unfold onProgress, Eff.bind, Eff.modify, Eff.gets.
  cbn. destruct (f (progress w ++ [mkProgress ph l t m])) as [e|] eqn:Hf.
  - right. by exists f, e.
  - by left.
Qed.

Lemma quiet_returns callback f e reports :
  quiet callback → callback = Some f → f reports = Some e → False.
Proof. intros Hq Hcb Hf. rewrite (Hq f reports Hcb) in Hf. done. Qed.

(** The chunked inserts of [initializeData], over any world. *)
Fixpoint loadChunks (callback : option ProgressCallback) (fuel : nat)
    (normalized : list Row) (start : nat) : Eff.M World unit :=
  if decide (start < length normalized)%nat then
    match fuel with
    | O => Eff.outOfFuel
    | S fuel' =>
        let chunk := Js.sliceNat normalized start (start + 2000) in
        bulkAdd key chunk;;
        let loaded := Nat.min (start + length chunk) (length normalized) in
        onProgress callback Indexing (Z.of_nat loaded) (Z.of_nat (length normalized))
          (MsgIndexing (Z.of_nat loaded) (Z.of_nat (length normalized)));;
        loadChunks callback fuel' normalized (start + 2000)
    end
  else mret tt.

Lemma sliceNat_drop (l : list Row) (start size : nat) :
  Js.sliceNat l start (start + size) ++ drop (start + size) l = drop start l.
Proof.
  unfold Js.sliceNat. replace (start + size - start)%nat with size by lia.
  rewrite <- drop_drop. apply take_drop.
Qed.

Lemma bulkAdd_run (chunk : list Row) (w : World) :
  ∃ r w', bulkAdd key chunk w = (r, w') ∧ r ≠ Eff.OutOfFuel ∧ kept w w' ∧
    (r = Eff.Normal tt →
     table w' = table w ++ chunk ∧
     (NoDup (key <$> table w) → NoDup (key <$> table w'))) ∧
    (faults w = [] → NoDup (key <$> table w ++ chunk) →
     r = Eff.Normal tt ∧ faults w' = []).
Proof.
  unfold bulkAdd, awaited. destruct (faults w) as [|[|] rest] eqn:Hf.
  - pose proof (addRows_clash (table w) chunk) as Hclash.
    pose proof (addRows_fresh (table w) chunk) as Hfresh.
    destruct (addRows key (table w) chunk) as [t' clash]. simpl in Hclash.
    eexists _, _. split; [reflexivity|]. split; [by destruct clash|].
    split; [repeat split; cbn; (done || lia)|]. split.
    + destruct clash; [done|]. intros _. destruct (Hclash eq_refl) as [-> Hnd]. done.
    + intros _ Hnd. specialize (Hfresh Hnd). injection Hfresh as -> ->. done.
  - eexists _, _. split; [reflexivity|]. split; [done|].
    split; [by apply (kept_setFaults _ _ true)|]. split; [done|]. congruence.
  - pose proof (addRows_clash (table w) chunk) as Hclash.
    change (table (setFaults rest w)) with (table w).
    destruct (addRows key (table w) chunk) as [t' clash]. simpl in Hclash.
    eexists _, _. split; [reflexivity|]. split; [by destruct clash|]. split.
    { repeat split; cbn; try (done || lia). rewrite Hf. by apply suffix_cons_r. }
    split; [|congruence].
    destruct clash; [done|]. intros _. destruct (Hclash eq_refl) as [-> Hnd]. done.
Qed.

Lemma kept_reported callback p (w : World) : kept w (reported callback p w).
Proof.
  destruct callback; [|apply kept_refl].
  repeat split; cbn; try (done || lia). by apply prefix_app_r.
Qed.

Lemma loadChunks_run callback (fuel : nat) (normalized : list Row) (start : nat)
    (w : World) :
  (length normalized - start ≤ fuel)%nat →
  ∃ r w', loadChunks callback fuel normalized start w = (r, w') ∧
    r ≠ Eff.OutOfFuel ∧ kept w w' ∧
    (r = Eff.Normal tt →
     table w' = table w ++ drop start normalized ∧
     (NoDup (key <$> table w) → NoDup (key <$> table w'))) ∧
    (faults w = [] → NoDup (key <$> table w ++ drop start normalized) →
     quiet callback → r = Eff.Normal tt ∧ faults w' = []).
Proof.
  revert start w. induction fuel as [|fuel IH]; intros start w Hfuel.
  - simpl. rewrite decide_False by lia.
    exists (Eff.Normal tt), w. split; [done|]. split; [done|]. split; [apply kept_refl|].
    rewrite drop_ge by lia. rewrite app_nil_r. done.
  - cbn [loadChunks]. case_decide as Hstart.
    2:{ exists (Eff.Normal tt), w. split; [done|]. split; [done|]. split; [apply kept_refl|].
        rewrite drop_ge by lia. rewrite app_nil_r. done. }
    rewrite run_bind.
    destruct (bulkAdd_run (Js.sliceNat normalized start (start + 2000)) w)
      as (r1 & w1 & -> & Hfuel1 & Hkept1 & Hok1 & Hsure1).
    destruct r1 as [[]|e|]; [|clear IH|done].
    2:{ eexists _, _. split; [reflexivity|]. split; [done|]. split; [done|].
        split; [done|]. intros Hf Hnd _. apply Hsure1; [done|].
        rewrite <- (sliceNat_drop normalized start 2000), app_assoc in Hnd.
        rewrite fmap_app in Hnd. by apply NoDup_app in Hnd as [? _]. }
    destruct (Hok1 eq_refl) as [Ht1 Hnd1].
    rewrite run_bind.
    match goal with
    | |- context [onProgress callback ?ph ?l ?t ?m w1] =>
        set (w2 := reported callback (mkProgress ph l t m) w1);
        destruct (onProgress_run callback ph l t m w1)
          as [->|(f & e & Hcb & Hthrown & ->)]
    end.
    2:{ exists (Eff.Throw e), w2. split; [done|]. split; [done|]. split.
        { apply (kept_trans _ w1); [done|]. apply kept_reported. }
        split; [done|]. intros _ _ Hquiet.
        destruct (quiet_returns _ _ _ _ Hquiet Hcb Hthrown). }
    fold w2.
    destruct (IH (start + 2000)%nat w2 ltac:(lia))
      as (r3 & w3 & -> & Hfuel3 & Hkept3 & Hok3 & Hsure3).
    exists r3, w3. split; [done|]. split; [done|]. split.
    { apply (kept_trans _ w1); [done|]. apply (kept_trans _ w2); [|done].
      apply kept_reported. }
    assert (table w2 = table w1) as Ht2 by apply reported_table.
    assert (table w2 ++ drop (start + 2000) normalized = table w ++ drop start normalized)
      as Htab.
    { rewrite Ht2, Ht1, <- app_assoc. by rewrite sliceNat_drop. }
    split.
    + intros Hr. destruct (Hok3 Hr) as [Ht3 Hnd3]. split; [by rewrite Ht3, Htab|].
      intros Hnd. apply Hnd3. rewrite Ht2. by apply Hnd1.
    + intros Hf Hnd Hquiet. assert (faults w1 = []) as Hf1.
      { refine (proj2 (Hsure1 Hf _)).
        rewrite <- (sliceNat_drop normalized start 2000), app_assoc in Hnd.
        rewrite fmap_app in Hnd. by apply NoDup_app in Hnd as [? _]. }
      apply Hsure3; [|by rewrite Htab|done].
      unfold w2. by rewrite reported_faults.
Qed.

(** [db.transaction("rw", db.customs, ...)] around [clear] and the chunked
    inserts: the table is replaced or left as it was. *)
Lemma replace_run callback (normalized : list Row) (w : World) :
  ∃ r w',
    transaction (clear;; loadChunks callback (length normalized) normalized 0) w
    = (r, w') ∧
    r ≠ Eff.OutOfFuel ∧ kept w w' ∧
    (r = Eff.Normal tt → table w' = normalized ∧ NoDup (key <$> normalized)) ∧
    (r ≠ Eff.Normal tt → table w' = table w) ∧
    (faults w = [] → NoDup (key <$> normalized) → quiet callback →
     r = Eff.Normal tt ∧ faults w' = []).
Proof.
  unfold transaction. rewrite run_bind.
  assert (∃ r0 w0, clear w = (r0, w0) ∧ r0 ≠ Eff.OutOfFuel ∧ kept w w0 ∧
            (r0 = Eff.Normal tt → table w0 = []) ∧
            (faults w = [] → r0 = Eff.Normal tt ∧ faults w0 = [])) as
    (r0 & w0 & -> & Hfuel0 & Hkept0 & Hok0 & Hsure0).
  { unfold clear, awaited, Eff.modify. destruct (faults w) as [|[|] rest] eqn:Hf.
    - eexists _, _. split; [reflexivity|]. split; [done|]. split; [|done].
      repeat split; cbn; (done || lia).
    - eexists _, _. split; [reflexivity|]. split; [done|].
      split; [by apply (kept_setFaults _ _ true)|]. split; [done|]. congruence.
    - eexists _, _. split; [reflexivity|]. split; [done|]. split; [|split; [done|congruence]].
      repeat split; cbn; try (done || lia). rewrite Hf. by apply suffix_cons_r. }
  destruct r0 as [[]|e|]; [|clear Hok0|done].
  2:{ eexists _, _. split; [reflexivity|]. split; [done|].
      split; [apply (kept_trans _ w0); [done|apply kept_setTable]|].
      split; [done|]. split; [done|]. intros Hf _ _. by destruct (Hsure0 Hf). }
  destruct (loadChunks_run callback (length normalized) normalized 0 w0 ltac:(lia))
    as (r1 & w1 & -> & Hfuel1 & Hkept1 & Hok1 & Hsure1).
  rewrite (Hok0 eq_refl) in Hok1, Hsure1.
  change ([] ++ drop 0 normalized) with normalized in Hok1, Hsure1.
  destruct r1 as [[]|e|]; [|clear Hok1|done].
  2:{ eexists _, _. split; [reflexivity|]. split; [done|]. split.
      { apply (kept_trans _ w0); [done|]. apply (kept_trans _ w1); [done|].
        apply kept_setTable. }
      split; [done|]. split; [done|]. intros Hf Hnd Hquiet.
      destruct (Hsure0 Hf) as [_ Hf0]. by destruct (Hsure1 Hf0 Hnd Hquiet). }
  destruct (Hok1 eq_refl) as [Ht1 Hnd1].
  unfold awaited, Eff.ret. destruct (faults w1) as [|[|] rest] eqn:Hf1.
  - exists (Eff.Normal tt), w1. split; [done|]. split; [done|].
    split; [by apply (kept_trans _ w0)|]. split.
    { intros _. split; [done|]. rewrite <- Ht1. apply Hnd1. constructor. }
    split; [done|]. done.
  - eexists _, _. split; [reflexivity|]. split; [done|]. split.
    { apply (kept_trans _ w0); [done|]. apply (kept_trans _ w1); [done|].
      apply (kept_trans _ (setFaults rest w1)); [by apply (kept_setFaults _ _ true)|].
      apply kept_setTable. }
    split; [done|]. split; [done|]. intros Hf Hnd Hquiet.
    destruct (Hsure0 Hf) as [_ Hf0]. destruct (Hsure1 Hf0 Hnd Hquiet) as [_ Hf1']. congruence.
  - eexists _, _. split; [reflexivity|]. split; [done|]. split.
    { apply (kept_trans _ w0); [done|]. apply (kept_trans _ w1); [done|].
      by apply (kept_setFaults _ _ false). }
    split.
    { intros _. split; [done|]. rewrite <- Ht1. apply Hnd1. constructor. }
    split; [done|]. intros Hf Hnd Hquiet.
    destruct (Hsure0 Hf) as [_ Hf0]. destruct (Hsure1 Hf0 Hnd Hquiet) as [_ Hf1']. congruence.
Qed.

(** An awaited read: it rejects or answers from the store, and uses up at
    most one entry of the fault plan. *)
Lemma awaited_gets_run {A} (e : Eff.JsError) (f : World → A) (w : World) :
  (∀ rest, f (setFaults rest w) = f w) →
  ∃ w1, kept w w1 ∧ table w1 = table w ∧ writes w1 = writes w ∧
        progress w1 = progress w ∧
        (awaited e (Eff.gets f) w = (Eff.Normal (f w), w1) ∨
         awaited e (Eff.gets f) w = (Eff.Throw e, w1)) ∧
        (faults w = [] → w1 = w ∧ awaited e (Eff.gets f) w = (Eff.Normal (f w), w)).
Proof.
  intros Hf. unfold awaited, Eff.gets. destruct (faults w) as [|[|] rest] eqn:Hfaults.
  - exists w. split; [apply kept_refl|]. repeat split; try done. by left.
  - exists (setFaults rest w). split; [by apply (kept_setFaults _ _ true)|].
    repeat split; try done. by right.
  - exists (setFaults rest w). split; [by apply (kept_setFaults _ _ false)|].
    repeat split; try done. left. by rewrite Hf.
Qed.

Lemma transaction_ext {A} (body1 body2 : Eff.M World A) (w : World) :
  (∀ w0, body1 w0 = body2 w0) → transaction body1 w = transaction body2 w.
Proof. intros Hbody. unfold transaction. by rewrite Hbody. Qed.

(** The world after the [catch] of [initializeData]: the error is logged
    and the failure reported. *)
Definition failed (callback : option ProgressCallback) (e : Eff.JsError) (w : World)
  : World :=
  reported callback (mkProgress Error 0 0 MsgFailed)
    (setConsole (console w ++ [ErrorInitializing e]) w).

Lemma failed_facts callback e (w : World) :
  window (failed callback e w) = window w ∧ dataset (failed callback e w) = dataset w ∧
  table (failed callback e w) = table w ∧
  allData (failed callback e w) = allData w ∧
  descriptionIndex (failed callback e w) = descriptionIndex w ∧
  console (failed callback e w) = console w ++ [ErrorInitializing e] ∧
  progress (failed callback e w)
  = progress w ++ match callback with
                  | Some _ => [mkProgress Error 0 0 MsgFailed]
                  | None => []
                  end.
Proof. unfold failed. destruct callback; cbn; by rewrite ?app_nil_r. Qed.

(** The [catch] of [initializeData] answers [false], or throws what the
    callback throws on the report of the failure. *)
Lemma catch_run callback (e : Eff.JsError) (w : World) :
  (log (ErrorInitializing e);;
   onProgress callback Error 0 0 MsgFailed;;
   mret false) w = (Eff.Normal false, failed callback e w) ∨
  ∃ f e', callback = Some f ∧ f (progress (failed callback e w)) = Some e' ∧
          (log (ErrorInitializing e);;
           onProgress callback Error 0 0 MsgFailed;;
           mret false) w = (Eff.Throw e', failed callback e w).
Proof.
  unfold failed.
  destruct (onProgress_run callback Error 0 0 MsgFailed
              (setConsole (console w ++ [ErrorInitializing e]) w))
    as [Hrun|(f & e' & Hcb & Hthrown & Hrun)].
  - left. rewrite run_bind. unfold log, Eff.modify. cbn beta iota.
    by rewrite run_bind, Hrun.
  - right. exists f, e'. split; [done|]. split; [done|].
    rewrite run_bind. unfold log, Eff.modify. cbn beta iota.
    by rewrite run_bind, Hrun.
Qed.

End LoadFacts.

Section InitFacts.
Context {Raw Row Key : Type} `{Countable Key}.
Context (key : Row → Key) (normalize : Raw → Row).

Notation ServiceWorld :=
  (World Raw Row (Flex.CachedData (Row := Row) (Key := Key)) (Flex.FlexIndex (Key := Key))).

Lemma addChunks_loadChunks callback fuel normalized start (w : ServiceWorld) :
  Flex.addChunks key callback fuel normalized start w
  = loadChunks key callback fuel normalized start w.
Proof.
  revert start w. induction fuel as [|fuel IH]; intros start w;
    cbn [Flex.addChunks loadChunks]; [done|].
  case_decide; [|done]. rewrite !run_bind.
  change Flex.INDEX_CHUNK_SIZE with 2000%nat.
  destruct (bulkAdd key (Js.sliceNat normalized start (start + 2000)) w) as [[[]|e|] w1];
    [|done..].
  rewrite !run_bind.
  match goal with
  | |- context [onProgress callback ?ph ?l ?t ?m w1] =>
      destruct (onProgress callback ph l t m w1) as [[[]|e|] w2]; [|done..]
  end.
  apply IH.
Qed.

(** The body of the [try] of [initializeData], where there is a window. A
    throw leaves the table and the caches as they were, unless it is the
    callback that threw: then the caches may be dropped, and the table is
    replaced where the callback threw on the last report. *)
Lemma initializeData_body (force : bool) (callback : option ProgressCallback)
    (w : ServiceWorld) :
  window w = true →
  ∃ (r : Eff.Completion bool) (w1 : ServiceWorld),
    (getDb;;
      existing ← count;
      if negb force && (0 <? existing) then
        Flex.resetCaches;;
        onProgress callback Cached existing existing (MsgFound existing);;
        mret false
      else
        onProgress callback LoadData 0 0 MsgLoading;;
        data ← importDataset;
        let total := Z.of_nat (length data) in
        onProgress callback Indexing 0 total (MsgIndexing 0 total);;
        let normalized := normalize <$> data in
        transaction (clear;;
                     Flex.addChunks key callback (length normalized) normalized 0);;
        Flex.resetCaches;;
        onProgress callback Done total total MsgDone;;
        mret true) w = (r, w1) ∧
    window w1 = window w ∧ dataset w1 = dataset w ∧ console w1 = console w ∧
    faults w1 `suffix_of` faults w ∧
    (table w1 = table w ∨
     (table w1 = normalize <$> dataset w ∧ NoDup (key <$> table w1) ∧
      allData w1 = None ∧ descriptionIndex w1 = None)) ∧
    match r with
    | Eff.Normal true =>
        table w1 = normalize <$> dataset w ∧ NoDup (key <$> table w1) ∧
        allData w1 = None ∧ descriptionIndex w1 = None ∧
        (is_Some callback →
         last (progress w1)
         = Some (mkProgress Done (Z.of_nat (length (dataset w)))
                   (Z.of_nat (length (dataset w))) MsgDone))
    | Eff.Normal false =>
        force = false ∧ table w ≠ [] ∧
        table w1 = table w ∧ writes w1 = writes w ∧
        allData w1 = None ∧ descriptionIndex w1 = None ∧
        progress w1
        = progress w ++
          match callback with
          | Some _ => [mkProgress Cached (Z.of_nat (length (table w)))
                         (Z.of_nat (length (table w)))
                         (MsgFound (Z.of_nat (length (table w))))]
          | None => []
          end
    | Eff.Throw e =>
        (table w1 = table w ∧ allData w1 = allData w ∧
         descriptionIndex w1 = descriptionIndex w) ∨
        (∃ f, callback = Some f ∧ f (progress w1) = Some e ∧
              (table w1 = table w ∨
               last (progress w1)
               = Some (mkProgress Done (Z.of_nat (length (dataset w)))
                         (Z.of_nat (length (dataset w))) MsgDone)))
    | Eff.OutOfFuel => False
    end ∧
    (faults w = [] → (force = true ∨ table w = []) →
     NoDup (key <$> (normalize <$> dataset w)) → quiet callback →
     r = Eff.Normal true).
Proof.
  intros Hwin. set (existing := Z.of_nat (length (table w))). rewrite run_bind.
  assert (getDb w = (Eff.Normal tt, w)) as -> by (unfold getDb; by rewrite Hwin).
  rewrite run_bind.
  destruct (awaited_gets_run (Cache := Flex.CachedData (Row := Row) (Key := Key))
              Eff.StorageError (λ w0 : ServiceWorld, Z.of_nat (length (table w0))) w)
    as (w1 & Hk1 & Ht1 & Hw1 & Hp1 & [Hrun|Hrun] & Hsure1); [done| |].
  2:{ unfold count. rewrite Hrun. exists (Eff.Throw Eff.StorageError), w1.
      destruct Hk1 as (? & ? & ? & ? & ? & ? & ? & ? & ?).
      split; [done|]. split; [done|]. split; [done|]. split; [done|]. split; [done|].
      split; [by left|]. split; [by left|].
      intros Hf. destruct (Hsure1 Hf) as [_ Hsure]. congruence. }
  unfold count. rewrite Hrun. fold existing.
  destruct (negb force && (0 <? existing)) eqn:Hcached.
  { apply andb_true_iff in Hcached as [Hforce Hpos].
    apply negb_true_iff in Hforce. apply Z.ltb_lt in Hpos.
    assert (table w ≠ []) as Hne.
    { intros Hnil. unfold existing in Hpos. rewrite Hnil in Hpos. cbn in Hpos. lia. }
    destruct Hk1 as (? & ? & ? & ? & ? & ? & ? & ? & ?).
    rewrite run_bind. unfold Flex.resetCaches at 1, Eff.modify at 1. cbn beta iota.
    rewrite run_bind.
    match goal with
    | |- context [onProgress callback ?ph ?l ?t ?m ?w0] =>
        set (w2 := reported callback (mkProgress ph l t m) w0);
        destruct (onProgress_run callback ph l t m w0)
          as [->|(f & e & Hcb & Hthrown & ->)]
    end.
    - exists (Eff.Normal false), w2. split; [done|].
      assert (window w2 = window w1 ∧ dataset w2 = dataset w1 ∧
              console w2 = console w1 ∧ faults w2 = faults w1) as (? & ? & ? & Hfaults2)
        by (unfold w2; by destruct callback).
      assert (table w2 = table w) as Ht2 by (unfold w2; by rewrite reported_table).
      split; [congruence|]. split; [congruence|]. split; [congruence|].
      split; [by rewrite Hfaults2|]. split; [by left|]. split.
      + split; [done|]. split; [done|]. split; [done|].
        unfold w2. rewrite reported_writes, reported_allData,
          reported_descriptionIndex, reported_progress. cbn.
        split; [done|]. split; [done|]. split; [done|]. by rewrite Hp1.
      + intros _ [->|Hnil] _ _; done.
    - exists (Eff.Throw e), w2. split; [done|].
      assert (window w2 = window w1 ∧ dataset w2 = dataset w1 ∧
              console w2 = console w1 ∧ faults w2 = faults w1) as (? & ? & ? & Hfaults2)
        by (unfold w2; by destruct callback).
      split; [congruence|]. split; [congruence|]. split; [congruence|].
      split; [by rewrite Hfaults2|].
      assert (table w2 = table w) as Ht2 by (unfold w2; by rewrite reported_table).
      split; [by left|]. split.
      + right. exists f. split; [done|]. split; [done|]. by left.
      + intros _ [->|Hnil] _ _; done. }
  rewrite run_bind.
  match goal with
  | |- context [onProgress callback ?ph ?l ?t ?m w1] =>
      set (w2 := reported callback (mkProgress ph l t m) w1);
      destruct (onProgress_run callback ph l t m w1)
        as [->|(f & e & Hcb & Hthrown & ->)]
  end.
  2:{ exists (Eff.Throw e), w2.
      assert (kept w w2) as (? & ? & ? & ? & ? & ? & ? & ? & ?).
      { apply (kept_trans _ w1); [done|]. apply kept_reported. }
      assert (table w2 = table w) as Ht2 by (unfold w2; by rewrite reported_table).
      split; [done|]. split; [done|]. split; [done|]. split; [done|]. split; [done|].
      split; [by left|]. split; [by left|].
      intros _ _ _ Hquiet. destruct (quiet_returns _ _ _ _ Hquiet Hcb Hthrown). }
  fold w2.
  assert (kept w w2) as Hk2.
  { apply (kept_trans _ w1); [done|]. apply kept_reported. }
  assert (table w2 = table w) as Ht2 by (unfold w2; by rewrite reported_table).
  assert (faults w = [] → faults w2 = []) as Hf2.
  { intros Hf. unfold w2. rewrite reported_faults. by destruct (Hsure1 Hf) as [-> _]. }
  rewrite run_bind.
  destruct (awaited_gets_run (Cache := Flex.CachedData (Row := Row) (Key := Key))
              Eff.ImportError dataset w2)
    as (w3 & Hk3 & Ht3 & Hw3 & Hp3 & [Hrun3|Hrun3] & Hsure3); [done| |].
  2:{ unfold importDataset. rewrite Hrun3. exists (Eff.Throw Eff.ImportError), w3.
      destruct (kept_trans _ _ _ Hk2 Hk3) as (? & ? & ? & ? & ? & ? & ? & ? & ?).
      split; [done|]. split; [done|]. split; [done|]. split; [done|]. split; [done|].
      assert (table w3 = table w) by congruence.
      split; [by left|]. split; [by left|].
      intros Hf. destruct (Hsure3 (Hf2 Hf)) as [_ Hsure]. congruence. }
  unfold importDataset. rewrite Hrun3.
  assert (dataset w2 = dataset w) as Hdata by apply Hk2. rewrite Hdata.
  rewrite run_bind.
  match goal with
  | |- context [onProgress callback ?ph ?l ?t ?m w3] =>
      set (w4 := reported callback (mkProgress ph l t m) w3);
      destruct (onProgress_run callback ph l t m w3)
        as [->|(f & e & Hcb & Hthrown & ->)]
  end.
  2:{ exists (Eff.Throw e), w4.
      assert (kept w w4) as (? & ? & ? & ? & ? & ? & ? & ? & ?).
      { apply (kept_trans _ w2); [done|]. apply (kept_trans _ w3); [done|].
        apply kept_reported. }
      assert (table w4 = table w) as Ht4
        by (unfold w4; rewrite reported_table; congruence).
      split; [done|]. split; [done|]. split; [done|]. split; [done|]. split; [done|].
      split; [by left|]. split; [by left|].
      intros _ _ _ Hquiet. destruct (quiet_returns _ _ _ _ Hquiet Hcb Hthrown). }
  fold w4.
  assert (kept w w4) as Hk4.
  { apply (kept_trans _ w2); [done|]. apply (kept_trans _ w3); [done|].
    apply kept_reported. }
  assert (table w4 = table w) as Ht4 by (unfold w4; rewrite reported_table; congruence).
  assert (faults w = [] → faults w4 = []) as Hf4.
  { intros Hf. unfold w4. rewrite reported_faults.
    destruct (Hsure3 (Hf2 Hf)) as [-> _]. by apply Hf2. }
  rewrite run_bind.
  rewrite (transaction_ext _ (clear;; loadChunks key callback
                                (length (normalize <$> dataset w))
                                (normalize <$> dataset w) 0)).
  2:{ intros w0. rewrite !run_bind. destruct (clear w0) as [[[]|e|] w0']; [|done..].
      apply addChunks_loadChunks. }
  destruct (replace_run key callback (normalize <$> dataset w) w4)
    as (r5 & w5 & -> & Hfuel5 & Hk5 & Hok5 & Hfail5 & Hsure5).
  destruct (kept_trans _ _ _ Hk4 Hk5) as (? & ? & ? & ? & ? & ? & ? & ? & ?).
  destruct r5 as [[]|e|]; [|clear Hok5|done].
  2:{ eexists _, _. split; [reflexivity|].
      assert (table w5 = table w) by (rewrite Hfail5 by done; done).
      split; [done|]. split; [done|]. split; [done|]. split; [done|].
      split; [by left|]. split; [by left|].
      intros Hf _ Hnd Hquiet. by destruct (Hsure5 (Hf4 Hf) Hnd Hquiet). }
  destruct (Hok5 eq_refl) as [Ht5 Hnd5].
  rewrite run_bind. unfold Flex.resetCaches at 1, Eff.modify at 1. cbn beta iota.
  rewrite run_bind.
  match goal with
  | |- context [onProgress callback ?ph ?l ?t ?m ?w0] =>
      set (w6 := reported callback (mkProgress ph l t m) w0);
      destruct (onProgress_run callback ph l t m w0)
        as [->|(f & e & Hcb & Hthrown & ->)]
  end.
  - exists (Eff.Normal true), w6.
    assert (window w6 = window w5 ∧ dataset w6 = dataset w5 ∧
            console w6 = console w5 ∧ faults w6 = faults w5) as (? & ? & ? & Hfaults6)
      by (unfold w6; by destruct callback).
    assert (table w6 = normalize <$> dataset w) as Ht6
      by (unfold w6; by rewrite reported_table).
    assert (allData w6 = None) as Hall6 by (unfold w6; by rewrite reported_allData).
    assert (descriptionIndex w6 = None) as Hidx6
      by (unfold w6; by rewrite reported_descriptionIndex).
    split; [done|]. split; [congruence|]. split; [congruence|]. split; [congruence|].
    split; [by rewrite Hfaults6|]. split.
    { right. rewrite Ht6. done. }
    split; [|done].
    split; [done|]. split; [by rewrite Ht6|]. split; [done|]. split; [done|].
    intros Hsome. by apply reported_last.
  - exists (Eff.Throw e), w6.
    assert (window w6 = window w5 ∧ dataset w6 = dataset w5 ∧
            console w6 = console w5 ∧ faults w6 = faults w5) as (? & ? & ? & Hfaults6)
      by (unfold w6; by destruct callback).
    assert (table w6 = normalize <$> dataset w) as Ht6
      by (unfold w6; by rewrite reported_table).
    assert (allData w6 = None) as Hall6 by (unfold w6; by rewrite reported_allData).
    assert (descriptionIndex w6 = None) as Hidx6
      by (unfold w6; by rewrite reported_descriptionIndex).
    split; [done|]. split; [congruence|]. split; [congruence|]. split; [congruence|].
    split; [by rewrite Hfaults6|]. split.
    { right. rewrite Ht6. done. }
    split.
    + right. exists f. split; [done|]. split; [done|]. right.
      apply reported_last. rewrite Hcb. by eexists.
    + intros _ _ _ Hquiet. destruct (quiet_returns _ _ _ _ Hquiet Hcb Hthrown).
Qed.

End InitFacts.

(** ** The MiniSearch revision: loading *)

Module MiniLoadFacts.
Import MiniSearchRev.

Notation ServiceWorld := (World RawRecord CustomsRecord unit MiniSearchIndex).

Lemma mini_addChunks_loadChunks callback fuel normalized start (w : ServiceWorld) :
  addChunks callback fuel normalized start w
  = loadChunks code callback fuel normalized start w.
Proof.
  revert start w. induction fuel as [|fuel IH]; intros start w;
    cbn [addChunks loadChunks]; [done|].
  case_decide; [|done]. unfold Service. rewrite !run_bind.
  change INDEX_CHUNK_SIZE with 2000%nat.
  destruct (bulkAdd code (Js.sliceNat normalized start (start + 2000)) w) as [[[]|e|] w1];
    [|done..].
  rewrite !run_bind.
  match goal with
  | |- context [onProgress callback ?ph ?l ?t ?m w1] =>
      destruct (onProgress callback ph l t m w1) as [[[]|e|] w2]; [|done..]
  end.
  apply IH.
Qed.

Lemma steady_mini_ensureDescriptionIndex : steady ensureDescriptionIndex.
Proof. unfold ensureDescriptionIndex, toArrayByCode. repeat steady_step. Qed.

(** The documents of the index: code and description of every row, in the
    order of the codes. *)
Definition documents (rows : list CustomsRecord) : MiniSearchIndex :=
  (λ r, (code r, description r)) <$> Js.sort (byCodeOrder code) rows.

(** [ensureDescriptionIndex] answers with the index it has; it builds one
    from the table only where it has none. *)
Lemma mini_ensureDescriptionIndex_run (w : ServiceWorld) :
  ∃ r w1,
    ensureDescriptionIndex w = (r, w1) ∧ r ≠ Eff.OutOfFuel ∧ stable w w1 ∧
    console w1 = console w ∧
    (∀ index, descriptionIndex w = Some index →
              r = Eff.Normal index ∧ descriptionIndex w1 = Some index) ∧
    (descriptionIndex w = None →
     match r with
     | Eff.Normal index =>
         index = documents (table w) ∧ descriptionIndex w1 = Some index
     | _ => descriptionIndex w1 = None
     end) ∧
    (descriptionIndex w = None → window w = true → faults w = [] →
     r = Eff.Normal (documents (table w)) ∧ faults w1 = []).
Proof.
  destruct (steady_mini_ensureDescriptionIndex w) as [Hfuel Hstable].
  destruct (ensureDescriptionIndex w) as [r w1] eqn:Hrun. simpl in Hfuel, Hstable.
  exists r, w1. split; [done|]. split; [done|]. split; [done|].
  revert Hrun. unfold ensureDescriptionIndex, Service. rewrite run_bind.
  unfold Eff.gets at 1. unfold MiniSearchIndex in *.
  destruct (descriptionIndex w) as [index|] eqn:Hidx.
  { intros [= <- <-]. split; [done|]. split; [|done]. by intros ? [= <-]. }
  rewrite run_bind. unfold getDb at 1.
  destruct (window w) eqn:Hwin.
  2:{ intros [= <- <-]. split; [done|]. split; [done|]. split; [done|]. done. }
  run. unfold toArrayByCode, awaited. run. cbn [faults setFaults].
  destruct (faults w) as [|[|] [|[|] rest]] eqn:Hf; cbn [faults setFaults];
    rewrite ?Hf; cbn beta iota zeta;
    intros [= <- <-]; (split; [done|]); (split; [done|]); (split; [done|]); done.
Qed.

(** The body of the [try] of [initializeData], where there is a window. *)
Lemma mini_initializeData_body (host : Js.Host) (force : bool)
    (callback : option ProgressCallback) (w : ServiceWorld) :
  window w = true →
  ∃ (r : Eff.Completion bool) (w1 : ServiceWorld),
    (getDb;;
     existing ← count;
     if negb force && (0 <? existing) then
       onProgress callback Cached existing existing (MsgFound existing);;
       mret false
     else
       onProgress callback LoadData 0 0 MsgLoading;;
       data ← importDataset;
       let total := Z.of_nat (length data) in
       onProgress callback Indexing 0 total (MsgIndexing 0 total);;
       let normalized := normalize host <$> data in
       transaction (clear;; addChunks callback (length normalized) normalized 0);;
       ensureDescriptionIndex;;
       onProgress callback Done total total MsgDone;;
       mret true) w = (r, w1) ∧
    window w1 = window w ∧ dataset w1 = dataset w ∧ console w1 = console w ∧
    (∀ index, descriptionIndex w = Some index → descriptionIndex w1 = Some index) ∧
    (table w1 = table w ∨
     (table w1 = normalize host <$> dataset w ∧ NoDup (code <$> table w1))) ∧
    match r with
    | Eff.Normal true =>
        table w1 = normalize host <$> dataset w ∧ NoDup (code <$> table w1) ∧
        (descriptionIndex w = None →
         descriptionIndex w1 = Some (documents (table w1))) ∧
        (is_Some callback →
         last (progress w1)
         = Some (mkProgress Done (Z.of_nat (length (dataset w)))
                   (Z.of_nat (length (dataset w))) MsgDone))
    | Eff.Normal false =>
        force = false ∧ table w ≠ [] ∧
        table w1 = table w ∧ writes w1 = writes w ∧
        descriptionIndex w1 = descriptionIndex w ∧
        progress w1
        = progress w ++
          match callback with
          | Some _ => [mkProgress Cached (Z.of_nat (length (table w)))
                         (Z.of_nat (length (table w)))
                         (MsgFound (Z.of_nat (length (table w))))]
          | None => []
          end
    | Eff.Throw e =>
        table w1 = table w ∨ descriptionIndex w1 = None ∨
        (∃ f, callback = Some f ∧ f (progress w1) = Some e ∧
              last (progress w1)
              = Some (mkProgress Done (Z.of_nat (length (dataset w)))
                        (Z.of_nat (length (dataset w))) MsgDone))
    | Eff.OutOfFuel => False
    end ∧
    (faults w = [] → (force = true ∨ table w = []) →
     NoDup (code <$> (normalize host <$> dataset w)) → quiet callback →
     r = Eff.Normal true).
Proof.
  intros Hwin. set (existing := Z.of_nat (length (table w))). unfold Service.
  rewrite run_bind.
  assert (getDb w = (Eff.Normal tt, w)) as -> by (unfold getDb; by rewrite Hwin).
  rewrite run_bind.
  destruct (awaited_gets_run (Cache := unit) (Index := MiniSearchIndex)
              Eff.StorageError (λ w0 : ServiceWorld, Z.of_nat (length (table w0))) w)
    as (w1 & Hk1 & Ht1 & Hw1 & Hp1 & [Hrun|Hrun] & Hsure1); [done| |].
  2:{ unfold count. rewrite Hrun. exists (Eff.Throw Eff.StorageError), w1.
      destruct Hk1 as (? & ? & ? & ? & Hidx & ? & ? & ? & ?).
      split; [done|]. split; [done|]. split; [done|]. split; [done|].
      split; [intros index; by rewrite Hidx|]. split; [by left|]. split; [by left|].
      intros Hf. destruct (Hsure1 Hf) as [_ Hsure]. congruence. }
  unfold count. rewrite Hrun. fold existing.
  destruct (negb force && (0 <? existing)) eqn:Hcached.
  { apply andb_true_iff in Hcached as [Hforce Hpos].
    apply negb_true_iff in Hforce. apply Z.ltb_lt in Hpos.
    assert (table w ≠ []) as Hne.
    { intros Hnil. unfold existing in Hpos. rewrite Hnil in Hpos. cbn in Hpos. lia. }
    rewrite run_bind.
    match goal with
    | |- context [onProgress callback ?ph ?l ?t ?m w1] =>
        set (w2 := reported callback (mkProgress ph l t m) w1);
        destruct (onProgress_run callback ph l t m w1)
          as [->|(f & e & Hcb & Hthrown & ->)]
    end.
    - exists (Eff.Normal false), w2.
      assert (kept w w2) as (? & ? & ? & ? & Hidx & ? & ? & ? & ?).
      { apply (kept_trans _ w1); [done|]. apply kept_reported. }
      assert (table w2 = table w) as Ht2 by (unfold w2; by rewrite reported_table).
      split; [done|]. split; [done|]. split; [done|]. split; [done|].
      split; [intros index; by rewrite Hidx|]. split; [by left|]. split.
      + split; [done|]. split; [done|]. split; [done|].
        split; [unfold w2; by rewrite reported_writes|]. split; [done|].
        unfold w2. rewrite reported_progress. by rewrite Hp1.
      + intros _ [->|Hnil] _ _; done.
    - exists (Eff.Throw e), w2.
      assert (kept w w2) as (? & ? & ? & ? & Hidx & ? & ? & ? & ?).
      { apply (kept_trans _ w1); [done|]. apply kept_reported. }
      assert (table w2 = table w) as Ht2 by (unfold w2; by rewrite reported_table).
      split; [done|]. split; [done|]. split; [done|]. split; [done|].
      split; [intros index; by rewrite Hidx|]. split; [by left|]. split; [by left|].
      intros _ [->|Hnil] _ _; done. }
  rewrite run_bind.
  match goal with
  | |- context [onProgress callback ?ph ?l ?t ?m w1] =>
      set (w2 := reported callback (mkProgress ph l t m) w1);
      destruct (onProgress_run callback ph l t m w1)
        as [->|(f & e & Hcb & Hthrown & ->)]
  end.
  2:{ exists (Eff.Throw e), w2.
      assert (kept w w2) as (? & ? & ? & ? & Hidx & ? & ? & ? & ?).
      { apply (kept_trans _ w1); [done|]. apply kept_reported. }
      assert (table w2 = table w) as Ht2 by (unfold w2; by rewrite reported_table).
      split; [done|]. split; [done|]. split; [done|]. split; [done|].
      split; [intros index; by rewrite Hidx|]. split; [by left|]. split; [by left|].
      intros _ _ _ Hquiet. destruct (quiet_returns _ _ _ _ Hquiet Hcb Hthrown). }
  fold w2.
  assert (kept w w2) as Hk2.
  { apply (kept_trans _ w1); [done|]. apply kept_reported. }
  assert (table w2 = table w) as Ht2 by (unfold w2; by rewrite reported_table).
  assert (faults w = [] → faults w2 = []) as Hf2.
  { intros Hf. unfold w2. rewrite reported_faults. by destruct (Hsure1 Hf) as [-> _]. }
  rewrite run_bind.
  destruct (awaited_gets_run (Cache := unit) (Index := MiniSearchIndex)
              Eff.ImportError dataset w2)
    as (w3 & Hk3 & Ht3 & Hw3 & Hp3 & [Hrun3|Hrun3] & Hsure3); [done| |].
  2:{ unfold importDataset. rewrite Hrun3. exists (Eff.Throw Eff.ImportError), w3.
      destruct (kept_trans _ _ _ Hk2 Hk3) as (? & ? & ? & ? & Hidx & ? & ? & ? & ?).
      assert (table w3 = table w) by congruence.
      split; [done|]. split; [done|]. split; [done|]. split; [done|].
      split; [intros index; by rewrite Hidx|]. split; [by left|]. split; [by left|].
      intros Hf. destruct (Hsure3 (Hf2 Hf)) as [_ Hsure]. congruence. }
  unfold importDataset. rewrite Hrun3.
  assert (dataset w2 = dataset w) as Hdata by apply Hk2. rewrite Hdata.
  rewrite run_bind.
  match goal with
  | |- context [onProgress callback ?ph ?l ?t ?m w3] =>
      set (w4 := reported callback (mkProgress ph l t m) w3);
      destruct (onProgress_run callback ph l t m w3)
        as [->|(f & e & Hcb & Hthrown & ->)]
  end.
  2:{ exists (Eff.Throw e), w4.
      assert (kept w w4) as (? & ? & ? & ? & Hidx & ? & ? & ? & ?).
      { apply (kept_trans _ w2); [done|]. apply (kept_trans _ w3); [done|].
        apply kept_reported. }
      assert (table w4 = table w) as Ht4
        by (unfold w4; rewrite reported_table; congruence).
      split; [done|]. split; [done|]. split; [done|]. split; [done|].
      split; [intros index; by rewrite Hidx|]. split; [by left|]. split; [by left|].
      intros _ _ _ Hquiet. destruct (quiet_returns _ _ _ _ Hquiet Hcb Hthrown). }
  fold w4.
  assert (kept w w4) as Hk4.
  { apply (kept_trans _ w2); [done|]. apply (kept_trans _ w3); [done|].
    apply kept_reported. }
  assert (table w4 = table w) as Ht4 by (unfold w4; rewrite reported_table; congruence).
  assert (faults w = [] → faults w4 = []) as Hf4.
  { intros Hf. unfold w4. rewrite reported_faults.
    destruct (Hsure3 (Hf2 Hf)) as [-> _]. by apply Hf2. }
  rewrite run_bind.
  rewrite (transaction_ext _ (clear;; loadChunks code callback
                                (length (normalize host <$> dataset w))
                                (normalize host <$> dataset w) 0)).
  2:{ intros w0. rewrite !run_bind. destruct (clear w0) as [[[]|e|] w0']; [|done..].
      apply mini_addChunks_loadChunks. }
  destruct (replace_run code callback (normalize host <$> dataset w) w4)
    as (r5 & w5 & -> & Hfuel5 & Hk5 & Hok5 & Hfail5 & Hsure5).
  pose proof (kept_trans _ _ _ Hk4 Hk5) as Hk05.
  destruct Hk05 as (Hwin5 & Hdata5 & ? & ? & Hidx5 & Hcons5 & ? & ? & ?).
  destruct r5 as [[]|e|]; [|clear Hok5|done].
  2:{ eexists _, _. split; [reflexivity|].
      assert (table w5 = table w) by (rewrite Hfail5 by done; done).
      split; [done|]. split; [done|]. split; [done|].
      split; [intros index; by rewrite Hidx5|]. split; [by left|]. split; [by left|].
      intros Hf _ Hnd Hquiet. by destruct (Hsure5 (Hf4 Hf) Hnd Hquiet). }
  destruct (Hok5 eq_refl) as [Ht5 Hnd5].
  rewrite run_bind.
  destruct (mini_ensureDescriptionIndex_run w5)
    as (r6 & w6 & -> & Hfuel6 & Hst6 & Hcons6 & Hhave6 & Hbuild6 & Hsure6).
  destruct Hst6 as (Hwin6 & Hdata6 & Ht6 & ? & ? & Hp6 & _ & ?).
  assert (∀ index, descriptionIndex w = Some index → descriptionIndex w6 = Some index)
    as Hkeep.
  { intros index Hindex. apply Hhave6. by rewrite Hidx5. }
  assert (table w6 = normalize host <$> dataset w ∧ NoDup (code <$> table w6)) as Hnew.
  { rewrite Ht6, Ht5. done. }
  assert (faults w = [] → NoDup (code <$> (normalize host <$> dataset w)) →
          quiet callback → faults w5 = []) as Hcalm.
  { intros Hf Hnd Hquiet. by destruct (Hsure5 (Hf4 Hf) Hnd Hquiet). }
  destruct r6 as [index|e|]; [| |done].
  2:{ eexists _, _. split; [reflexivity|].
      split; [congruence|]. split; [congruence|]. split; [congruence|].
      split; [done|]. split; [by right|]. split.
      - right. left.
        destruct (descriptionIndex w5) as [index|] eqn:Hindex.
        + by destruct (Hhave6 index eq_refl).
        + by apply Hbuild6.
      - intros Hf _ Hnd Hquiet. exfalso. specialize (Hcalm Hf Hnd Hquiet).
        destruct (descriptionIndex w5) as [index|] eqn:Hindex.
        + by destruct (Hhave6 index eq_refl).
        + destruct (Hsure6 eq_refl) as [? _]; [congruence|done|done]. }
  rewrite run_bind.
  match goal with
  | |- context [onProgress callback ?ph ?l ?t ?m w6] =>
      set (w7 := reported callback (mkProgress ph l t m) w6);
      destruct (onProgress_run callback ph l t m w6)
        as [->|(f & e & Hcb & Hthrown & ->)]
  end.
  - exists (Eff.Normal true), w7.
    assert (kept w6 w7) as (? & ? & ? & ? & Hidx7 & ? & ? & ? & ?) by apply kept_reported.
    assert (table w7 = table w6) as Ht7 by (unfold w7; by rewrite reported_table).
    split; [done|].
    split; [congruence|]. split; [congruence|]. split; [congruence|].
    split; [intros index' Hindex'; rewrite Hidx7; by apply Hkeep|].
    split; [right; rewrite Ht7; apply Hnew|]. split; [|done].
    split; [rewrite Ht7; apply Hnew|]. split; [rewrite Ht7; apply Hnew|]. split.
    + intros Hnone. rewrite Hidx5 in Hbuild6. destruct (Hbuild6 Hnone) as [-> Hidx6].
      by rewrite Hidx7, Hidx6, Ht7, Ht6.
    + intros Hsome. by apply reported_last.
  - exists (Eff.Throw e), w7.
    assert (kept w6 w7) as (? & ? & ? & ? & Hidx7 & ? & ? & ? & ?) by apply kept_reported.
    assert (table w7 = table w6) as Ht7 by (unfold w7; by rewrite reported_table).
    split; [done|].
    split; [congruence|]. split; [congruence|]. split; [congruence|].
    split; [intros index' Hindex'; rewrite Hidx7; by apply Hkeep|].
    split; [right; rewrite Ht7; apply Hnew|]. split.
    + right. right. exists f. split; [done|]. split; [done|].
      apply reported_last. rewrite Hcb. by eexists.
    + intros _ _ _ Hquiet. destruct (quiet_returns _ _ _ _ Hquiet Hcb Hthrown).
Qed.

End MiniLoadFacts.

(** ** The MiniSearch revision: walking the table *)

Module MiniQueryFacts.
Import CodeKeyed CodeKeyedFacts FlexCodeFacts MiniSearchRev.

Notation ServiceWorld := (World RawRecord CustomsRecord unit MiniSearchIndex).

Lemma getByKey_quiet (w : ServiceWorld) (c : string) :
  faults w = [] →
  getByKey code c w = (Eff.Normal (head (filter (λ r, code r = c) (table w))), w).
Proof. intros Hf. unfold getByKey, awaited. by rewrite Hf. Qed.

Lemma head_filter_code (rows : list CustomsRecord) (c : string) :
  is_Some (head (filter (λ r, code r = c) rows)) ↔ c ∈ presentCodes rows.
Proof.
  rewrite elem_of_presentCodes, list_elem_of_fmap. split.
  - intros [r Hr]. apply head_Some_elem_of, list_elem_of_filter in Hr as [Hc Hin].
    by exists r.
  - intros (r & -> & Hin).
    destruct (filter (λ r0, code r0 = code r) rows) as [|x l] eqn:Hfilter; [|by eexists].
    assert (r ∈ filter (λ r0, code r0 = code r) rows) as Hr by (by apply list_elem_of_filter).
    rewrite Hfilter in Hr. by apply elem_of_nil in Hr.
Qed.

(** Asking the table for every prefix finds what [findParentCode] finds
    among the codes of the table. *)
Lemma findExistingParentFrom_quiet (w : ServiceWorld) (c : string) (i : nat) :
  faults w = [] →
  findExistingParentFrom c i w
  = (Eff.Normal (findParentCodeFrom c (presentCodes (table w)) i), w).
Proof.
  intros Hf. induction i as [|i IH]; cbn [findExistingParentFrom findParentCodeFrom];
    [done|].
  unfold Service. rewrite run_bind, getByKey_quiet by done.
  pose proof (head_filter_code (table w) (Js.slice0 c (S i))) as Hhead.
  destruct (head (filter (λ r, code r = Js.slice0 c (S i)) (table w))) as [r|].
  - rewrite decide_True; [done|]. apply Hhead. by eexists.
  - rewrite decide_False; [done|]. intros Hin. apply Hhead in Hin as [? [=]].
Qed.

Lemma findExistingParent_quiet (w : ServiceWorld) (c : string) :
  faults w = [] →
  findExistingParent c w = (Eff.Normal (findParentCode c (presentCodes (table w))), w).
Proof. apply findExistingParentFrom_quiet. Qed.

(** The ancestors of a code among the codes of the table, the farthest
    first. *)
Inductive ancestors (codes : gset string) : string → list string → Prop :=
  | ancestors_root c : findParentCode c codes = None → ancestors codes c []
  | ancestors_step c p l :
      findParentCode c codes = Some p → ancestors codes p l →
      ancestors codes c (l ++ [p]).

Lemma ancestors_unique codes c l1 l2 :
  ancestors codes c l1 → ancestors codes c l2 → l1 = l2.
Proof.
  intros H1. revert l2. induction H1 as [c Hc|c p l Hc _ IH]; intros l2 H2;
    inversion H2 as [? Hc2|? p2 l' Hc2 Hl']; subst; try congruence.
  rewrite Hc in Hc2. injection Hc2 as <-. by rewrite (IH l').
Qed.

Lemma ancestors_elem_of codes c l a :
  ancestors codes c l → a ∈ l →
  a ∈ codes ∧ String.prefix a c = true ∧ (0 < String.length a < String.length c)%nat.
Proof.
  induction 1 as [c Hc|c p l Hc _ IH]; intros Ha; [by apply elem_of_nil in Ha|].
  apply findParentCode_Some in Hc as (Hin & Hpre & Hlen & _).
  apply elem_of_app in Ha as [Ha| ->%list_elem_of_singleton]; [|done].
  destruct (IH Ha) as (? & Hap & ?). split; [done|].
  split; [by apply (str_prefix_trans _ p)|lia].
Qed.

Lemma pathLoop_quiet (w : ServiceWorld) (fuel : nat) (curr : string) (path : list string) :
  faults w = [] → (String.length curr < fuel)%nat →
  ∃ l, pathLoop fuel curr path w = (Eff.Normal (l ++ path), w) ∧
       ancestors (presentCodes (table w)) curr l.
Proof.
  intros Hf. revert curr path. induction fuel as [|fuel IH]; intros curr path Hfuel; [lia|].
  cbn [pathLoop]. unfold Service. rewrite run_bind, findExistingParent_quiet by done.
  destruct (findParentCode curr (presentCodes (table w))) as [p|] eqn:Hp.
  - pose proof (findParentCode_shorter _ _ _ Hp).
    destruct (IH p (p :: path) ltac:(lia)) as (l & -> & Hl).
    exists (l ++ [p]). split; [by rewrite <- app_assoc|]. by apply ancestors_step.
  - exists []. split; [done|]. by apply ancestors_root.
Qed.

(** What [getLowestExistingAncestor] looks for: the longest non-empty
    prefix of the string, the string itself included, among the codes. *)
Definition lowestAncestor (codes : gset string) (s : string) (r : option string) : Prop :=
  match r with
  | Some a =>
      a ∈ codes ∧ String.prefix a s = true ∧ (0 < String.length a)%nat ∧
      ∀ q, q ∈ codes → String.prefix q s = true → (0 < String.length q)%nat →
           (String.length q ≤ String.length a)%nat
  | None =>
      ∀ q, q ∈ codes → String.prefix q s = true → String.length q = 0%nat
  end.

Lemma lowestAncestor_self codes s :
  s ∈ codes → (0 < String.length s)%nat → lowestAncestor codes s (Some s).
Proof.
  intros Hin Hlen. split; [done|]. split; [apply str_prefix_refl|]. split; [done|].
  intros q _ Hq _. by apply prefix_length.
Qed.

Lemma lowestAncestor_parent codes s :
  s ∉ codes → lowestAncestor codes s (findParentCode s codes).
Proof.
  intros Hout. destruct (findParentCode s codes) as [p|] eqn:Hp.
  - apply findParentCode_Some in Hp as (Hin & Hpre & Hlen & Hmax).
    split; [done|]. split; [done|]. split; [lia|].
    intros q Hq Hqs Hpos. apply Hmax; [done..|].
    pose proof (prefix_length _ _ Hqs).
    destruct (decide (String.length q = String.length s)) as [Heq|]; [|lia].
    apply str_prefix_same_length in Hqs; [|done]. congruence.
  - intros q Hq Hqs.
    destruct (decide (String.length q = 0)%nat) as [|Hpos]; [done|]. exfalso.
    pose proof (prefix_length _ _ Hqs).
    destruct (decide (String.length q = String.length s)) as [Heq|].
    + apply str_prefix_same_length in Hqs; [|done]. congruence.
    + apply (proj1 (findParentCode_None s codes) Hp q); [done..|lia].
Qed.

Lemma getLowestExistingAncestor_quiet (w : ServiceWorld) (s : string) :
  faults w = [] →
  ∃ r, getLowestExistingAncestor s w = (Eff.Normal r, w) ∧
       lowestAncestor (presentCodes (table w)) s r.
Proof.
  intros Hf. unfold getLowestExistingAncestor. cbn [lowestExistingAncestorLoop].
  destruct (String.length s =? 0)%nat eqn:Hlen.
  { apply Nat.eqb_eq in Hlen. exists None. split; [done|].
    intros q _ Hq. apply prefix_length in Hq. lia. }
  apply Nat.eqb_neq in Hlen.
  unfold Service. rewrite run_bind, getByKey_quiet by done.
  pose proof (head_filter_code (table w) s) as Hhead.
  destruct (head (filter (λ r, code r = s) (table w))) as [r|].
  { exists (Some s). split; [done|]. apply lowestAncestor_self; [|lia].
    apply Hhead. by eexists. }
  assert (s ∉ presentCodes (table w)) as Hout.
  { intros Hin. apply Hhead in Hin as [? [=]]. }
  rewrite run_bind, findExistingParent_quiet by done.
  exists (findParentCode s (presentCodes (table w))).
  split; [|by apply lowestAncestor_parent].
  destruct (findParentCode s (presentCodes (table w))) as [p|] eqn:Hp.
  2:{ by destruct (String.length s). }
  destruct (proj1 (findParentCode_Some _ _ _) Hp) as (Hin & _ & Hplen & _).
  destruct (String.length s) as [|n] eqn:Hn; [lia|].
  cbn [lowestExistingAncestorLoop].
  destruct (String.length p =? 0)%nat eqn:Hp0; [apply Nat.eqb_eq in Hp0; lia|].
  unfold Service. rewrite run_bind, getByKey_quiet by done.
  pose proof (head_filter_code (table w) p) as Hheadp.
  destruct (head (filter (λ r, code r = p) (table w))) as [r|]; [done|].
  apply Hheadp in Hin as [? [=]].
Qed.

(** Looking for the parent among the codes that start with it is looking
    among all codes. *)
Lemma findParentCode_candidates (codes cand : gset string) (pc c : string) :
  (∀ q, q ∈ cand ↔ q ∈ codes ∧ String.prefix pc q = true) →
  findParentCode c cand = Some pc ↔ findParentCode c codes = Some pc.
Proof.
  intros Hcand. rewrite !findParentCode_Some. unfold longestProperPrefix. split.
  - intros (Hin & Hpre & Hlen & Hmax). apply Hcand in Hin as [Hin _].
    split; [done|]. split; [done|]. split; [done|].
    intros q Hq Hqc Hqlen.
    destruct (decide (String.length q ≤ String.length pc)%nat) as [|Hlt]; [done|].
    apply Hmax; [|done..]. apply Hcand. split; [done|].
    apply (str_prefix_chain _ _ c); [done..|lia].
  - intros (Hin & Hpre & Hlen & Hmax).
    split; [apply Hcand; split; [done|apply str_prefix_refl]|].
    split; [done|]. split; [done|].
    intros q Hq. apply Hmax. by apply Hcand in Hq as [? _].
Qed.

Lemma whereCodeStartsWith_quiet (w : ServiceWorld) (p : string) :
  faults w = [] →
  whereCodeStartsWith code p w
  = (Eff.Normal (filter (λ r, Js.startsWith (code r) p = true)
                   (Js.sort (byCodeOrder code) (table w))), w).
Proof. intros Hf. unfold whereCodeStartsWith, awaited. by rewrite Hf. Qed.

(** The direct children the table holds for a code: the rows whose parent
    code in the table is that code. *)
Lemma getDirectChildrenRecords_quiet (w : ServiceWorld) (parentCode : string) :
  faults w = [] →
  getDirectChildrenRecords parentCode w
  = (Eff.Normal
       (Js.sort compareRecords
          (filter (λ r, findParentCode (code r) (presentCodes (table w)) = Some parentCode)
             (Js.sort (byCodeOrder code) (table w)))), w).
Proof.
  intros Hf. unfold getDirectChildrenRecords, Service.
  rewrite run_bind, whereCodeStartsWith_quiet by done.
  set (sorted := Js.sort (byCodeOrder code) (table w)).
  set (candidates := filter (λ r, Js.startsWith (code r) parentCode = true) sorted).
  assert (∀ q, q ∈ (list_to_set (code <$> candidates) : gset string) ↔
               q ∈ presentCodes (table w) ∧ String.prefix parentCode q = true) as Hcand.
  { intros q. rewrite elem_of_list_to_set, elem_of_presentCodes, !list_elem_of_fmap. split.
    - intros (r & -> & Hr). apply list_elem_of_filter in Hr as [Hstart Hr].
      split; [|done]. exists r. split; [done|].
      by apply (proj1 (sort_elem_of _ _ _)) in Hr.
    - intros [(r & -> & Hr) Hstart]. exists r. split; [done|].
      apply list_elem_of_filter. split; [done|]. by apply sort_elem_of. }
  revert Hcand. generalize (list_to_set (code <$> candidates) : gset string).
  intros codeSet Hcand.
  assert (filter (λ record, code record ≠ parentCode ∧
                   findParentCode (code record) codeSet = Some parentCode) candidates
          = filter (λ r, findParentCode (code r) (presentCodes (table w)) = Some parentCode)
              sorted) as Hchildren.
  { unfold candidates. rewrite list_filter_filter. apply list_filter_iff. intros r.
    rewrite (findParentCode_candidates (presentCodes (table w)) _ parentCode (code r) Hcand).
    split; [tauto|]. intros Hp.
    pose proof (findParentCode_shorter _ _ _ Hp) as Hshort.
    pose proof (proj1 (findParentCode_Some _ _ _) Hp) as (_ & Hpre & _).
    split; [split; [|done]|done].
    intros Heq. rewrite Heq in Hshort. lia. }
  case_decide as Hempty.
  - rewrite run_ret. f_equal. f_equal. rewrite <- Hchildren.
    apply nil_length_inv in Hempty. by rewrite Hempty.
  - rewrite run_ret. f_equal. f_equal. by rewrite <- Hchildren.
Qed.

End MiniQueryFacts.

(** ** The MiniSearch revision: every query ends *)

Section SteadyValue.
Context {Raw Row Cache Index : Type}.
Notation World := (World Raw Row Cache Index).

(** A steady computation whose result, where it returns one, satisfies [Q]. *)
Definition steadyWith {A} (m : Eff.M World A) (Q : A → Prop) : Prop :=
  ∀ w, (m w).1 ≠ Eff.OutOfFuel ∧ stable w (m w).2 ∧
       ∀ a, (m w).1 = Eff.Normal a → Q a.

Lemma steadyWith_steady {A} (m : Eff.M World A) (Q : A → Prop) :
  steadyWith m Q → steady m.
Proof. intros Hm w. destruct (Hm w) as (? & ? & _). done. Qed.

Lemma steady_bind_with {A B} (m : Eff.M World A) (Q : A → Prop) (k : A → Eff.M World B) :
  steadyWith m Q → (∀ a, Q a → steady (k a)) → steady (x ← m; k x).
Proof.
  intros Hm Hk w. rewrite run_bind. destruct (Hm w) as (Hfuel & Hst & HQ).
  destruct (m w) as [[a|e|] w1]; simpl in *; [|done..].
  destruct (Hk a (HQ a eq_refl) w1) as [Hfuel' Hst']. split; [done|].
  by apply (stable_trans _ w1).
Qed.

End SteadyValue.

Module MiniSteadyFacts.
Import CodeKeyed CodeKeyedFacts MiniSearchRev.

Notation ServiceWorld := (World RawRecord CustomsRecord unit MiniSearchIndex).

Lemma steady_getByKey (c : string) : steady (getByKey code c : Service (option CustomsRecord)).
Proof. unfold getByKey. repeat steady_step. Qed.

(** Whatever fails, a parent [findExistingParentFrom] returns has at most
    [i] characters, and none is returned for [i = 0]. *)
Lemma steadyWith_findExistingParentFrom (c : string) (i : nat) :
  steadyWith (findExistingParentFrom c i)
    (λ r, ∀ p, r = Some p → (String.length p ≤ i ∧ 1 ≤ i)%nat).
Proof.
  induction i as [|i IH]; intros w; cbn [findExistingParentFrom].
  { split; [done|]. split; [apply stable_refl|]. by intros a [= <-]. }
  unfold Service. rewrite run_bind.
  destruct (steady_getByKey (Js.slice0 c (S i)) w) as [Hfuel Hst].
  destruct (getByKey code (Js.slice0 c (S i)) w) as [[[r|]|e|] w1]; simpl in *; [| |done..].
  - split; [done|]. split; [done|]. intros a [= <-] p [= <-].
    rewrite length_slice0. lia.
  - destruct (IH w1) as (Hfuel' & Hst' & HQ). split; [done|].
    split; [by apply (stable_trans _ w1)|].
    intros a Ha p Hp. specialize (HQ a Ha p Hp). lia.
Qed.

Lemma steadyWith_findExistingParent (c : string) :
  steadyWith (findExistingParent c)
    (λ r, ∀ p, r = Some p → (String.length p < String.length c)%nat).
Proof.
  intros w. destruct (steadyWith_findExistingParentFrom c (String.length c - 1) w)
    as (Hfuel & Hst & HQ).
  split; [done|]. split; [done|]. intros a Ha p Hp. specialize (HQ a Ha p Hp). lia.
Qed.

Lemma steady_lowestExistingAncestorLoop (fuel : nat) (curr : option string) :
  (∀ c, curr = Some c → (String.length c < fuel)%nat) →
  steady (lowestExistingAncestorLoop fuel curr).
Proof.
  revert curr. induction fuel as [|fuel IH]; intros [c|] Hfuel;
    cbn [lowestExistingAncestorLoop]; try apply (steady_ret (A := option string)).
  { specialize (Hfuel c eq_refl). lia. }
  destruct (String.length c =? 0)%nat; [apply (steady_ret (A := option string))|].
  apply (steady_bind (getByKey code c)); [apply steady_getByKey|].
  intros [r|]; [apply (steady_ret (A := option string))|].
  apply (steady_bind_with (findExistingParent c) _ _ (steadyWith_findExistingParent c)).
  intros next Hnext. apply IH. intros p ->. specialize (Hfuel c eq_refl).
  specialize (Hnext p eq_refl). lia.
Qed.

Lemma steady_getLowestExistingAncestor (s : string) :
  steady (getLowestExistingAncestor s).
Proof.
  apply steady_lowestExistingAncestorLoop. intros c [= <-]. lia.
Qed.

Lemma steady_pathLoop (fuel : nat) (curr : string) (path : list string) :
  (String.length curr < fuel)%nat → steady (pathLoop fuel curr path).
Proof.
  revert curr path. induction fuel as [|fuel IH]; intros curr path Hfuel; [lia|].
  cbn [pathLoop].
  apply (steady_bind_with (findExistingParent curr) _ _ (steadyWith_findExistingParent curr)).
  intros [p|] Hp; [|apply (steady_ret (A := list string))].
  apply IH. specialize (Hp p eq_refl). lia.
Qed.

Lemma steady_getPath (target : string) : steady (getPath target).
Proof. apply steady_pathLoop. lia. Qed.

Lemma steady_getDirectChildrenRecords (parentCode : string) :
  steady (getDirectChildrenRecords parentCode).
Proof. unfold getDirectChildrenRecords, whereCodeStartsWith. repeat steady_step. Qed.

Lemma steady_parentsForSiblingsOf (path parents : list string) :
  steady (parentsForSiblingsOf path parents).
Proof.
  revert parents. induction path as [|c rest IH]; intros parents;
    cbn [parentsForSiblingsOf]; [apply (steady_ret (A := list string))|].
  apply (steady_bind (findExistingParent c)).
  - apply (steadyWith_steady _ _ (steadyWith_findExistingParent c)).
  - intros parent. apply IH.
Qed.

Lemma steady_addDirectChildren (parents : list string) (allRecords : list CustomsRecord) :
  steady (addDirectChildren parents allRecords).
Proof.
  revert allRecords. induction parents as [|p rest IH]; intros allRecords;
    cbn [addDirectChildren]; [apply (steady_ret (A := list CustomsRecord))|].
  apply (steady_bind (getDirectChildrenRecords p)); [apply steady_getDirectChildrenRecords|].
  intros directChildren. apply IH.
Qed.

Lemma steady_getSubtreeWithAncestors (target : string) :
  steady (getSubtreeWithAncestors target).
Proof.
  unfold getSubtreeWithAncestors, whereCodeStartsWith.
  steady_step; [steady_step|]. steady_step; [repeat steady_step|].
  steady_step; [steady_step|].
  steady_step; [apply steady_getLowestExistingAncestor|].
  steady_step; [steady_step; [apply steady_getPath|steady_step]|].
  steady_step; [apply steady_mapM; intros c; apply steady_getByKey|].
  steady_step; [apply steady_parentsForSiblingsOf|].
  steady_step; [apply steady_addDirectChildren|steady_step].
Qed.

Section Queries.
Context (miniSearch : MiniSearchIndex → string → list SearchResult).
Context (highlightTerm : string → string → option string).

Lemma steady_getSubtreesForHits (codes : list string) (hits : list MiniSearchHit) :
  steady (getSubtreesForHits codes hits).
Proof.
  unfold getSubtreesForHits. cbn zeta.
  steady_step; [apply steady_mapM; intros c; apply steady_getSubtreeWithAncestors|].
  steady_step.
Qed.

Lemma steady_highlightTerms (description : string) (terms : list string) :
  steady (highlightTerms highlightTerm description terms).
Proof.
  revert description. induction terms as [|term rest IH]; intros description;
    cbn [highlightTerms]; [apply (steady_ret (A := string))|].
  destruct (highlightTerm description term); [apply IH|apply (steady_throw (A := string))].
Qed.

Lemma steady_hitOfResult (result : SearchResult) :
  steady (hitOfResult highlightTerm result).
Proof.
  unfold hitOfResult. destruct (res_terms result) as [terms|]; [|steady_step].
  steady_step; [apply steady_highlightTerms|steady_step].
Qed.

Lemma steady_mini_searchByDescriptionHits (query : string) :
  steady (searchByDescriptionHits miniSearch highlightTerm query).
Proof.
  unfold searchByDescriptionHits.
  steady_step; [apply MiniLoadFacts.steady_mini_ensureDescriptionIndex|].
  steady_step; [repeat steady_step|].
  apply steady_mapM. intros result. apply steady_hitOfResult.
Qed.

Lemma steady_mini_getAllData : steady getAllData.
Proof. unfold getAllData, toArrayByCode. repeat steady_step. Qed.

(** [searchByFields] always returns, and only reads. *)
Lemma mini_searchByFields_returns (w : ServiceWorld) (idPrefix descQuery : string) :
  ∃ rows w',
    searchByFields miniSearch highlightTerm idPrefix descQuery w = (Eff.Normal rows, w') ∧
    stable w w'.
Proof.
  unfold searchByFields, Service. rewrite run_bind. unfold Eff.gets.
  destruct (window w); cbn [negb].
  2:{ exists [], w. split; [done|apply stable_refl]. }
  cbn zeta. apply steady_caught.
  - steady_step; [apply steady_mini_getAllData|].
    steady_step; [apply steady_getSubtreeWithAncestors|].
    steady_step; [apply steady_mini_searchByDescriptionHits|].
    steady_step.
    + steady_step; [apply steady_getSubtreeWithAncestors|steady_step].
    + apply steady_getSubtreesForHits.
  - intros e w1. eexists [], _. split; [reflexivity|].
    repeat split; [|done]. cbn. by apply prefix_app_r.
Qed.

End Queries.

End MiniSteadyFacts.

(** ** The MiniSearch revision: a subtree with its context *)

Module MiniSubtreeFacts.
Import CodeKeyed CodeKeyedFacts MiniSearchRev MiniQueryFacts.

(** What [addRecord] keeps while records are added: codes stay pairwise
    different, what was there stays in place, nothing comes from elsewhere,
    and the code of every record offered is there afterwards. *)
Lemma foldl_addRecord_spec (acc : list CustomsRecord) (recs : list (option CustomsRecord)) :
  acc `prefix_of` foldl addRecord acc recs ∧
  (NoDup (code <$> acc) → NoDup (code <$> foldl addRecord acc recs)) ∧
  (∀ x, x ∈ foldl addRecord acc recs → x ∈ acc ∨ Some x ∈ recs) ∧
  (∀ r, Some r ∈ recs → code r ∈ code <$> foldl addRecord acc recs).
Proof.
  revert acc. induction recs as [|rec recs IH]; intros acc; cbn [foldl].
  { split; [done|]. split; [done|]. split; [by left|]. by intros r ?%elem_of_nil. }
  destruct (IH (addRecord acc rec)) as (Hpre & Hnd & Hin & Hcodes).
  assert (acc `prefix_of` addRecord acc rec) as Hstep.
  { unfold addRecord. destruct rec as [r|]; [|done]. case_decide; [done|].
    by apply prefix_app_r. }
  split; [by transitivity (addRecord acc rec)|]. split; [|split].
  - intros Hacc. apply Hnd. unfold addRecord. destruct rec as [r|]; [|done].
    case_decide as Hr; [done|]. rewrite fmap_app. apply NoDup_app.
    split; [done|]. split; [|apply NoDup_singleton].
    intros c Hc ->%list_elem_of_singleton. done.
  - intros x Hx. destruct (Hin x Hx) as [Hacc|Hrecs]; [|right; by right].
    unfold addRecord in Hacc. destruct rec as [r|]; [|by left].
    case_decide; [by left|].
    apply elem_of_app in Hacc as [?| ->%list_elem_of_singleton]; [by left|right; left].
  - intros r [<-|Hr]%elem_of_cons; [|by apply Hcodes].
    assert (code r ∈ code <$> addRecord acc (Some r)) as Hthere.
    { unfold addRecord. case_decide; [done|]. rewrite fmap_app.
      apply elem_of_app. right. left. }
    apply list_elem_of_fmap in Hthere as (x & Hx & Hin').
    rewrite Hx. apply list_elem_of_fmap_2. destruct Hpre as [k ->].
    apply elem_of_app. by left.
Qed.

Lemma mapM_getByKey_quiet (w : ServiceWorld) (path : list string) :
  faults w = [] →
  Eff.mapM (getByKey code) path w
  = (Eff.Normal ((λ c, head (filter (λ r, code r = c) (table w))) <$> path), w).
Proof.
  intros Hf. induction path as [|c path IH]; cbn [Eff.mapM]; [done|].
  unfold Eff.bind. rewrite getByKey_quiet by done. by rewrite IH.
Qed.

Lemma parentsForSiblingsOf_quiet (w : ServiceWorld) (path parents : list string) :
  faults w = [] →
  ∃ parents', parentsForSiblingsOf path parents w = (Eff.Normal parents', w).
Proof.
  intros Hf. revert parents. induction path as [|c path IH]; intros parents;
    cbn [parentsForSiblingsOf]; [by eexists|].
  unfold Service. rewrite run_bind, findExistingParent_quiet by done. apply IH.
Qed.

Lemma addDirectChildren_quiet (w : ServiceWorld) (parents : list string)
    (acc : list CustomsRecord) :
  faults w = [] →
  ∃ rows,
    addDirectChildren parents acc w = (Eff.Normal rows, w) ∧
    acc `prefix_of` rows ∧
    (NoDup (code <$> acc) → NoDup (code <$> rows)) ∧
    (∀ x, x ∈ rows → x ∈ acc ∨ x ∈ table w).
Proof.
  intros Hf. revert acc. induction parents as [|p parents IH]; intros acc;
    cbn [addDirectChildren].
  { exists acc. split; [done|]. split; [done|]. split; [done|]. by left. }
  unfold Service. rewrite run_bind, getDirectChildrenRecords_quiet by done.
  set (children := Js.sort compareRecords _).
  destruct (foldl_addRecord_spec acc (Some <$> children)) as (Hpre & Hnd & Hin & _).
  destruct (IH (foldl addRecord acc (Some <$> children)))
    as (rows & -> & Hpre' & Hnd' & Hin').
  exists rows. split; [done|]. split; [by transitivity (foldl addRecord acc (Some <$> children))|].
  split; [by intros ?%Hnd%Hnd'|].
  intros x Hx. destruct (Hin' x Hx) as [Hx'|?]; [|by right].
  destruct (Hin x Hx') as [?|Hchild]; [by left|right].
  apply list_elem_of_fmap in Hchild as (y & [= <-] & Hy).
  unfold children in Hy. apply (proj1 (sort_elem_of _ _ _)) in Hy.
  apply list_elem_of_filter in Hy as [_ Hy]. by apply (proj1 (sort_elem_of _ _ _)) in Hy.
Qed.

(** [getSubtreeWithAncestors] where nothing fails. *)
Lemma getSubtreeWithAncestors_quiet (w : ServiceWorld) (target : string) :
  window w = true → faults w = [] →
  ∃ rows,
    getSubtreeWithAncestors target w = (Eff.Normal rows, w) ∧
    (∀ r, r ∈ rows → r ∈ table w) ∧
    NoDup (code <$> rows) ∧
    Sorted (notAfter compareRecords) rows ∧
    (∀ r, r ∈ table w → Js.startsWith (code r) target = true →
          code r ∈ code <$> rows) ∧
    (rows = [] ↔ ∀ r, r ∈ table w → Js.startsWith (code r) target = false).
Proof.
  intros Hwin Hf. unfold getSubtreeWithAncestors, Service. rewrite run_bind.
  assert (getDb w = (Eff.Normal tt, w)) as -> by (unfold getDb; by rewrite Hwin).
  rewrite run_bind, whereCodeStartsWith_quiet by done.
  set (subtree := filter (λ r, Js.startsWith (code r) target = true)
                    (Js.sort (byCodeOrder code) (table w))).
  assert (∀ r, r ∈ subtree ↔ r ∈ table w ∧ Js.startsWith (code r) target = true)
    as Hsubtree.
  { intros r. unfold subtree. rewrite list_elem_of_filter, sort_elem_of. tauto. }
  case_decide as Hempty.
  { apply nil_length_inv in Hempty. exists []. split; [done|].
    split; [by intros r ?%elem_of_nil|]. split; [constructor|]. split; [constructor|].
    split.
    - intros r Hr Hstart. assert (r ∈ subtree) as Hin by (by apply Hsubtree).
      rewrite Hempty in Hin. by apply elem_of_nil in Hin.
    - split; [|done]. intros _ r Hr.
      destruct (Js.startsWith (code r) target) eqn:Hstart; [|done].
      assert (r ∈ subtree) as Hin by (by apply Hsubtree).
      rewrite Hempty in Hin. by apply elem_of_nil in Hin. }
  rewrite run_bind.
  destruct (getLowestExistingAncestor_quiet w target Hf) as (lca & -> & _).
  assert (∃ pathToLca,
            (match lca with Some l => getPath l | None => mret [] end : Service _) w
            = (Eff.Normal pathToLca, w)) as [pathToLca Hpath].
  { destruct lca as [l|]; [|by eexists].
    destruct (pathLoop_quiet w (S (String.length l)) l [l] Hf) as (anc & Hrun & _); [lia|].
    by eexists. }
  erewrite (run_bind_normal _ _ w); [|exact Hpath].
  rewrite run_bind, mapM_getByKey_quiet by done.
  rewrite run_bind.
  destruct (parentsForSiblingsOf_quiet w pathToLca [] Hf) as [parents ->].
  rewrite run_bind.
  set (ancestorRecords := (λ c, head (filter (λ r, code r = c) (table w))) <$> pathToLca).
  set (first := foldl addRecord [] (Some <$> subtree)).
  set (second := foldl addRecord first ancestorRecords).
  destruct (foldl_addRecord_spec [] (Some <$> subtree)) as (_ & Hnd1 & Hin1 & Hcodes1).
  destruct (foldl_addRecord_spec first ancestorRecords) as (Hpre2 & Hnd2 & Hin2 & _).
  destruct (addDirectChildren_quiet w parents second Hf)
    as (allRecords & -> & Hpre3 & Hnd3 & Hin3).
  rewrite run_ret. exists (Js.sort compareRecords allRecords). split; [done|].
  assert (first `prefix_of` allRecords) as Hpre by (by transitivity second).
  split; [|split; [|split; [|split]]].
  - intros r Hr%sort_elem_of. destruct (Hin3 r Hr) as [Hr2|?]; [|done].
    destruct (Hin2 r Hr2) as [Hr1|Hanc].
    + destruct (Hin1 r Hr1) as [?%elem_of_nil|Hsub]; [done|].
      apply list_elem_of_fmap in Hsub as (y & [= <-] & Hy). by apply Hsubtree in Hy as [? _].
    + apply list_elem_of_fmap in Hanc as (c & Hhead & _). symmetry in Hhead.
      by apply head_Some_elem_of, list_elem_of_filter in Hhead as [_ ?].
  - rewrite sort_Permutation. apply Hnd3, Hnd2, Hnd1. constructor.
  - apply sort_Sorted, compareRecords_total.
  - intros r Hr Hstart. rewrite sort_Permutation.
    assert (code r ∈ code <$> first) as Hfirst.
    { apply Hcodes1. apply list_elem_of_fmap_2. by apply Hsubtree. }
    destruct Hpre as [k ->]. rewrite fmap_app. apply elem_of_app. by left.
  - split.
    + intros Hnil. exfalso. apply Hempty.
      destruct subtree as [|r rest] eqn:Hsub; [done|].
      assert (code r ∈ code <$> first) as Hfirst.
      { apply Hcodes1. rewrite <- Hsub. apply list_elem_of_fmap_2. rewrite Hsub. left. }
      destruct Hpre as [k Hk]. apply (f_equal length) in Hnil.
      rewrite sort_length, Hk, length_app in Hnil.
      apply list_elem_of_fmap in Hfirst as (x & _ & Hx).
      destruct first; [by apply elem_of_nil in Hx|]. cbn in Hnil. lia.
    + intros Hnone. exfalso. apply Hempty.
      destruct subtree as [|r rest] eqn:Hsub; [done|].
      assert (r ∈ r :: rest) as Hr by left.
      apply Hsubtree in Hr as [Hr Hstart]. by rewrite (Hnone r Hr) in Hstart.
Qed.

End MiniSubtreeFacts.

(** ** Results from a cache as [buildCachedData] builds it *)

Section WellFormedFacts.
Context {Row Key : Type} `{Countable Key}.
Context (key : Row → Key) (rootOf : Row → option Key).

Notation CachedData := (Flex.CachedData (Row := Row) (Key := Key)).

(** The keys of the cached rows are pairwise different, every row has a
    root, the buckets group the rows by root and the map by key finds every
    row. *)
Definition wellFormed (c : CachedData) : Prop :=
  NoDup (key <$> Flex.cache c) ∧
  (∀ r, r ∈ Flex.cache c → is_Some (rootOf r)) ∧
  grouped rootOf (Flex.byRoot c) (Flex.rootOrder c) (Flex.cache c) ∧
  (∀ k, Flex.byKey c !! k = last (filter (λ r, key r = k) (Flex.cache c))).

Lemma wellFormed_byKey (c : CachedData) (k : Key) (r : Row) :
  wellFormed c → Flex.byKey c !! k = Some r ↔ r ∈ Flex.cache c ∧ key r = k.
Proof.
  intros (Hnd & _ & _ & Hlk). rewrite Hlk. split.
  - intros [Hk Hr]%last_Some_elem_of%list_elem_of_filter. done.
  - intros [Hr <-]. by apply last_filter_unique.
Qed.

Lemma matchedRootsOf_elem (c : CachedData) (ids : gset Key) (root : Key) :
  wellFormed c →
  root ∈ Flex.matchedRootsOf key rootOf c ids ↔
  ∃ m, m ∈ Flex.cache c ∧ key m ∈ ids ∧ rootOf m = Some root.
Proof.
  intros Hwf. unfold Flex.matchedRootsOf.
  rewrite elem_of_list_to_set, list_elem_of_omap. split.
  - intros (id & Hid%elem_of_elements & Hroot).
    destruct (Flex.byKey c !! id) as [m|] eqn:Hm; [|done].
    apply (wellFormed_byKey c id m Hwf) in Hm as [Hm <-].
    exists m. split; [done|]. split; [done|].
    destruct Hwf as (_ & Hsome & _). destruct (Hsome m Hm) as [root' Hroot'].
    rewrite Hroot' in Hroot |- *. cbn in Hroot. congruence.
  - intros (m & Hm & Hid & Hroot). exists (key m). split; [by apply elem_of_elements|].
    rewrite (proj2 (wellFormed_byKey c (key m) m Hwf)) by done. by rewrite Hroot.
Qed.

Lemma matchedRows_elem (c : CachedData) (roots : gset Key) (r : Row) :
  wellFormed c →
  r ∈ matchedRows c roots (Flex.rootOrder c) ↔
  r ∈ Flex.cache c ∧ ∃ root, rootOf r = Some root ∧ root ∈ roots.
Proof.
  intros (_ & _ & (_ & Hin & Hlk) & _). unfold matchedRows.
  rewrite elem_of_flat_map. split.
  - intros (root & [Hroot Horder]%list_elem_of_filter & Hr).
    rewrite Hlk, decide_True in Hr by done. cbn in Hr.
    apply list_elem_of_filter in Hr as [Hr Hcache]. split; [done|]. by exists root.
  - intros (Hr & root & Hroot & Hroots). exists root.
    assert (root ∈ Flex.rootOrder c) as Horder by (apply Hin; by exists r).
    split; [by apply list_elem_of_filter|].
    rewrite Hlk, decide_True by done. cbn. by apply list_elem_of_filter.
Qed.

Lemma matchedRows_NoDup (c : CachedData) (roots : gset Key) :
  wellFormed c → NoDup (key <$> matchedRows c roots (Flex.rootOrder c)).
Proof.
  intros Hwf. pose proof Hwf as (Hnd & _ & (Horder & _ & Hlk) & _).
  apply NoDup_fmap_2_strong.
  { intros x y [Hx _]%(matchedRows_elem c roots x Hwf) [Hy _]%(matchedRows_elem c roots y Hwf).
    by apply (key_inj_rows key (Flex.cache c) Hnd). }
  unfold matchedRows.
  apply (NoDup_flat_map_Forall2 eq _ (filter (λ root, root ∈ roots) (Flex.rootOrder c))).
  - by apply list_eq_Forall2.
  - by apply NoDup_filter.
  - intros root ? [_ Hroot]%list_elem_of_filter <-.
    rewrite Hlk, decide_True by done. cbn. apply NoDup_filter.
    by apply NoDup_fmap_1 in Hnd.
  - intros root1 ? root2 ? x [_ H1]%list_elem_of_filter [_ H2]%list_elem_of_filter <- <-.
    rewrite !Hlk, !decide_True by done. cbn.
    intros [Hx1 _]%list_elem_of_filter [Hx2 _]%list_elem_of_filter. congruence.
Qed.

End WellFormedFacts.

Section ResultFacts.
Context {Raw Row Key : Type} `{Countable Key}.
Context (key : Row → Key) (rootOf : Row → option Key).
Context (highlightedDescriptionOf : Row → option string).
Context (withHighlightedDescription : option string → Row → Row).

Notation ServiceWorld :=
  (World Raw Row (Flex.CachedData (Row := Row) (Key := Key)) (Flex.FlexIndex (Key := Key))).
Notation resultRow := (Flex.resultRow key highlightedDescriptionOf withHighlightedDescription).

Lemma prefix_fmap_inv {A B} (f : A → B) (l' : list B) (l : list A) :
  l' `prefix_of` (f <$> l) → l' = f <$> take (length l') l.
Proof.
  intros [k Hk]. rewrite fmap_take, Hk. by rewrite take_app_length.
Qed.

(** [buildSearchResults] emits the rows of the matched roots, bucket after
    bucket, and all of them where the limit is not reached. *)
Lemma buildSearchResults_emitted (w : ServiceWorld) c (ids : gset Key)
    (hl : gmap Key string) (itemLimit : Z) :
  allData w = Some c →
  ∃ emitted,
    Flex.buildSearchResults key rootOf highlightedDescriptionOf withHighlightedDescription
      ids hl itemLimit w = (Eff.Normal (resultRow hl <$> emitted), w) ∧
    emitted `prefix_of`
      matchedRows c (Flex.matchedRootsOf key rootOf c ids) (Flex.rootOrder c) ∧
    (Z.of_nat (length emitted) < itemLimit →
     emitted = matchedRows c (Flex.matchedRootsOf key rootOf c ids) (Flex.rootOrder c)).
Proof.
  intros Hc. unfold Flex.buildSearchResults. run. rewrite Hc.
  set (roots := Flex.matchedRootsOf key rootOf c ids).
  case_decide as Hsize.
  - exists []. split; [done|]. split; [apply prefix_nil|]. intros _.
    apply size_empty_inv in Hsize. unfold matchedRows.
    rewrite (filter_none (λ root, root ∈ roots)); [done|].
    intros root _ Hroot. by apply Hsize in Hroot.
  - destruct (emitRoots_prefix key highlightedDescriptionOf withHighlightedDescription
                c roots hl itemLimit (Flex.rootOrder c) []) as (emitted & Heq & Hpre).
    cbn [app] in Heq. pose proof (prefix_fmap_inv _ _ _ Hpre) as Hemitted.
    exists (take (length emitted) (matchedRows c roots (Flex.rootOrder c))).
    split; [by rewrite Heq, <- Hemitted|]. split; [apply prefix_take|].
    intros Hlt.
    pose proof (emitRoots_untruncated key highlightedDescriptionOf
                  withHighlightedDescription c roots hl itemLimit (Flex.rootOrder c) [])
      as Hfull.
    cbn [app] in Hfull. rewrite Heq in Hfull.
    rewrite Hfull at 1.
    + rewrite length_fmap. by rewrite firstn_all.
    + rewrite Hemitted, length_fmap. done.
Qed.

End ResultFacts.

(** ** The caches of the two FlexSearch revisions are well formed *)

Module CacheFacts.

Lemma buildCachedData_wellFormed (rows : list CodeKeyed.CustomsRecord) :
  NoDup (CodeKeyed.code <$> rows) →
  wellFormed CodeKeyed.code CodeKeyed.rootCode (FlexCodeRev.buildCachedData rows).
Proof.
  intros Hnd. destruct (FlexCodeFacts.buildState_sound rows) as (_ & Hrows & Hgroups).
  unfold FlexCodeRev.buildCachedData. split; [|split; [|split]]; cbn.
  - assert (CodeKeyed.code <$> FlexCodeRev.st_cloned (FlexCodeRev.buildState rows)
            = CodeKeyed.code <$> Js.sort (byCodeOrder CodeKeyed.code) rows) as ->.
    { clear -Hrows. induction Hrows as [|r' r l' l (root & -> & _) _ IH]; csimpl; [done|].
      by rewrite IH. }
    by rewrite sort_Permutation.
  - intros r Hr.
    destruct (Forall2_elem_of_l _ _ _ _ Hrows Hr) as (r0 & _ & root & -> & _).
    by exists root.
  - done.
  - intros k. rewrite (foldl_insert_lookup CodeKeyed.code). by destruct (last _).
Qed.

Lemma buildCachedData_ids_wellFormed (fuel : nat) (rows : list ParentIdRev.CustomsFlatRow) cd :
  NoDup (ParentIdRev.id <$> rows) →
  ParentIdRev.buildCachedData fuel rows = Some cd →
  wellFormed ParentIdRev.id ParentIdRev.rootId cd.
Proof.
  intros Hnd. unfold ParentIdRev.buildCachedData, ParentIdRev.buildState.
  destruct (foldl _ _ rows) as [st|] eqn:Hst; [|done]. cbn. intros [= <-].
  destruct (ParentIdRootFacts.foldl_assignRootId_sound (ParentIdRev.byIdOf rows) fuel rows
              (ParentIdRev.mkBuildState ∅ ∅ [] []) [] st
              (ParentIdRootFacts.byIdOf_keyed rows))
    as (_ & Hrows & Hgroups); [|apply ParentIdRootFacts.stateSound_empty|done|].
  { intros r Hr. by apply ParentIdRootFacts.byIdOf_elem_of. }
  cbn in Hrows. split; [|split; [|split]]; cbn.
  - by rewrite (ParentIdRootFacts.rooted_ids _ _ _ Hrows).
  - intros r Hr.
    destruct (Forall2_elem_of_l _ _ _ _ Hrows Hr) as (r0 & _ & root & -> & _).
    by exists root.
  - done.
  - intros k. apply ParentIdRootFacts.byIdOf_lookup.
Qed.

End CacheFacts.

Section CodeSearchFacts.
Context {Raw Row Key : Type} `{Countable Key}.
Context (key : Row → Key) (codeOf : Row → string) (keyOrder : Row → Row → Z).

Notation ServiceWorld :=
  (World Raw Row (Flex.CachedData (Row := Row) (Key := Key)) (Flex.FlexIndex (Key := Key))).

(** Where nothing fails [searchByCode] returns the keys of the first
    [4 * parentLimit] rows, in the order of the codes and under one code in
    the order of the keys, whose code starts with the prefix. *)
Lemma searchByCode_quiet (w : ServiceWorld) (codePrefix : string) (parentLimit : Z) :
  window w = true → faults w = [] →
  Flex.searchByCode key codeOf keyOrder codePrefix parentLimit w
  = (Eff.Normal
       (list_to_set
          (key <$> take (Z.to_nat (parentLimit * Flex.CODE_SEARCH_MULTIPLIER))
                     (filter (λ r, Js.startsWith (codeOf r) codePrefix = true)
                        (Js.sort (byCodeOrder codeOf)
                           (Js.sort keyOrder (table w)))))), w).
Proof.
  intros Hwin Hf. unfold Flex.searchByCode, getDb, primaryKeysStartingWith, awaited.
  run. by rewrite Hwin, Hf.
Qed.

End CodeSearchFacts.

(** * The claims of the specification *)

Module TreeClaims.
Import CodeKeyed CodeKeyedFacts.

Definition sample (c d : string) : CustomsRecord :=
  mkCustomsRecord c d Js.zero Js.zero Js.zero Js.zero Js.zero Js.zero
    (Js.JString "2024-01-01") Js.JNull None None Js.JNull Js.JNull Js.JNull.

(** The example of the specification, out of order. *)
Definition scenario : list CustomsFlatRow :=
  [sample "0102" "Gomar"; sample "02" "Mish"; sample "0101" "Kuaj"; sample "01" "Kafshe"].

(** The same code twice. *)
Definition twice : list CustomsFlatRow := [sample "01" "a"; sample "01" "b"].

(** A row without a code, and two rows under the code ["0"]. *)
Definition blank : list CustomsFlatRow :=
  [sample "" "Pa kod"; sample "0" "Zero"; sample "01" "Kafshe"].

Definition linkedRow (i : Z) (parent : option Z) (c d : string)
  : ParentIdRev.CustomsRecord :=
  ParentIdRev.mkCustomsRecord i parent c d Js.JUndefined Js.JUndefined Js.JUndefined
    Js.JUndefined Js.JUndefined Js.JUndefined (Js.JString "") Js.JNull Js.JNull
    Js.JNull Js.JNull None None.

(** The example of the specification with ids and [parentId] links. *)
Definition linked : list ParentIdRev.CustomsFlatRow :=
  [linkedRow 3 (Some 1) "0102" "Gomar"; linkedRow 4 None "02" "Mish";
   linkedRow 2 (Some 1) "0101" "Kuaj"; linkedRow 1 None "01" "Kafshe"].

(** The same id twice. *)
Definition twiceLinked : list ParentIdRev.CustomsFlatRow :=
  [linkedRow 1 None "01" "a"; linkedRow 1 None "02" "b"].

(** Two rows that name each other as parent, beside a root. *)
Definition looped : list ParentIdRev.CustomsFlatRow :=
  [linkedRow 1 (Some 2) "01" "Kafshe"; linkedRow 2 (Some 1) "0101" "Kuaj";
   linkedRow 3 None "02" "Mish"].

(** C1, as the code has it, for either hierarchy rule.

    Where the rule is the code prefix: for every list whose codes are pairwise
    different, the forest is read in full with enough fuel, the [subRows] of
    every node are exactly the rows whose parent code ([findParentCode]: the
    longest non-empty proper prefix among the codes of the list) is the code
    of that node, and flattening the roots through [subRows] gives every
    code of the list exactly once.

    Where the rule is [parentId]: for every list whose ids are pairwise
    different and whose parent links form no cycle (some rank decreases from a
    row to the parent it names in the list), the forest is read in full, the
    [subRows] of every node are exactly the rows whose [parentId] is the id
    of that node, and flattening gives every id of the list exactly once. *)
Theorem buildTreeFromList_tree_invariant :
  (∀ rows : list CustomsFlatRow,
     NoDup (code <$> rows) →
     ∃ fuel forest,
       (∀ n, (fuel ≤ n)%nat → treeOf n rows = Some forest) ∧
       (∀ t, t ∈ flat_map nodes forest →
          row t ∈ rows ∧
          row <$> subRows t ≡ₚ
            filter (λ r, findParentCode (code r) (presentCodes rows)
                         = Some (code (row t))) rows) ∧
       (∀ c p, findParentCode c (presentCodes rows) = Some p
               ↔ longestProperPrefix (presentCodes rows) p c) ∧
       flat_map (flatten code) forest ≡ₚ code <$> rows ∧
       NoDup (flat_map (flatten code) forest)) ∧
  (∀ (rows : list ParentIdRev.CustomsFlatRow) (rank : Z → nat),
     NoDup (ParentIdRev.id <$> rows) →
     (∀ r p, r ∈ rows → ParentIdRev.parentId r = Some p →
             p ∈ ParentIdRev.id <$> rows → (rank p < rank (ParentIdRev.id r))%nat) →
     ∃ fuel forest,
       (∀ n, (fuel ≤ n)%nat → ParentIdRev.treeOf n rows = Some forest) ∧
       (∀ t, t ∈ flat_map nodes forest →
          row t ∈ rows ∧
          row <$> subRows t ≡ₚ
            filter (λ r, ParentIdRev.parentId r = Some (ParentIdRev.id (row t))) rows) ∧
       flat_map (flatten ParentIdRev.id) forest ≡ₚ ParentIdRev.id <$> rows ∧
       NoDup (flat_map (flatten ParentIdRev.id) forest)).
Proof.
  split.
  - intros rows Hnd.
    set (parentOf := λ r : CustomsRecord, findParentCode (code r) (presentCodes rows)).
    set (bound := max_list (String.length ∘ code <$> rows)).
    destruct (buildGraph_forest code parentOf compareRecords rows Hnd String.length)
      with (bound := bound) as (forest & Hread & _ & Hnodes & Hflat).
    { intros r p Hr. unfold parentOf. rewrite resolvedParent_findParentCode.
      apply findParentCode_shorter. }
    { intros r Hr. apply max_list_elem_of_le.
      apply list_elem_of_fmap. by exists r. }
    exists (S bound), forest. split; [|split; [|split; [|split]]].
    + intros n Hn. apply Hread. lia.
    + intros t Ht. destruct (Hnodes t Ht) as [Hrow Hsub]. split; [done|].
      rewrite Hsub, sort_Permutation. unfold childrenOf.
      apply reflexive_eq, list_filter_iff. intros r. unfold parentOf.
      by rewrite resolvedParent_findParentCode.
    + intros c p. apply findParentCode_Some.
    + done.
    + by rewrite Hflat.
  - intros rows rank Hnd Hacyclic.
    set (bound := max_list (rank ∘ ParentIdRev.id <$> rows)).
    assert (∀ r p, resolvedParent ParentIdRev.id ParentIdRev.parentId rows r = Some p ↔
      ParentIdRev.parentId r = Some p ∧ p ∈ ParentIdRev.id <$> rows) as Hres.
    { intros r p. unfold resolvedParent.
      destruct (ParentIdRev.parentId r) as [q|]; [|naive_solver].
      case_decide; naive_solver. }
    destruct (buildGraph_forest ParentIdRev.id ParentIdRev.parentId
                ParentIdRev.sortChildren rows Hnd rank)
      with (bound := bound) as (forest & Hread & _ & Hnodes & Hflat).
    { intros r p Hr [Hp Hin]%Hres. by apply Hacyclic. }
    { intros r Hr. apply max_list_elem_of_le.
      apply list_elem_of_fmap. by exists r. }
    exists (S bound), forest. split; [|split; [|split]].
    + intros n Hn. apply Hread. lia.
    + intros t Ht. destruct (Hnodes t Ht) as [Hrow Hsub]. split; [done|].
      etransitivity; [exact (reflexive_eq (R := Permutation) _ _ Hsub)|].
      rewrite sort_Permutation. unfold childrenOf.
      apply reflexive_eq, list_filter_iff. intros r. rewrite Hres.
      split; [tauto|]. intros Hp. split; [done|]. by apply list_elem_of_fmap_2.
    + done.
    + by rewrite Hflat.
Qed.

Lemma buildTreeFromList_tree_invariant_witness :
  (NoDup (code <$> scenario) ∧
   ∃ fuel forest,
     (∀ n, (fuel ≤ n)%nat → treeOf n scenario = Some forest) ∧
     (∀ t, t ∈ flat_map nodes forest →
        row t ∈ scenario ∧
        row <$> subRows t ≡ₚ
          filter (λ r, findParentCode (code r) (presentCodes scenario)
                       = Some (code (row t))) scenario) ∧
     (∀ c p, findParentCode c (presentCodes scenario) = Some p
             ↔ longestProperPrefix (presentCodes scenario) p c) ∧
     flat_map (flatten code) forest ≡ₚ code <$> scenario ∧
     NoDup (flat_map (flatten code) forest)) ∧
  (NoDup (ParentIdRev.id <$> linked) ∧
   ∃ fuel forest,
     (∀ n, (fuel ≤ n)%nat → ParentIdRev.treeOf n linked = Some forest) ∧
     (∀ t, t ∈ flat_map nodes forest →
        row t ∈ linked ∧
        row <$> subRows t ≡ₚ
          filter (λ r, ParentIdRev.parentId r = Some (ParentIdRev.id (row t))) linked) ∧
     flat_map (flatten ParentIdRev.id) forest ≡ₚ ParentIdRev.id <$> linked ∧
     NoDup (flat_map (flatten ParentIdRev.id) forest)).
Proof.
  assert (NoDup (code <$> scenario)) as Hnd
    by (apply (bool_decide_unpack (NoDup (code <$> scenario))); vm_compute; exact I).
  assert (NoDup (ParentIdRev.id <$> linked)) as Hids
    by (apply (bool_decide_unpack (NoDup (ParentIdRev.id <$> linked)));
        vm_compute; exact I).
  split.
  - split; [exact Hnd|].
    exact (proj1 buildTreeFromList_tree_invariant scenario Hnd).
  - split; [exact Hids|].
    apply (proj2 buildTreeFromList_tree_invariant linked Z.to_nat Hids).
    intros r p Hr Hp _. unfold linked in Hr.
    repeat (apply elem_of_cons in Hr as [->|Hr]); try (by apply elem_of_nil in Hr);
      cbn in Hp; try done; injection Hp as <-; cbn; lia.
Defined.

(** C1 as stated fails in these ways. On a list that holds a code twice
    (or, where the rule is [parentId], an id twice) the one node registered
    under it is pushed twice, and flattening repeats it. On a list whose ids
    and codes are pairwise different but where two rows name each other as
    parent, neither is a root: flattening gives the remaining id only. And
    [findParentCode] never tries the empty prefix: beside a row with the
    empty code, whose code is the longest proper prefix of ["0"] in the
    list, the row of ["0"] is a root and the node of the empty code has no
    [subRows]. *)
Lemma buildTreeFromList_tree_invariant_fails :
  (∃ forest,
     treeOf 2 twice = Some forest ∧
     flat_map (flatten code) forest = ["01"; "01"] ∧
     ¬ NoDup (flat_map (flatten code) forest)) ∧
  (∃ forest,
     ParentIdRev.treeOf 2 twiceLinked = Some forest ∧
     flat_map (flatten ParentIdRev.id) forest = [1; 1] ∧
     ¬ NoDup (flat_map (flatten ParentIdRev.id) forest)) ∧
  (NoDup (ParentIdRev.id <$> looped) ∧ NoDup (ParentIdRev.code <$> looped) ∧
   ∃ forest,
     (∀ n, (1 ≤ n)%nat → ParentIdRev.treeOf n looped = Some forest) ∧
     flat_map (flatten ParentIdRev.id) forest = [3] ∧
     ¬ flat_map (flatten ParentIdRev.id) forest ≡ₚ ParentIdRev.id <$> looped) ∧
  (NoDup (code <$> blank) ∧
   "" ∈ presentCodes blank ∧ String.prefix "" "0" = true ∧
   (String.length "" < String.length "0")%nat ∧
   (∀ q, q ∈ presentCodes blank → String.prefix q "0" = true →
         (String.length q < String.length "0")%nat → q = "") ∧
   findParentCode "0" (presentCodes blank) = None ∧
   ∃ forest,
     treeOf 3 blank = Some forest ∧
     code ∘ row <$> forest = [""; "0"] ∧
     ∀ t, t ∈ forest → code (row t) = "" → subRows t = []).
Proof.
  split; [|split; [|split]].
  - eexists. split; [vm_compute; reflexivity|]. split; [reflexivity|].
    cbn. intros Hnd. apply NoDup_cons in Hnd as [Hnin _]. apply Hnin. left.
  - eexists. split; [vm_compute; reflexivity|]. split; [reflexivity|].
    cbn. intros Hnd. apply NoDup_cons in Hnd as [Hnin _]. apply Hnin. left.
  - split; [apply (bool_decide_unpack (NoDup (ParentIdRev.id <$> looped)));
            vm_compute; exact I|].
    split; [apply (bool_decide_unpack (NoDup (ParentIdRev.code <$> looped)));
            vm_compute; exact I|].
    eexists. split; [|split].
    + intros n Hn. destruct n as [|n]; [lia|]. vm_compute. reflexivity.
    + reflexivity.
    + cbn. intros Hperm. apply Permutation_length in Hperm. cbn in Hperm. lia.
  - split; [apply (bool_decide_unpack (NoDup (code <$> blank))); vm_compute; exact I|].
    split; [vm_compute; set_solver|]. split; [reflexivity|]. split; [cbn; lia|].
    split.
    { intros q _ _ Hq. destruct q; [done|cbn in Hq; lia]. }
    split; [reflexivity|].
    eexists. split; [vm_compute; reflexivity|]. split; [reflexivity|].
    intros t Ht Hcode. repeat (apply elem_of_cons in Ht as [->|Ht]);
      try (by apply elem_of_nil in Ht); [reflexivity|discriminate Hcode].
Qed.

(** C3, as the code has it: two lists with pairwise different codes that are
    permutations of each other give the same object graph, hence the same
    forest at every fuel. *)
Theorem buildTreeFromList_input_order (rows1 rows2 : list CustomsFlatRow) :
  NoDup (code <$> rows1) → rows1 ≡ₚ rows2 →
  buildTreeFromList rows1 = buildTreeFromList rows2 ∧
  ∀ n, treeOf n rows1 = treeOf n rows2.
Proof.
  intros Hnd Hperm.
  assert (buildTreeFromList rows1 = buildTreeFromList rows2) as Heq.
  { unfold buildTreeFromList.
    rewrite <- (presentCodes_Permutation rows1 rows2 Hperm).
    apply buildGraph_Permutation; [|apply compareRecords_trans| |done|done].
    - apply compareRecords_total.
    - apply compareRecords_sep. }
  split; [done|]. intros n. unfold treeOf. by rewrite Heq.
Qed.

Lemma buildTreeFromList_input_order_witness :
  (NoDup (code <$> scenario) ∧ scenario ≡ₚ reverse scenario) ∧
  buildTreeFromList scenario = buildTreeFromList (reverse scenario) ∧
  ∀ n, treeOf n scenario = treeOf n (reverse scenario).
Proof.
  assert (NoDup (code <$> scenario)) as Hnd
    by (apply (bool_decide_unpack (NoDup (code <$> scenario))); vm_compute; exact I).
  assert (scenario ≡ₚ reverse scenario) as Hperm by (symmetry; apply reverse_Permutation).
  split; [by split|].
  exact (buildTreeFromList_input_order scenario (reverse scenario) Hnd Hperm).
Defined.

(** C3 as stated fails on a list that holds a code twice with different
    descriptions: the later row overwrites the node, so the order of the
    input shows in the output. *)
Lemma buildTreeFromList_order_shows_on_duplicates :
  twice ≡ₚ reverse twice ∧ treeOf 2 twice ≠ treeOf 2 (reverse twice).
Proof.
  split; [symmetry; apply reverse_Permutation|].
  vm_compute. intros [=].
Qed.

End TreeClaims.

(** ** Queries *)

Module QueryClaims.

(** Closed stand-ins for what the development leaves open, used by the
    examples: a host that parses nothing, a search that finds the
    descriptions the query is a prefix of, a highlighter that marks the
    description. *)
Definition sampleHost : Js.Host := Js.mkHost (λ _, Js.NaN) (λ _, "").

Definition prefixSearch {K} (index : list (K * string)) (query : string) : list K :=
  fst <$> filter (λ d, String.prefix query (snd d) = true) index.

Definition sampleFlexSearch (index : list (string * string)) (query : string)
    (limit : option Z) : RawNode :=
  RArray (RString <$> prefixSearch index query).

Definition sampleMiniSearch (index : MiniSearchRev.MiniSearchIndex) (query : string)
  : list MiniSearchRev.SearchResult :=
  (λ d, MiniSearchRev.mkSearchResult (fst d) (Some [query]) (Some (snd d)))
    <$> filter (λ d, String.prefix query (snd d) = true) index.

Definition sampleHighlight (description term : string) : option string :=
  Some ("<span>" +:+ description +:+ "</span>").




(** A store holding the example of the specification, for the FlexSearch
    revision keyed by code. *)
Definition scenarioStore : World CodeKeyed.RawRecord CodeKeyed.CustomsRecord
    (Flex.CachedData (Row := CodeKeyed.CustomsRecord) (Key := string))
    (Flex.FlexIndex (Key := string)) :=
  mkWorld true [] TreeClaims.scenario [] 1000 [] [] None None 0.



End QueryClaims.

(** * Further properties of the data service *)

Module OrderExtras.
Import CodeKeyed CodeKeyedFacts.

(** X1. [compareRecords] is a consistent comparator: swapping the arguments
    negates the result, the result is zero exactly when code and description
    agree, and "not after" is transitive. *)
Theorem compareRecords_consistent (a b c : CustomsRecord) :
  compareRecords a b = - compareRecords b a ∧
  (compareRecords a b = 0 ↔ code a = code b ∧ description a = description b) ∧
  (compareRecords a b ≤ 0 → compareRecords b c ≤ 0 → compareRecords a c ≤ 0).
Proof.
  split; [|split].
  - unfold compareRecords, Js.str_lt.
    rewrite (String.compare_antisym (code b) (code a)).
    rewrite (String.compare_antisym (description b) (description a)).
    destruct (String.compare (code a) (code b)); simpl; try done.
    destruct (String.compare (description a) (description b)); simpl; done.
  - unfold compareRecords, Js.str_lt.
    rewrite (String.compare_antisym (code b) (code a)).
    rewrite (String.compare_antisym (description b) (description a)).
    destruct (String.compare (code a) (code b)) eqn:Ec; simpl.
    + apply str_compare_eq in Ec.
      destruct (String.compare (description a) (description b)) eqn:Ed; simpl.
      * apply str_compare_eq in Ed. by split.
      * split; [done|]. intros [_ Hd]. apply str_compare_eq in Hd. congruence.
      * split; [done|]. intros [_ Hd]. apply str_compare_eq in Hd. congruence.
    + split; [done|]. intros [Hc _]. apply str_compare_eq in Hc. congruence.
    + split; [done|]. intros [Hc _]. apply str_compare_eq in Hc. congruence.
  - apply compareRecords_trans.
Qed.

(** X2. [sortChildren] of the revision keyed by [id] is a consistent
    comparator as well, and it separates any two rows of different ids: the
    result is zero exactly when code, description and id agree. *)
Theorem sortChildren_consistent (a b c : ParentIdRev.CustomsRecord) :
  Z.sgn (ParentIdRev.sortChildren a b) = - Z.sgn (ParentIdRev.sortChildren b a) ∧
  (ParentIdRev.sortChildren a b = 0 ↔
   ParentIdRev.code a = ParentIdRev.code b ∧
   ParentIdRev.description a = ParentIdRev.description b ∧
   ParentIdRev.id a = ParentIdRev.id b) ∧
  (ParentIdRev.sortChildren a b ≤ 0 → ParentIdRev.sortChildren b c ≤ 0 →
   ParentIdRev.sortChildren a c ≤ 0).
Proof.
  split; [|split].
  - unfold ParentIdRev.sortChildren, Js.str_lt.
    rewrite (String.compare_antisym (ParentIdRev.code b) (ParentIdRev.code a)).
    rewrite (String.compare_antisym (ParentIdRev.description b) (ParentIdRev.description a)).
    destruct (String.compare (ParentIdRev.code a) (ParentIdRev.code b)); simpl; try done.
    destruct (String.compare (ParentIdRev.description a) (ParentIdRev.description b));
      simpl; try done.
    lia.
  - unfold ParentIdRev.sortChildren, Js.str_lt.
    rewrite (String.compare_antisym (ParentIdRev.code b) (ParentIdRev.code a)).
    rewrite (String.compare_antisym (ParentIdRev.description b) (ParentIdRev.description a)).
    destruct (String.compare (ParentIdRev.code a) (ParentIdRev.code b)) eqn:Ec; simpl.
    + apply str_compare_eq in Ec.
      destruct (String.compare (ParentIdRev.description a) (ParentIdRev.description b))
        eqn:Ed; simpl.
      * apply str_compare_eq in Ed. split; [intros; repeat split; [done|done|lia]|].
        intros (_ & _ & ->). lia.
      * split; [done|]. intros (_ & Hd & _). apply str_compare_eq in Hd. congruence.
      * split; [done|]. intros (_ & Hd & _). apply str_compare_eq in Hd. congruence.
    + split; [done|]. intros [Hc _]. apply str_compare_eq in Hc. congruence.
    + split; [done|]. intros [Hc _]. apply str_compare_eq in Hc. congruence.
  - apply ParentIdFacts.sortChildren_trans.
Qed.

End OrderExtras.

Module TreeExtras.

Definition codeBefore (a b : CodeKeyed.CustomsRecord) : Prop :=
  String.compare (CodeKeyed.code a) (CodeKeyed.code b) = Lt.

(** X3. For a list with pairwise different codes, the roots
    [buildTreeFromList] returns are the rows without a parent code in the
    list, and the roots and the [subRows] of every node come in strictly
    increasing order of their codes. *)
Theorem buildTreeFromList_sorted (rows : list CodeKeyed.CustomsFlatRow) :
  NoDup (CodeKeyed.code <$> rows) →
  ∃ fuel forest,
    (∀ n, (fuel ≤ n)%nat → CodeKeyed.treeOf n rows = Some forest) ∧
    row <$> forest ≡ₚ
      filter (λ r, CodeKeyed.findParentCode (CodeKeyed.code r)
                     (CodeKeyed.presentCodes rows) = None) rows ∧
    StronglySorted codeBefore (row <$> forest) ∧
    ∀ t, t ∈ flat_map nodes forest → StronglySorted codeBefore (row <$> subRows t).
Proof.
  intros Hnd.
  set (parentOf := λ r : CodeKeyed.CustomsRecord,
    CodeKeyed.findParentCode (CodeKeyed.code r) (CodeKeyed.presentCodes rows)).
  set (bound := max_list (String.length ∘ CodeKeyed.code <$> rows)).
  destruct (buildGraph_forest CodeKeyed.code parentOf CodeKeyed.compareRecords
              rows Hnd String.length)
    with (bound := bound) as (forest & Hread & Hroots & Hnodes & _).
  { intros r p Hr. unfold parentOf.
    rewrite CodeKeyedFacts.resolvedParent_findParentCode.
    apply CodeKeyedFacts.findParentCode_shorter. }
  { intros r Hr. apply max_list_elem_of_le.
    apply list_elem_of_fmap. by exists r. }
  assert (∀ l : list CodeKeyed.CustomsRecord, l ⊆ rows → NoDup l →
    StronglySorted codeBefore (Js.sort CodeKeyed.compareRecords l)) as Hsorted.
  { intros l Hl Hndl.
    apply (StronglySorted_strict (notAfter CodeKeyed.compareRecords) codeBefore
             CodeKeyed.code).
    - intros a b Hab. apply CodeKeyedFacts.compareRecords_le in Hab as [?|[? _]]; eauto.
    - rewrite sort_Permutation.
      apply (NoDup_fmap_2_strong CodeKeyed.code); [|done].
      intros a b Ha Hb. apply (key_inj_rows CodeKeyed.code rows Hnd); by apply Hl.
    - apply Sorted_StronglySorted; [apply CodeKeyedFacts.compareRecords_trans|].
      apply sort_Sorted, CodeKeyedFacts.compareRecords_total. }
  assert (NoDup rows) as Hndr by (by apply NoDup_fmap_1 in Hnd).
  exists (S bound), forest. split; [|split; [|split]].
  - intros n Hn. apply Hread. lia.
  - rewrite Hroots, sort_Permutation. unfold rootRows.
    apply reflexive_eq, list_filter_iff. intros r. unfold parentOf.
    by rewrite CodeKeyedFacts.resolvedParent_findParentCode.
  - rewrite Hroots. apply Hsorted; [|by apply NoDup_filter].
    intros r. unfold rootRows. rewrite list_elem_of_filter. tauto.
  - intros t Ht. destruct (Hnodes t Ht) as [_ ->].
    apply Hsorted; [|by apply NoDup_filter].
    intros r. unfold childrenOf. rewrite list_elem_of_filter. tauto.
Qed.

Lemma buildTreeFromList_sorted_witness :
  NoDup (CodeKeyed.code <$> TreeClaims.scenario) ∧
  ∃ fuel forest,
    (∀ n, (fuel ≤ n)%nat → CodeKeyed.treeOf n TreeClaims.scenario = Some forest) ∧
    row <$> forest ≡ₚ
      filter (λ r, CodeKeyed.findParentCode (CodeKeyed.code r)
                     (CodeKeyed.presentCodes TreeClaims.scenario) = None)
        TreeClaims.scenario ∧
    StronglySorted codeBefore (row <$> forest) ∧
    ∀ t, t ∈ flat_map nodes forest → StronglySorted codeBefore (row <$> subRows t).
Proof.
  assert (NoDup (CodeKeyed.code <$> TreeClaims.scenario)) as Hnd
    by (apply (bool_decide_unpack (NoDup (CodeKeyed.code <$> TreeClaims.scenario)));
        vm_compute; exact I).
  split; [exact Hnd|].
  exact (buildTreeFromList_sorted TreeClaims.scenario Hnd).
Defined.

Definition idRow (i : Z) (parent : option Z) (c d : string) : ParentIdRev.CustomsRecord :=
  ParentIdRev.mkCustomsRecord i parent c d Js.JUndefined Js.JUndefined Js.JUndefined
    Js.JUndefined Js.JUndefined Js.JUndefined (Js.JString "") Js.JNull Js.JNull
    Js.JNull Js.JNull None None.

(** The example of the specification with ids and parent links. *)
Definition idScenario : list ParentIdRev.CustomsFlatRow :=
  [idRow 3 (Some 1) "0102" "Gomar"; idRow 4 None "02" "Mish";
   idRow 2 (Some 1) "0101" "Kuaj"; idRow 1 None "01" "Kafshe"].

(** Whether [row.parentId] is [null] or names no row of the list. *)
Definition parentMissing (rows : list ParentIdRev.CustomsFlatRow)
    (r : ParentIdRev.CustomsRecord) : Prop :=
  match ParentIdRev.parentId r with
  | Some p => p ∉ ParentIdRev.id <$> rows
  | None => True
  end.

Local Instance parentMissing_dec rows r : Decision (parentMissing rows r).
Proof. unfold parentMissing. destruct (ParentIdRev.parentId r); apply _. Defined.

(** X4. The revision with [parentId] links: for a list with pairwise
    different ids whose parent links are acyclic (some rank decreases from a
    row to the parent it names in the list), the forest is read in full, its
    roots are the rows whose [parentId] is null or names no row of the list,
    the [subRows] of a node are exactly the rows whose [parentId] is the id of
    the node, and flattening gives every id once. *)
Theorem buildTreeFromList_parent_links
    (rows : list ParentIdRev.CustomsFlatRow) (rank : Z → nat) :
  NoDup (ParentIdRev.id <$> rows) →
  (∀ r p, r ∈ rows → ParentIdRev.parentId r = Some p →
          p ∈ ParentIdRev.id <$> rows → (rank p < rank (ParentIdRev.id r))%nat) →
  ∃ fuel forest,
    (∀ n, (fuel ≤ n)%nat → ParentIdRev.treeOf n rows = Some forest) ∧
    row <$> forest ≡ₚ filter (parentMissing rows) rows ∧
    (∀ t, t ∈ flat_map nodes forest →
       row t ∈ rows ∧
       row <$> subRows t ≡ₚ
         filter (λ r, ParentIdRev.parentId r = Some (ParentIdRev.id (row t))) rows) ∧
    flat_map (flatten ParentIdRev.id) forest ≡ₚ ParentIdRev.id <$> rows.
Proof.
  intros Hnd Hacyclic.
  set (bound := max_list (rank ∘ ParentIdRev.id <$> rows)).
  assert (∀ r p, resolvedParent ParentIdRev.id ParentIdRev.parentId rows r = Some p ↔
    ParentIdRev.parentId r = Some p ∧ p ∈ ParentIdRev.id <$> rows) as Hres.
  { intros r p. unfold resolvedParent.
    destruct (ParentIdRev.parentId r) as [q|]; [|naive_solver].
    case_decide; naive_solver. }
  destruct (buildGraph_forest ParentIdRev.id ParentIdRev.parentId
              ParentIdRev.sortChildren rows Hnd rank)
    with (bound := bound) as (forest & Hread & Hroots & Hnodes & Hflat).
  { intros r p Hr [Hp Hin]%Hres. by apply Hacyclic. }
  { intros r Hr. apply max_list_elem_of_le.
    apply list_elem_of_fmap. by exists r. }
  exists (S bound), forest. split; [|split; [|split]].
  - intros n Hn. apply Hread. lia.
  - rewrite Hroots, sort_Permutation. unfold rootRows.
    apply reflexive_eq, list_filter_iff. intros r.
    unfold parentMissing, resolvedParent.
    destruct (ParentIdRev.parentId r) as [q|]; [|done].
    case_decide; naive_solver.
  - intros t Ht. destruct (Hnodes t Ht) as [Hrow Hsub]. split; [done|].
    rewrite Hsub, sort_Permutation. unfold childrenOf.
    apply reflexive_eq, list_filter_iff. intros r. rewrite Hres.
    split; [tauto|]. intros Hp. split; [done|]. by apply list_elem_of_fmap_2.
  - done.
Qed.

Lemma buildTreeFromList_parent_links_witness :
  ∃ fuel forest,
    (∀ n, (fuel ≤ n)%nat → ParentIdRev.treeOf n idScenario = Some forest) ∧
    row <$> forest ≡ₚ filter (parentMissing idScenario) idScenario ∧
    (∀ t, t ∈ flat_map nodes forest →
       row t ∈ idScenario ∧
       row <$> subRows t ≡ₚ
         filter (λ r, ParentIdRev.parentId r = Some (ParentIdRev.id (row t)))
           idScenario) ∧
    flat_map (flatten ParentIdRev.id) forest ≡ₚ ParentIdRev.id <$> idScenario.
Proof.
  apply (buildTreeFromList_parent_links idScenario Z.to_nat).
  - apply (bool_decide_unpack (NoDup (ParentIdRev.id <$> idScenario))).
    vm_compute. exact I.
  - intros r p Hr Hp _. unfold idScenario in Hr.
    repeat (apply elem_of_cons in Hr as [->|Hr]); try (by apply elem_of_nil in Hr);
      cbn in Hp; try done; injection Hp as <-; cbn; lia.
Defined.

End TreeExtras.

Module SearchExtras.

Section Hits.
Context {Key : Type} `{EqDecision Key}.
Context (keyOfNumber : Z → option Key) (keyOfString : string → option Key).

(** X5. [extractFlexDocHits] returns every id the walk over the raw result
    found, once, in the order of first appearance; it invents no hit, and an
    id keeps a highlight whenever one of its hits carried one. *)
Theorem extractFlexDocHits_dedup (raw : RawNode) :
  let found := Flex.visit keyOfNumber keyOfString raw in
  let hits := Flex.extractFlexDocHits keyOfNumber keyOfString raw in
  NoDup (fst <$> hits) ∧
  (∀ k, k ∈ fst <$> hits ↔ k ∈ fst <$> found) ∧
  (∀ h, h ∈ hits → h ∈ found) ∧
  (∀ k hl, (k, hl) ∈ found → Flex.truthy hl = true →
           ∃ hl', (k, hl') ∈ hits ∧ Flex.truthy hl' = true).
Proof.
  cbn zeta. unfold Flex.extractFlexDocHits.
  destruct (dedup_fold_spec [] (Flex.visit keyOfNumber keyOfString raw))
    as (Hnd & Hids & Hin & Hhl); [constructor|].
  split; [done|]. split; [|split].
  - intros k. rewrite Hids. csimpl. rewrite elem_of_nil. tauto.
  - intros h Hh. destruct (Hin h Hh) as [Hnil|?]; [by apply elem_of_nil in Hnil|done].
  - intros k hl Hfound Ht. apply Hhl. exists hl. split; [by right|done].
Qed.

End Hits.

Section Results.
Context {Raw Row Key : Type} `{Countable Key}.
Context (key : Row → Key) (rootOf : Row → option Key).
Context (highlightedDescriptionOf : Row → option string).
Context (withHighlightedDescription : option string → Row → Row).

(** X6. [buildSearchResults] changes nothing in the world. Without a
    cache it returns nothing. With a cache it returns the rows of the matched
    roots, taken root by root in the order of [rootOrder], up to the first
    [itemLimit] of them, and up to the first one when [itemLimit] is zero or
    negative: the limit is tested after a row is pushed, so one row comes back
    whenever a root matches, however small the limit. *)
Theorem buildSearchResults_limit
    (w : World Raw Row (Flex.CachedData (Row := Row) (Key := Key))
           (Flex.FlexIndex (Key := Key)))
    (ids : gset Key) (highlightById : gmap Key string) (itemLimit : Z) :
  ∃ rows,
    Flex.buildSearchResults key rootOf highlightedDescriptionOf
      withHighlightedDescription ids highlightById itemLimit w = (Eff.Normal rows, w) ∧
    Z.of_nat (length rows) ≤ Z.max itemLimit 1 ∧
    (allData w = None → rows = []) ∧
    (∀ c, allData w = Some c →
       rows
       = (Flex.resultRow key highlightedDescriptionOf withHighlightedDescription
            highlightById
          <$> take (Z.to_nat (Z.max itemLimit 1))
                (matchedRows c (Flex.matchedRootsOf key rootOf c ids) (Flex.rootOrder c))) ∧
       length rows
       = Nat.min (Z.to_nat (Z.max itemLimit 1))
           (length (matchedRows c (Flex.matchedRootsOf key rootOf c ids)
                      (Flex.rootOrder c))) ∧
       (itemLimit ≤ 0 →
        matchedRows c (Flex.matchedRootsOf key rootOf c ids) (Flex.rootOrder c) ≠ [] →
        length rows = 1%nat)).
Proof.
  unfold Flex.buildSearchResults. run.
  destruct (allData w) as [c|] eqn:Hc.
  2:{ exists []. split; [done|]. split; [cbn; lia|]. split; [done|]. done. }
  set (roots := Flex.matchedRootsOf key rootOf c ids).
  set (matched := matchedRows c roots (Flex.rootOrder c)).
  set (limit := Z.to_nat (Z.max itemLimit 1)).
  assert (∀ rows,
            rows = (Flex.resultRow key highlightedDescriptionOf withHighlightedDescription
                      highlightById <$> take limit matched) →
            Z.of_nat (length rows) ≤ Z.max itemLimit 1 ∧
            (Some c = None → rows = []) ∧
            (∀ c', Some c = Some c' →
               rows
               = (Flex.resultRow key highlightedDescriptionOf withHighlightedDescription
                    highlightById
                  <$> take (Z.to_nat (Z.max itemLimit 1))
                        (matchedRows c' (Flex.matchedRootsOf key rootOf c' ids)
                           (Flex.rootOrder c'))) ∧
               length rows
               = Nat.min (Z.to_nat (Z.max itemLimit 1))
                   (length (matchedRows c' (Flex.matchedRootsOf key rootOf c' ids)
                              (Flex.rootOrder c'))) ∧
               (itemLimit ≤ 0 →
                matchedRows c' (Flex.matchedRootsOf key rootOf c' ids) (Flex.rootOrder c') ≠ [] →
                length rows = 1%nat))) as Hexact.
  { intros rows ->. rewrite length_fmap, length_take. split; [unfold limit; lia|].
    split; [done|]. intros c' [= <-]. fold roots matched limit.
    split; [done|]. split; [done|]. intros Hle Hne.
    assert (0 < length matched)%nat.
    { destruct (decide (length matched = 0%nat)) as [E%nil_length_inv|]; [done|lia]. }
    unfold limit. lia. }
  case_decide as Hsize.
  - exists []. split; [done|]. apply Hexact.
    apply size_empty_inv in Hsize. unfold matched, matchedRows.
    rewrite (filter_none (λ root, root ∈ roots)); [cbn [flat_map]; by rewrite take_nil|].
    intros root _ Hroot. by apply Hsize in Hroot.
  - eexists. split; [done|]. apply Hexact.
    rewrite (emitRoots_exact key highlightedDescriptionOf withHighlightedDescription
               c roots highlightById itemLimit (Flex.rootOrder c) [])
      by (cbn; lia).
    cbn [app length]. by rewrite Nat.sub_0_r.
Qed.

End Results.

End SearchExtras.

Module RootExtras.
Import CodeKeyed CodeKeyedFacts FlexCodeRev FlexCodeFacts.

(** X7. [findRoot] of the code-keyed FlexSearch revision: with a memo table
    that holds roots only, the call returns the shortest non-empty prefix of
    the code among the present codes (the code itself where no proper prefix
    is present), stores it under the code and keeps the table sound; a code
    not yet in the table is resolved by a walk that ends within
    [code.length] steps. *)
Theorem findRoot_shortest_prefix (codeSet : gset string)
    (rootCache : gmap string string) (c : string) :
  cacheSound codeSet rootCache →
  ∃ r rootCache',
    findRoot codeSet rootCache c = (r, rootCache') ∧
    shortestPrefix codeSet r c ∧
    findParentCode r codeSet = None ∧
    cacheSound codeSet rootCache' ∧
    rootCache' !! c = Some r ∧
    (rootCache !! c = None →
     findRootWalk (String.length c) codeSet (findParentCode c codeSet) c = Some r).
Proof.
  intros Hsound.
  destruct (findRoot_spec codeSet rootCache c Hsound)
    as (r & Hfst & Hr & Hsound' & Hlookup & Hwalk).
  exists r, (snd (findRoot codeSet rootCache c)).
  split; [|split; [done|split; [by apply (shortestPrefix_root _ _ c)|done]]].
  rewrite <- Hfst. by destruct (findRoot codeSet rootCache c).
Qed.

Lemma findRoot_shortest_prefix_witness :
  ∃ r rootCache',
    findRoot {["01"; "0101"; "02"]} ∅ "010110" = (r, rootCache') ∧
    shortestPrefix {["01"; "0101"; "02"]} r "010110" ∧
    findParentCode r {["01"; "0101"; "02"]} = None ∧
    cacheSound {["01"; "0101"; "02"]} rootCache' ∧
    rootCache' !! "010110" = Some r ∧
    ((∅ : gmap string string) !! "010110" = None →
     findRootWalk (String.length "010110") {["01"; "0101"; "02"]}
       (findParentCode "010110" {["01"; "0101"; "02"]}) "010110" = Some r).
Proof.
  apply (findRoot_shortest_prefix {["01"; "0101"; "02"]} ∅ "010110").
  intros c r Hc. by rewrite lookup_empty in Hc.
Defined.

(** X8. The cache [buildCachedData] returns is the table in the order of
    the codes, every row carrying as [rootCode] the shortest non-empty prefix
    of its code among the codes of the table; that root is itself a code of
    the table and has no parent code. *)
Theorem buildCachedData_roots (rows : list CustomsRecord) :
  let cd := buildCachedData rows in
  Forall2 (rooted (presentCodes rows)) (Flex.cache cd)
    (Js.sort (byCodeOrder code) rows) ∧
  Sorted (λ a b, str_le (code a) (code b)) (Flex.cache cd) ∧
  ∀ r, r ∈ Flex.cache cd →
       ∃ root, rootCode r = Some root ∧ root ∈ presentCodes rows ∧
               String.prefix root (code r) = true ∧
               findParentCode root (presentCodes rows) = None.
Proof.
  cbn zeta. destruct (buildState_sound rows) as (_ & Hrows & _).
  unfold buildCachedData. cbn [Flex.cache].
  split; [done|]. split.
  - apply (Sorted_Forall2 (notAfter (byCodeOrder code)) _ _ _ _ ) with (3 := sort_Sorted _ (byCodeOrder_total code) rows) (2 := Hrows).
    intros a' b' a b (ra & -> & _) (rb & -> & _) Hab. by apply byCodeOrder_le in Hab.
  - intros r Hr.
    destruct (Forall2_elem_of_l _ _ _ _ Hrows Hr) as (r0 & Hr0 & root & -> & Hroot).
    exists root. split; [done|]. split; [|split].
    + apply (shortestPrefix_present _ _ (code r0)); [|done].
      apply elem_of_presentCodes, list_elem_of_fmap_2.
      by apply (proj1 (sort_elem_of _ _ _)) in Hr0.
    + apply Hroot.
    + by apply (shortestPrefix_root _ _ (code r0)).
Qed.

(** X9. The buckets of [buildCachedData]: [rootOrder] lists every root of a
    cached row once, the bucket of a root holds exactly the cached rows of
    that root in the order of the cache, no other key has a bucket, and the
    buckets together hold every cached row once. *)
Theorem buildCachedData_buckets (rows : list CustomsRecord) :
  let cd := buildCachedData rows in
  NoDup (Flex.rootOrder cd) ∧
  (∀ root, root ∈ Flex.rootOrder cd ↔
           ∃ r, r ∈ Flex.cache cd ∧ rootCode r = Some root) ∧
  (∀ root, Flex.byRoot cd !! root
           = if decide (root ∈ Flex.rootOrder cd)
             then Some (filter (λ r, rootCode r = Some root) (Flex.cache cd))
             else None) ∧
  flat_map (λ root, default [] (Flex.byRoot cd !! root)) (Flex.rootOrder cd)
    ≡ₚ Flex.cache cd.
Proof.
  cbn zeta. destruct (buildState_sound rows) as (_ & Hrows & Hgroups).
  unfold buildCachedData. cbn [Flex.cache Flex.byRoot Flex.rootOrder].
  pose proof Hgroups as (Hnd & Hin & Hlk).
  split; [done|]. split; [done|]. split; [done|].
  apply (grouped_partition rootCode); [done|].
  intros r Hr.
  destruct (Forall2_elem_of_l _ _ _ _ Hrows Hr) as (r0 & _ & root & -> & _).
  by exists root.
Qed.

(** X10. The map by code of [buildCachedData]: a code of the table leads to
    the last cached row of that code, any other code to nothing; where the
    codes of the table are pairwise different, every cached row is found under
    its own code. *)
Theorem buildCachedData_lookup (rows : list CustomsRecord) :
  let cd := buildCachedData rows in
  (∀ c, Flex.byKey cd !! c = last (filter (λ r, code r = c) (Flex.cache cd))) ∧
  (∀ c, is_Some (Flex.byKey cd !! c) ↔ c ∈ presentCodes rows) ∧
  (NoDup (code <$> rows) →
   ∀ r, r ∈ Flex.cache cd → Flex.byKey cd !! code r = Some r).
Proof.
  cbn zeta. destruct (buildState_sound rows) as (_ & Hrows & _).
  unfold buildCachedData. cbn [Flex.cache Flex.byKey].
  assert (code <$> st_cloned (buildState rows)
          = code <$> Js.sort (byCodeOrder code) rows) as Hcodes.
  { clear -Hrows. induction Hrows as [|r' r l' l (root & -> & _) _ IH]; csimpl; [done|].
    by rewrite IH. }
  assert (∀ c, foldl (λ (m : gmap string CustomsFlatRow) row, <[code row := row]> m) ∅
                 (st_cloned (buildState rows)) !! c
             = last (filter (λ r, code r = c) (st_cloned (buildState rows)))) as Hlk.
  { intros c. rewrite (foldl_insert_lookup code). by destruct (last _). }
  split; [done|]. split.
  - intros c. rewrite Hlk, elem_of_presentCodes.
    assert (c ∈ code <$> rows ↔ c ∈ code <$> st_cloned (buildState rows)) as ->
      by (by rewrite Hcodes, sort_Permutation).
    split.
    + intros [r Hr]. apply last_Some_elem_of, list_elem_of_filter in Hr as [<- Hr].
      by apply list_elem_of_fmap_2.
    + intros (r & -> & Hr)%list_elem_of_fmap.
      destruct (last _) as [x|] eqn:Hlast; [by eexists|].
      apply last_None in Hlast.
      assert (r ∈ filter (λ r0, code r0 = code r) (st_cloned (buildState rows))) as Hin
        by (by apply list_elem_of_filter).
      rewrite Hlast in Hin. by apply elem_of_nil in Hin.
  - intros Hnd r Hr. rewrite Hlk. apply last_filter_unique; [|done].
    rewrite Hcodes, sort_Permutation. done.
Qed.

End RootExtras.

Module ParentRootExtras.
Import ParentIdRev ParentIdRootFacts.

(** The rows of a table in which two rows name each other as parent. *)
Definition loopScenario : list CustomsFlatRow :=
  [TreeExtras.idRow 1 (Some 2) "01" "Kafshe"; TreeExtras.idRow 2 (Some 1) "0101" "Kuaj";
   TreeExtras.idRow 3 None "02" "Mish"].

Lemma loopScenario_chain (n : nat) :
  parentChain (byIdOf loopScenario) n (TreeExtras.idRow 1 (Some 2) "01" "Kafshe") ∧
  parentChain (byIdOf loopScenario) n (TreeExtras.idRow 2 (Some 1) "0101" "Kuaj").
Proof.
  induction n as [|n [IH1 IH2]]; [done|]. split.
  - split; [done|]. exists (TreeExtras.idRow 2 (Some 1) "0101" "Kuaj"). by split.
  - split; [done|]. exists (TreeExtras.idRow 1 (Some 2) "01" "Kafshe"). by split.
Defined.

(** X11. [findRootId] of the revision with parent links, on a table of
    pairwise different ids whose parent links lead downwards in some rank:
    with a sound memo table and a stack of two frames more than the rank of
    the row, the call returns; the root is the id of the row where the row
    names no parent ([parentId] null or 0), the named id where no row has it,
    and the root of the parent otherwise; the root is memoized under the id
    of the row. *)
Theorem findRootId_root (rows : list CustomsFlatRow) (rank : Z → nat) (fuel : nat)
    (rootCache : gmap Z Z) (row : CustomsFlatRow) :
  NoDup (id <$> rows) →
  (∀ r p, r ∈ rows → parentId r = Some p → p ∈ id <$> rows →
          (rank p < rank (id r))%nat) →
  cacheSound (byIdOf rows) rootCache →
  row ∈ rows → (rank (id row) + 2 ≤ fuel)%nat →
  ∃ root rootCache',
    findRootId fuel (byIdOf rows) rootCache (Some row) = Some (Some root, rootCache') ∧
    rootOfRow (byIdOf rows) row root ∧
    cacheSound (byIdOf rows) rootCache' ∧
    rootCache' !! id row = Some root.
Proof.
  intros Hnd Hrank Hsound Hrow Hfuel.
  pose proof (byIdOf_elem_of rows row Hnd Hrow) as Hlk.
  destruct (findRootId_returns (byIdOf rows) rank fuel rootCache row
              (byIdOf_keyed rows) (byIdOf_links rows rank Hrank) Hlk Hfuel)
    as [[found rootCache'] Hfind].
  destruct (findRootId_sound _ _ _ _ _ _ (byIdOf_keyed rows) Hsound Hlk Hfind)
    as (root & -> & Hroot & Hsound' & Hmemo).
  by exists root, rootCache'.
Qed.

Lemma findRootId_root_witness :
  ∃ root rootCache',
    findRootId 6 (byIdOf TreeExtras.idScenario) ∅
      (Some (TreeExtras.idRow 3 (Some 1) "0102" "Gomar")) = Some (Some root, rootCache') ∧
    rootOfRow (byIdOf TreeExtras.idScenario) (TreeExtras.idRow 3 (Some 1) "0102" "Gomar") root ∧
    cacheSound (byIdOf TreeExtras.idScenario) rootCache' ∧
    rootCache' !! id (TreeExtras.idRow 3 (Some 1) "0102" "Gomar") = Some root.
Proof.
  apply (findRootId_root TreeExtras.idScenario Z.to_nat 6 ∅).
  - apply (bool_decide_unpack (NoDup (id <$> TreeExtras.idScenario))).
    vm_compute. exact I.
  - intros r p Hr Hp _. unfold TreeExtras.idScenario in Hr.
    repeat (apply elem_of_cons in Hr as [->|Hr]); try (by apply elem_of_nil in Hr);
      cbn in Hp; try done; injection Hp as <-; cbn; lia.
  - intros i r Hi. by rewrite lookup_empty in Hi.
  - left.
  - cbn. lia.
Defined.

(** X12. A row on an endless chain of parent links (a cycle) makes
    [buildCachedData] of the revision with parent links exhaust the call
    stack, whatever the size of the stack: no cache is built. *)
Theorem buildCachedData_overflow (rows : list CustomsFlatRow) (row : CustomsFlatRow)
    (fuel : nat) :
  NoDup (id <$> rows) → row ∈ rows →
  (∀ n, parentChain (byIdOf rows) n row) →
  buildCachedData fuel rows = None.
Proof.
  intros Hnd Hrow Hchain. unfold buildCachedData, buildState.
  rewrite (foldl_assignRootId_overflow (byIdOf rows) fuel rows _ [] row); try done.
  - apply byIdOf_keyed.
  - intros r Hr. by apply byIdOf_elem_of.
  - apply stateSound_empty.
Qed.

Lemma buildCachedData_overflow_witness :
  buildCachedData 10000 loopScenario = None.
Proof.
  apply (buildCachedData_overflow loopScenario (TreeExtras.idRow 1 (Some 2) "01" "Kafshe")).
  - apply (bool_decide_unpack (NoDup (id <$> loopScenario))). vm_compute. exact I.
  - left.
  - intros n. apply loopScenario_chain.
Defined.

(** X13. On a table of pairwise different ids whose parent links lead
    downwards in some rank, [buildCachedData] of the revision with parent
    links returns with a stack of two frames more than the largest rank: the
    cache is the table in its order with [rootId] set to the root of each row,
    [rootOrder] lists every root once, the bucket of a root holds exactly the
    cached rows of that root in the order of the cache, and every cached row
    is found under its id. *)
Theorem buildCachedData_root_ids (rows : list CustomsFlatRow) (rank : Z → nat)
    (fuel : nat) :
  NoDup (id <$> rows) →
  (∀ r p, r ∈ rows → parentId r = Some p → p ∈ id <$> rows →
          (rank p < rank (id r))%nat) →
  (∀ r, r ∈ rows → (rank (id r) + 2 ≤ fuel)%nat) →
  ∃ cd,
    buildCachedData fuel rows = Some cd ∧
    Forall2 (rooted (byIdOf rows)) (Flex.cache cd) rows ∧
    NoDup (Flex.rootOrder cd) ∧
    (∀ root, root ∈ Flex.rootOrder cd ↔
             ∃ r, r ∈ Flex.cache cd ∧ rootId r = Some root) ∧
    (∀ root, Flex.byRoot cd !! root
             = if decide (root ∈ Flex.rootOrder cd)
               then Some (filter (λ r, rootId r = Some root) (Flex.cache cd))
               else None) ∧
    (∀ r, r ∈ Flex.cache cd → Flex.byKey cd !! id r = Some r).
Proof.
  intros Hnd Hrank Hfuel. unfold buildCachedData, buildState.
  destruct (foldl_assignRootId_returns (byIdOf rows) rank fuel rows
              (mkBuildState ∅ ∅ [] []) [] (byIdOf_keyed rows)
              (byIdOf_links rows rank Hrank)) as [st Hst].
  { intros r Hr. split; [by apply byIdOf_elem_of|by apply Hfuel]. }
  { apply stateSound_empty. }
  rewrite Hst. simpl.
  destruct (foldl_assignRootId_sound (byIdOf rows) fuel rows (mkBuildState ∅ ∅ [] []) [] st
              (byIdOf_keyed rows))
    as (_ & Hrows & Hnd' & Hin & Hlk); [|apply stateSound_empty|done|].
  { intros r Hr. by apply byIdOf_elem_of. }
  simpl in Hrows. eexists. split; [done|]. cbn.
  split; [done|]. split; [done|]. split; [done|]. split; [done|].
  intros r Hr. apply byIdOf_elem_of; [|done]. by rewrite (rooted_ids _ _ _ Hrows).
Qed.

Lemma buildCachedData_root_ids_witness :
  ∃ cd,
    buildCachedData 6 TreeExtras.idScenario = Some cd ∧
    Forall2 (rooted (byIdOf TreeExtras.idScenario)) (Flex.cache cd) TreeExtras.idScenario ∧
    NoDup (Flex.rootOrder cd) ∧
    (∀ root, root ∈ Flex.rootOrder cd ↔
             ∃ r, r ∈ Flex.cache cd ∧ rootId r = Some root) ∧
    (∀ root, Flex.byRoot cd !! root
             = if decide (root ∈ Flex.rootOrder cd)
               then Some (filter (λ r, rootId r = Some root) (Flex.cache cd))
               else None) ∧
    (∀ r, r ∈ Flex.cache cd → Flex.byKey cd !! id r = Some r).
Proof.
  apply (buildCachedData_root_ids TreeExtras.idScenario Z.to_nat 6).
  - apply (bool_decide_unpack (NoDup (id <$> TreeExtras.idScenario))).
    vm_compute. exact I.
  - intros r p Hr Hp _. unfold TreeExtras.idScenario in Hr.
    repeat (apply elem_of_cons in Hr as [->|Hr]); try (by apply elem_of_nil in Hr);
      cbn in Hp; try done; injection Hp as <-; cbn; lia.
  - intros r Hr. unfold TreeExtras.idScenario in Hr.
    repeat (apply elem_of_cons in Hr as [->|Hr]); try (by apply elem_of_nil in Hr);
      cbn; lia.
Defined.

End ParentRootExtras.

Module LoadExtras.

Section Load.
Context {Raw Row Key : Type} `{Countable Key}.
Context (key : Row → Key) (normalize : Raw → Row).

Notation ServiceWorld :=
  (World Raw Row (Flex.CachedData (Row := Row) (Key := Key)) (Flex.FlexIndex (Key := Key))).


(** X15. Where nothing fails, the callback does not throw, the keys of the
    normalized dataset are pairwise different and the table is empty or
    [force] is on, [initializeData] resolves to [true]: the table holds the
    normalized dataset, nothing is logged and both caches are dropped. *)
Theorem initializeData_loads (force : bool) (callback : option ProgressCallback)
    (w : ServiceWorld) :
  window w = true → faults w = [] → force = true ∨ table w = [] →
  NoDup (key <$> (normalize <$> dataset w)) → quiet callback →
  ∃ w',
    Flex.initializeData key normalize force callback w = (Eff.Normal true, w') ∧
    table w' = normalize <$> dataset w ∧
    allData w' = None ∧ descriptionIndex w' = None ∧
    console w' = console w ∧
    (is_Some callback →
     last (progress w')
     = Some (mkProgress Done (Z.of_nat (length (dataset w)))
               (Z.of_nat (length (dataset w))) MsgDone)).
Proof.
  intros Hwin Hfaults Hfresh Hnd Hquiet.
  unfold Flex.initializeData. rewrite run_bind. unfold Eff.gets. rewrite Hwin. cbn [negb].
  destruct (initializeData_body key normalize force callback w Hwin)
    as (r & w1 & Hrun & _ & _ & Hcons1 & _ & _ & Hr & Hsure).
  erewrite (try_catch_run _ _ w); [|exact Hrun].
  rewrite (Hsure Hfaults Hfresh Hnd Hquiet) in Hr |- *.
  destruct Hr as (Ht & _ & Hall & Hidx & Hlast).
  by exists w1.
Qed.

End Load.

Definition rawSample (c d : string) : CodeKeyed.RawRecord :=
  CodeKeyed.mkRawRecord (Js.JString c) (Js.JString d) (Js.JNumber (Js.Finite 10 0))
    Js.JUndefined Js.JNull (Js.JString "x") Js.JUndefined Js.JUndefined Js.JUndefined
    Js.JUndefined Js.JUndefined Js.JUndefined Js.JUndefined.

(** A browser with an empty table and a dataset of three records. *)
Definition freshStore : World CodeKeyed.RawRecord CodeKeyed.CustomsRecord
    (Flex.CachedData (Row := CodeKeyed.CustomsRecord) (Key := string))
    (Flex.FlexIndex (Key := string)) :=
  mkWorld true [rawSample "0101" "Kuaj"; rawSample "01" "Kafshe"; rawSample "02" "Mish"]
    [] [] 1000 [] [] None None 0.

(** A callback that takes every report and returns. *)
Definition listener : option ProgressCallback := Some (λ _, None).

(** A callback that throws on the report that the load is done. *)
Definition thrower : option ProgressCallback :=
  Some (λ reports, match last reports with
                   | Some (mkProgress Done _ _ _) => Some (Eff.Thrown "done")
                   | _ => None
                   end).

Lemma initializeData_loads_witness :
  ∃ w',
    FlexCodeRev.initializeData QueryClaims.sampleHost false listener freshStore
    = (Eff.Normal true, w') ∧
    table w' = CodeKeyed.normalize QueryClaims.sampleHost <$> dataset freshStore ∧
    allData w' = None ∧ descriptionIndex w' = None ∧
    console w' = console freshStore ∧
    (is_Some listener →
     last (progress w')
     = Some (mkProgress Done (Z.of_nat (length (dataset freshStore)))
               (Z.of_nat (length (dataset freshStore))) MsgDone)).
Proof.
  apply (initializeData_loads CodeKeyed.code (CodeKeyed.normalize QueryClaims.sampleHost)
           false listener freshStore).
  - reflexivity.
  - reflexivity.
  - by right.
  - apply (bool_decide_unpack (NoDup (CodeKeyed.code <$>
      (CodeKeyed.normalize QueryClaims.sampleHost <$> dataset freshStore)))).
    vm_compute. exact I.
  - intros f reports [= <-]. reflexivity.
Defined.

(** A callback that throws on every report. *)
Definition refuser : option ProgressCallback := Some (λ _, Some (Eff.Thrown "no")).

(** With a callback that throws on the [done] report the load answers
    [false] although the table is replaced and the caches are dropped. *)
Example initializeData_false_after_load :
  ∃ w',
    FlexCodeRev.initializeData QueryClaims.sampleHost false thrower freshStore
    = (Eff.Normal false, w') ∧
    table w' = CodeKeyed.normalize QueryClaims.sampleHost <$> dataset freshStore ∧
    console w' = [ErrorInitializing (Eff.Thrown "done")] ∧
    phase <$> progress w' = [LoadData; Indexing; Indexing; Done; Error].
Proof. eexists. split; [vm_compute; reflexivity|]. by repeat split. Qed.

(** With a callback that throws on every report the load rejects with what
    the callback threw on the report of the failure, the table as it was. *)
Example initializeData_rejects :
  ∃ w',
    FlexCodeRev.initializeData QueryClaims.sampleHost false refuser freshStore
    = (Eff.Throw (Eff.Thrown "no"), w') ∧
    table w' = table freshStore ∧
    console w' = [ErrorInitializing (Eff.Thrown "no")] ∧
    phase <$> progress w' = [LoadData; Error].
Proof. eexists. split; [vm_compute; reflexivity|]. by repeat split. Qed.

(** X16. [initializeData] of the MiniSearch revision, whatever the
    caller's [onProgress] does. The call ends, and it rejects only with what
    the callback throws on the report of a failure. The table is as it was
    or holds the normalized dataset with pairwise different codes, never a
    mixture. An index it had before the call is never replaced, also where
    the table is. It resolves to [true] only with the new table, and then a
    description index is present. When it resolves to [false]: nothing
    happened (no window); or the table was not empty and [force] was off (one
    [cached] report, nothing written); or there was a failure, which is
    logged and reported as [error], and then the table is as it was, or no
    index is left (building it failed after the table was replaced), or the
    callback threw on the [done] report. With a callback that never throws,
    or none, the call resolves. *)
Theorem mini_initializeData_outcome (host : Js.Host) (force : bool)
    (callback : option ProgressCallback)
    (w : World CodeKeyed.RawRecord CodeKeyed.CustomsRecord unit
           MiniSearchRev.MiniSearchIndex) :
  ∃ r w',
    MiniSearchRev.initializeData host force callback w = (r, w') ∧
    window w' = window w ∧ dataset w' = dataset w ∧
    (table w' = table w ∨
     (table w' = CodeKeyed.normalize host <$> dataset w ∧
      NoDup (CodeKeyed.code <$> table w'))) ∧
    (∀ index, descriptionIndex w = Some index → descriptionIndex w' = Some index) ∧
    match r with
    | Eff.Normal true =>
        table w' = CodeKeyed.normalize host <$> dataset w ∧
        is_Some (descriptionIndex w') ∧
        console w' = console w ∧
        (is_Some callback →
         last (progress w')
         = Some (mkProgress Done (Z.of_nat (length (dataset w)))
                   (Z.of_nat (length (dataset w))) MsgDone))
    | Eff.Normal false =>
        w' = w ∨
        (force = false ∧ table w ≠ [] ∧ table w' = table w ∧ writes w' = writes w ∧
         console w' = console w ∧
         progress w'
         = progress w ++
           match callback with
           | Some _ => [mkProgress Cached (Z.of_nat (length (table w)))
                          (Z.of_nat (length (table w)))
                          (MsgFound (Z.of_nat (length (table w))))]
           | None => []
           end) ∨
        (∃ e, console w' = console w ++ [ErrorInitializing e] ∧
              (is_Some callback →
               last (progress w') = Some (mkProgress Error 0 0 MsgFailed)) ∧
              (table w' = table w ∨ descriptionIndex w' = None ∨
               (∃ f reports,
                  callback = Some f ∧ f reports = Some e ∧
                  progress w' = reports ++ [mkProgress Error 0 0 MsgFailed] ∧
                  last reports
                  = Some (mkProgress Done (Z.of_nat (length (dataset w)))
                            (Z.of_nat (length (dataset w))) MsgDone))))
    | Eff.Throw e =>
        ∃ f e0, callback = Some f ∧ f (progress w') = Some e ∧
                last (progress w') = Some (mkProgress Error 0 0 MsgFailed) ∧
                console w' = console w ++ [ErrorInitializing e0]
    | Eff.OutOfFuel => False
    end ∧
    (quiet callback →
     ∃ b, r = Eff.Normal b ∧
          (b = false → table w' = table w ∨ descriptionIndex w' = None)).
Proof.
  unfold MiniSearchRev.initializeData, MiniSearchRev.Service.
  rewrite run_bind. unfold Eff.gets.
  destruct (window w) eqn:Hwin; cbn [negb].
  2:{ exists (Eff.Normal false), w. split; [done|]. split; [done|]. split; [done|].
      split; [by left|]. split; [done|]. split; [by left|].
      intros _. exists false. split; [done|]. intros _. by left. }
  destruct (MiniLoadFacts.mini_initializeData_body host force callback w Hwin)
    as (r & w1 & Hrun & Hwin1 & Hdata1 & Hcons1 & Hkeep & Htable & Hr & _).
  erewrite (try_catch_run _ _ w); [|exact Hrun].
  destruct r as [[|]|e|]; [| | |done].
  - destruct Hr as (Ht & Hnd & Hidx & Hlast).
    exists (Eff.Normal true), w1. split; [done|]. split; [congruence|]. split; [done|].
    split; [done|]. split; [done|]. split.
    + split; [done|]. split; [|done].
      destruct (descriptionIndex w) as [index|] eqn:Hindex.
      * rewrite (Hkeep index eq_refl). by eexists.
      * rewrite (Hidx eq_refl). by eexists.
    + intros _. exists true. done.
  - destruct Hr as (Hforce & Hne & Ht & Hw & Hidx & Hp).
    exists (Eff.Normal false), w1. split; [done|]. split; [congruence|]. split; [done|].
    split; [done|]. split; [done|]. split.
    + right. left. done.
    + intros _. exists false. split; [done|]. intros _. by left.
  - cbn beta iota.
    pose proof (failed_facts callback e w1)
      as (Hwin2 & Hdata2 & Ht2 & _ & Hidx2 & Hcons2 & Hp2).
    assert (is_Some callback →
            last (progress (failed callback e w1))
            = Some (mkProgress Error 0 0 MsgFailed)) as Hlast.
    { intros [f ->]. rewrite Hp2. by rewrite last_snoc. }
    assert (∀ index, descriptionIndex w = Some index →
                     descriptionIndex (failed callback e w1) = Some index) as Hkeep'.
    { intros index Hindex. rewrite Hidx2. by apply Hkeep. }
    destruct (catch_run callback e w1) as [Hcatch|(f' & e' & Hcb' & Hthrown' & Hcatch)];
      rewrite Hcatch.
    + exists (Eff.Normal false), (failed callback e w1). split; [done|].
      split; [congruence|]. split; [congruence|]. split; [by rewrite Ht2|].
      split; [done|]. split.
      * right. right. exists e. split; [congruence|]. split; [done|].
        destruct Hr as [Ht|[Hnone|(f & Hcb & Hthrown & Hdone)]].
        -- left. by rewrite Ht2.
        -- right. left. by rewrite Hidx2.
        -- right. right. exists f, (progress w1). split; [done|]. split; [done|].
           split; [by rewrite Hp2, Hcb|done].
      * intros Hquiet. exists false. split; [done|]. intros _.
        destruct Hr as [Ht|[Hnone|(f & Hcb & Hthrown & Hdone)]].
        -- left. by rewrite Ht2.
        -- right. by rewrite Hidx2.
        -- destruct (quiet_returns _ _ _ _ Hquiet Hcb Hthrown).
    + exists (Eff.Throw e'), (failed callback e w1). split; [done|].
      split; [congruence|]. split; [congruence|]. split; [by rewrite Ht2|].
      split; [done|]. split.
      * exists f', e. split; [done|]. split; [done|].
        split; [apply Hlast; rewrite Hcb'; by eexists|]. congruence.
      * intros Hquiet. destruct (quiet_returns _ _ _ _ Hquiet Hcb' Hthrown').
Qed.

(** X17. Where nothing fails, the callback does not throw and the codes of
    the normalized dataset are pairwise different, a load of the MiniSearch
    revision (the table empty or [force] on) resolves to [true] and replaces
    the table; the description index is built from the new table only where
    there was none: an index built before the call stays, whatever the old
    table held. *)
Theorem mini_initializeData_loads (host : Js.Host) (force : bool)
    (callback : option ProgressCallback)
    (w : World CodeKeyed.RawRecord CodeKeyed.CustomsRecord unit
           MiniSearchRev.MiniSearchIndex) :
  window w = true → faults w = [] → force = true ∨ table w = [] →
  NoDup (CodeKeyed.code <$> (CodeKeyed.normalize host <$> dataset w)) →
  quiet callback →
  ∃ w',
    MiniSearchRev.initializeData host force callback w = (Eff.Normal true, w') ∧
    table w' = CodeKeyed.normalize host <$> dataset w ∧
    descriptionIndex w'
    = Some (match descriptionIndex w with
            | Some index => index
            | None => MiniLoadFacts.documents (table w')
            end) ∧
    console w' = console w.
Proof.
  intros Hwin Hfaults Hfresh Hnd Hquiet.
  unfold MiniSearchRev.initializeData, MiniSearchRev.Service.
  rewrite run_bind. unfold Eff.gets. rewrite Hwin. cbn [negb].
  destruct (MiniLoadFacts.mini_initializeData_body host force callback w Hwin)
    as (r & w1 & Hrun & _ & _ & Hcons1 & Hkeep & _ & Hr & Hsure).
  erewrite (try_catch_run _ _ w); [|exact Hrun].
  rewrite (Hsure Hfaults Hfresh Hnd Hquiet) in Hr |- *.
  destruct Hr as (Ht & _ & Hidx & _).
  exists w1. split; [done|]. split; [done|]. split; [|done].
  destruct (descriptionIndex w) as [index|] eqn:Hindex.
  - by apply Hkeep.
  - by apply Hidx.
Qed.

(** A browser whose table and index hold one old row, and the dataset of
    three records. *)
Definition staleStore : World CodeKeyed.RawRecord CodeKeyed.CustomsRecord unit
    MiniSearchRev.MiniSearchIndex :=
  mkWorld true [rawSample "0101" "Kuaj"; rawSample "01" "Kafshe"; rawSample "02" "Mish"]
    [TreeClaims.sample "99" "E vjeter"] [] 1000 [] [] None
    (Some [("99", "E vjeter")]) 0.

Lemma mini_initializeData_loads_witness :
  ∃ w',
    MiniSearchRev.initializeData QueryClaims.sampleHost true listener staleStore
    = (Eff.Normal true, w') ∧
    table w' = CodeKeyed.normalize QueryClaims.sampleHost <$> dataset staleStore ∧
    descriptionIndex w'
    = Some (match descriptionIndex staleStore with
            | Some index => index
            | None => MiniLoadFacts.documents (table w')
            end) ∧
    console w' = console staleStore.
Proof.
  apply (mini_initializeData_loads QueryClaims.sampleHost true listener staleStore).
  - reflexivity.
  - reflexivity.
  - by left.
  - apply (bool_decide_unpack (NoDup (CodeKeyed.code <$>
      (CodeKeyed.normalize QueryClaims.sampleHost <$> dataset staleStore)))).
    vm_compute. exact I.
  - intros f reports [= <-]. reflexivity.
Defined.

End LoadExtras.

Module QueryExtras.

Section Queries.
Context {Raw Row Key : Type} `{Countable Key}.
Context (key : Row → Key) (codeOf descriptionOf : Row → string).
Context (rootOf : Row → option Key) (highlightedDescriptionOf : Row → option string).
Context (withHighlightedDescription : option string → Row → Row).
Context (keyOrder : Row → Row → Z).
Context (keyOfNumber : Z → option Key) (keyOfString : string → option Key).
Context (buildCachedData : nat → list Row → option (Flex.CachedData (Row := Row) (Key := Key))).
Context (flexSearch : Flex.FlexIndex (Key := Key) → string → option Z → RawNode).

Notation ServiceWorld :=
  (World Raw Row (Flex.CachedData (Row := Row) (Key := Key)) (Flex.FlexIndex (Key := Key))).
Notation getAllData := (Flex.getAllData (Raw := Raw) keyOrder buildCachedData).
Notation searchByFields :=
  (Flex.searchByFields (Raw := Raw) key codeOf descriptionOf rootOf highlightedDescriptionOf
     withHighlightedDescription keyOrder keyOfNumber keyOfString buildCachedData
     flexSearch).

(** X18. [searchByFields] and [getAllData] of the FlexSearch revisions
    always resolve, whatever fails underneath, and they only read: the table,
    the dataset and the progress reports are as before and nothing was
    written; diagnostics are only appended. *)
Theorem searchByFields_answers (w : ServiceWorld) (idPrefix descQuery : string)
    (parentLimit itemLimit : Z) :
  (∃ rows w',
     searchByFields idPrefix descQuery parentLimit itemLimit w = (Eff.Normal rows, w') ∧
     table w' = table w ∧ dataset w' = dataset w ∧ writes w' = writes w ∧
     progress w' = progress w ∧ console w `prefix_of` console w') ∧
  (∃ rows w',
     getAllData w = (Eff.Normal rows, w') ∧
     table w' = table w ∧ dataset w' = dataset w ∧ writes w' = writes w ∧
     progress w' = progress w ∧ console w `prefix_of` console w').
Proof.
  split.
  - destruct (searchByFields_returns key codeOf descriptionOf rootOf
                highlightedDescriptionOf withHighlightedDescription keyOrder keyOfNumber
                keyOfString buildCachedData flexSearch w idPrefix descQuery parentLimit
                itemLimit) as (rows & w' & Hrun & Hst).
    destruct Hst as (_ & ? & ? & _ & ? & ? & ? & _). by exists rows, w'.
  - destruct (getAllData_returns (Raw := Raw) keyOrder buildCachedData w)
      as (rows & w' & Hrun & Hst).
    destruct Hst as (_ & ? & ? & _ & ? & ? & ? & _). by exists rows, w'.
Qed.

(** X19. [getAllData] is memoized: a second call right after the first
    returns the same rows and changes nothing, not even the fault plan; where
    there is a window the first call leaves a cache behind, also when it
    failed. *)
Theorem getAllData_memo (w : ServiceWorld) :
  ∃ rows w',
    getAllData w = (Eff.Normal rows, w') ∧
    getAllData w' = (Eff.Normal rows, w') ∧
    (window w = true → ∃ c, allData w' = Some c ∧ Flex.cache c = rows).
Proof.
  rewrite getAllData_eq.
  destruct (ensureAllDataCache_cases keyOrder buildCachedData w)
    as [(c & Hc & Hrun)|[(Hc & Hwin & Hrun)|[(Hc & Hwin & used & rest & c & _ & _ & _ & Hrun)|
        (Hc & Hwin & used & rest & e & _ & _ & Hrun)]]].
  - exists (Flex.cache c), w. split; [done|]. rewrite getAllData_eq. split; [done|].
    intros _. by exists c.
  - exists [], w. split; [done|]. rewrite getAllData_eq. split; [done|]. congruence.
  - eexists _, _. split; [exact Hrun|]. rewrite getAllData_eq.
    split; [by apply ensureAllDataCache_cached|]. intros _. by exists c.
  - eexists _, _. split; [exact Hrun|]. rewrite getAllData_eq.
    split; [by apply (ensureAllDataCache_cached _ _ _ Flex.emptyCachedData)|].
    intros _. by exists Flex.emptyCachedData.
Qed.


End Queries.



(** A store whose table holds two rows that name each other as parent. *)
Definition loopStore : World ParentIdRev.RawRecord ParentIdRev.CustomsRecord
    (Flex.CachedData (Row := ParentIdRev.CustomsRecord) (Key := Z))
    (Flex.FlexIndex (Key := Z)) :=
  mkWorld true [] ParentRootExtras.loopScenario [] 1000 [] [] None None 0.

(** X21. In the revision with parent links a cycle of parent links in the
    table makes [getAllData] return nothing, whatever the size of the stack:
    building the cache overflows the stack, the [RangeError] is caught and
    logged, and the empty cache is stored. *)
Theorem getAllData_cycle
    (w : World ParentIdRev.RawRecord ParentIdRev.CustomsRecord
           (Flex.CachedData (Row := ParentIdRev.CustomsRecord) (Key := Z))
           (Flex.FlexIndex (Key := Z)))
    (row : ParentIdRev.CustomsFlatRow) :
  window w = true → allData w = None → faults w = [] →
  NoDup (ParentIdRev.id <$> table w) → row ∈ table w →
  (∀ n, ParentIdRootFacts.parentChain (ParentIdRev.byIdOf (table w)) n row) →
  ParentIdRev.getAllData w
  = (Eff.Normal [],
     setAllData (Some Flex.emptyCachedData)
       (setConsole (console w ++ [ErrorBuildingCache Eff.RangeError]) w)).
Proof.
  intros Hwin Hc Hf Hnd Hrow Hchain. unfold ParentIdRev.getAllData.
  rewrite getAllData_eq. apply ensureAllDataCache_overflow; [done..|].
  pose proof (sort_Permutation ParentIdRev.byIdOrder (table w)) as Hperm.
  apply (ParentIdRootFacts.buildCachedData_cycle _ row).
  - by rewrite Hperm.
  - by rewrite Hperm.
  - rewrite (ParentIdRootFacts.byIdOf_Permutation _ (table w)); [done| |done].
    by rewrite Hperm.
Qed.

Lemma getAllData_cycle_witness :
  ParentIdRev.getAllData loopStore
  = (Eff.Normal [],
     setAllData (Some Flex.emptyCachedData)
       (setConsole (console loopStore ++ [ErrorBuildingCache Eff.RangeError]) loopStore)).
Proof.
  apply (getAllData_cycle loopStore (TreeExtras.idRow 1 (Some 2) "01" "Kafshe")).
  - reflexivity.
  - reflexivity.
  - reflexivity.
  - apply (bool_decide_unpack (NoDup (ParentIdRev.id <$> table loopStore))).
    vm_compute. exact I.
  - left.
  - intros n. apply ParentRootExtras.loopScenario_chain.
Defined.

End QueryExtras.

Module WalkExtras.
Import CodeKeyed MiniSearchRev MiniQueryFacts.

(** The example of the specification in the table of the MiniSearch
    revision, with nothing set to fail. *)
Definition miniStore : World RawRecord CustomsRecord unit MiniSearchIndex :=
  mkWorld true [] TreeClaims.scenario [] 1000 [] [] None None 0.

(** X22. Where no read fails, [findExistingParent], which asks the table
    for every proper prefix from the longest to the shortest, returns what
    [findParentCode] returns on the set of the codes of the table, and leaves
    the world as it is. *)
Theorem findExistingParent_agrees (w : World RawRecord CustomsRecord unit MiniSearchIndex)
    (c : string) :
  faults w = [] →
  findExistingParent c w
  = (Eff.Normal (findParentCode c (presentCodes (table w))), w).
Proof.
  intros Hf. unfold findExistingParent, findParentCode.
  generalize (String.length c - 1)%nat. intros i.
  induction i as [|i IH]; cbn [findExistingParentFrom findParentCodeFrom]; [done|].
  unfold Service. rewrite run_bind, getByKey_quiet by done.
  pose proof (head_filter_code (table w) (Js.slice0 c (S i))) as Hhead.
  destruct (head (filter (λ r, code r = Js.slice0 c (S i)) (table w))) as [r|].
  - rewrite decide_True; [done|]. apply Hhead. by eexists.
  - rewrite decide_False; [exact IH|]. intros Hin. apply Hhead in Hin as [? [=]].
Qed.

Lemma findExistingParent_agrees_witness :
  findExistingParent "010110" miniStore
  = (Eff.Normal (findParentCode "010110" (presentCodes (table miniStore))), miniStore).
Proof. apply (findExistingParent_agrees miniStore "010110"). reflexivity. Defined.

(** X23. Where no read fails, [getLowestExistingAncestor] returns the
    longest non-empty prefix of its argument, the argument itself included,
    that is a code of the table, and [null] where there is none; the loop
    ends within the steps the length of the argument allows. *)
Theorem getLowestExistingAncestor_longest
    (w : World RawRecord CustomsRecord unit MiniSearchIndex) (s : string) :
  faults w = [] →
  ∃ r, getLowestExistingAncestor s w = (Eff.Normal r, w) ∧
       match r with
       | Some a =>
           a ∈ presentCodes (table w) ∧ String.prefix a s = true ∧
           (0 < String.length a)%nat ∧
           ∀ q, q ∈ presentCodes (table w) → String.prefix q s = true →
                (0 < String.length q)%nat → (String.length q ≤ String.length a)%nat
       | None =>
           ∀ q, q ∈ presentCodes (table w) → String.prefix q s = true →
                String.length q = 0%nat
       end.
Proof.
  intros Hf. destruct (getLowestExistingAncestor_quiet w s Hf) as (r & Hrun & Hr).
  exists r. split; [done|]. by destruct r.
Qed.

Lemma getLowestExistingAncestor_longest_witness :
  ∃ r, getLowestExistingAncestor "010110" miniStore = (Eff.Normal r, miniStore) ∧
       match r with
       | Some a =>
           a ∈ presentCodes (table miniStore) ∧ String.prefix a "010110" = true ∧
           (0 < String.length a)%nat ∧
           ∀ q, q ∈ presentCodes (table miniStore) → String.prefix q "010110" = true →
                (0 < String.length q)%nat → (String.length q ≤ String.length a)%nat
       | None =>
           ∀ q, q ∈ presentCodes (table miniStore) → String.prefix q "010110" = true →
                String.length q = 0%nat
       end.
Proof. apply (getLowestExistingAncestor_longest miniStore "010110"). reflexivity. Defined.

(** X24. Where no read fails, [getPath] returns the chain of the ancestors
    of the target among the codes of the table, the farthest first, followed
    by the target itself: the first entry has no parent code, every later
    entry has the entry before it as parent code, and every ancestor is a
    code of the table and a proper prefix of the target. The loop ends within
    the steps the length of the target allows. *)
Theorem getPath_chain (w : World RawRecord CustomsRecord unit MiniSearchIndex)
    (target : string) :
  faults w = [] →
  ∃ l, getPath target w = (Eff.Normal (l ++ [target]), w) ∧
       ancestors (presentCodes (table w)) target l ∧
       ∀ a, a ∈ l →
            a ∈ presentCodes (table w) ∧ String.prefix a target = true ∧
            (0 < String.length a < String.length target)%nat.
Proof.
  intros Hf. unfold getPath.
  destruct (pathLoop_quiet w (S (String.length target)) target [target] Hf)
    as (l & Hrun & Hl); [lia|].
  exists l. split; [done|]. split; [done|].
  intros a Ha. by apply (ancestors_elem_of _ _ l).
Qed.

Lemma getPath_chain_witness :
  ∃ l, getPath "0101" miniStore = (Eff.Normal (l ++ ["0101"]), miniStore) ∧
       ancestors (presentCodes (table miniStore)) "0101" l ∧
       ∀ a, a ∈ l →
            a ∈ presentCodes (table miniStore) ∧ String.prefix a "0101" = true ∧
            (0 < String.length a < String.length "0101")%nat.
Proof. apply (getPath_chain miniStore "0101"). reflexivity. Defined.

(** X25. Where no read fails, [getDirectChildrenRecords] returns exactly
    the rows of the table whose parent code in the whole table is the given
    code, in the order of [compareRecords]: looking for the parent among the
    rows that start with the code loses nothing, and a code the table does
    not hold has no children. *)
Theorem getDirectChildrenRecords_children
    (w : World RawRecord CustomsRecord unit MiniSearchIndex) (parentCode : string) :
  faults w = [] →
  ∃ rows,
    getDirectChildrenRecords parentCode w = (Eff.Normal rows, w) ∧
    rows = Js.sort compareRecords
             (filter (λ r, findParentCode (code r) (presentCodes (table w))
                           = Some parentCode)
                (Js.sort (byCodeOrder code) (table w))) ∧
    (∀ r, r ∈ rows ↔
          r ∈ table w ∧
          findParentCode (code r) (presentCodes (table w)) = Some parentCode) ∧
    (parentCode ∉ presentCodes (table w) → rows = []).
Proof.
  intros Hf. eexists. split; [by apply getDirectChildrenRecords_quiet|].
  split; [done|]. split.
  - intros r. rewrite sort_elem_of, list_elem_of_filter, sort_elem_of. tauto.
  - intros Hout. rewrite filter_none; [done|]. intros r _ Hp.
    apply Hout. by apply (CodeKeyedFacts.findParentCode_in (code r)).
Qed.

Lemma getDirectChildrenRecords_children_witness :
  ∃ rows,
    getDirectChildrenRecords "01" miniStore = (Eff.Normal rows, miniStore) ∧
    rows = Js.sort compareRecords
             (filter (λ r, findParentCode (code r) (presentCodes (table miniStore))
                           = Some "01")
                (Js.sort (byCodeOrder code) (table miniStore))) ∧
    (∀ r, r ∈ rows ↔
          r ∈ table miniStore ∧
          findParentCode (code r) (presentCodes (table miniStore)) = Some "01") ∧
    ("01" ∉ presentCodes (table miniStore) → rows = []).
Proof. apply (getDirectChildrenRecords_children miniStore "01"). reflexivity. Defined.

End WalkExtras.

Module MiniQueryExtras.
Import CodeKeyed MiniSearchRev.

(** X26. [searchByFields] and [getAllData] of the MiniSearch revision
    always resolve, whatever fails underneath and whatever the search library
    returns: the loops that walk up the prefixes of a code end because every
    parent found is shorter than the code, and every failure is caught. They
    only read: the table, the dataset and the progress reports are as before
    and nothing was written; diagnostics are only appended. *)
Theorem mini_searchByFields_answers
    (miniSearch : MiniSearchIndex → string → list SearchResult)
    (highlightTerm : string → string → option string)
    (w : World RawRecord CustomsRecord unit MiniSearchIndex)
    (idPrefix descQuery : string) :
  (∃ rows w',
     searchByFields miniSearch highlightTerm idPrefix descQuery w = (Eff.Normal rows, w') ∧
     table w' = table w ∧ dataset w' = dataset w ∧ writes w' = writes w ∧
     progress w' = progress w ∧ console w `prefix_of` console w') ∧
  (∃ rows w',
     getAllData w = (Eff.Normal rows, w') ∧
     table w' = table w ∧ dataset w' = dataset w ∧ writes w' = writes w ∧
     progress w' = progress w ∧ console w `prefix_of` console w').
Proof.
  split.
  - destruct (MiniSteadyFacts.mini_searchByFields_returns miniSearch highlightTerm w
                idPrefix descQuery) as (rows & w' & Hrun & Hst).
    destruct Hst as (_ & ? & ? & _ & ? & ? & ? & _). by exists rows, w'.
  - unfold getAllData.
    destruct (steady_caught
      (getDb;; rows ← toArrayByCode code; mret rows)
      (λ error, log (ErrorFetchingAll error);; mret []) w) as (rows & w' & Hrun & Hst).
    + unfold toArrayByCode. repeat steady_step.
    + intros e w1. eexists [], _. split; [reflexivity|].
      repeat split; [|done]. cbn. by apply prefix_app_r.
    + destruct Hst as (_ & ? & ? & _ & ? & ? & ? & _). by exists rows, w'.
Qed.

(** X27. A search by code alone in the MiniSearch revision, where nothing
    fails and the codes of the table are pairwise different: [searchByFields]
    returns what [getSubtreeWithAncestors] returns for the trimmed prefix and
    leaves the world as it is. The rows are rows of the table, in the order of
    [compareRecords], no code twice; every row of the table whose code starts
    with the prefix is among them, and the answer is empty exactly when the
    table has no such row. *)
Theorem searchByFields_code_only
    (miniSearch : MiniSearchIndex → string → list SearchResult)
    (highlightTerm : string → string → option string)
    (w : World RawRecord CustomsRecord unit MiniSearchIndex) (idPrefix : string) :
  window w = true → faults w = [] → NoDup (code <$> table w) →
  Js.trim idPrefix ≠ "" →
  ∃ rows,
    searchByFields miniSearch highlightTerm idPrefix "" w = (Eff.Normal rows, w) ∧
    getSubtreeWithAncestors (Js.trim idPrefix) w = (Eff.Normal rows, w) ∧
    (∀ r, r ∈ rows → r ∈ table w) ∧
    NoDup (code <$> rows) ∧
    Sorted (notAfter compareRecords) rows ∧
    (∀ r, r ∈ table w → Js.startsWith (code r) (Js.trim idPrefix) = true → r ∈ rows) ∧
    (rows = [] ↔
     ∀ r, r ∈ table w → Js.startsWith (code r) (Js.trim idPrefix) = false).
Proof.
  intros Hwin Hf Hnd Hprefix.
  destruct (MiniSubtreeFacts.getSubtreeWithAncestors_quiet w (Js.trim idPrefix) Hwin Hf)
    as (rows & Hrun & Hin & Hndr & Hsorted & Hsub & Hempty).
  exists rows. split; [|split; [done|split; [done|split; [done|split; [done|split]]]]].
  - unfold searchByFields, Service. rewrite run_bind. unfold Eff.gets.
    rewrite Hwin. cbn [negb]. cbn zeta.
    assert ((0 <? String.length (Js.trim idPrefix))%nat = true) as ->.
    { apply Nat.ltb_lt. destruct (Js.trim idPrefix); [done|cbn; lia]. }
    change (Js.trim "") with "". cbn [String.length Nat.ltb Nat.leb negb andb].
    erewrite (try_catch_run _ _ w); [|exact Hrun]. done.
  - intros r Hr Hstart. specialize (Hsub r Hr Hstart).
    apply list_elem_of_fmap in Hsub as (r' & Hcode & Hr').
    by rewrite (key_inj_rows code (table w) Hnd r r' Hr (Hin r' Hr') Hcode).
  - done.
Qed.

Lemma searchByFields_code_only_witness :
  ∃ rows,
    searchByFields QueryClaims.sampleMiniSearch QueryClaims.sampleHighlight " 01 " ""
      WalkExtras.miniStore = (Eff.Normal rows, WalkExtras.miniStore) ∧
    getSubtreeWithAncestors (Js.trim " 01 ") WalkExtras.miniStore
    = (Eff.Normal rows, WalkExtras.miniStore) ∧
    (∀ r, r ∈ rows → r ∈ table WalkExtras.miniStore) ∧
    NoDup (code <$> rows) ∧
    Sorted (notAfter compareRecords) rows ∧
    (∀ r, r ∈ table WalkExtras.miniStore →
          Js.startsWith (code r) (Js.trim " 01 ") = true → r ∈ rows) ∧
    (rows = [] ↔
     ∀ r, r ∈ table WalkExtras.miniStore →
          Js.startsWith (code r) (Js.trim " 01 ") = false).
Proof.
  apply (searchByFields_code_only QueryClaims.sampleMiniSearch QueryClaims.sampleHighlight
           WalkExtras.miniStore " 01 ").
  - reflexivity.
  - reflexivity.
  - apply (bool_decide_unpack (NoDup (code <$> table WalkExtras.miniStore))).
    vm_compute. exact I.
  - vm_compute. discriminate.
Defined.

End MiniQueryExtras.

Module ResultExtras.

Section Results.
Context {Raw Row Key : Type} `{Countable Key}.
Context (key : Row → Key) (rootOf : Row → option Key).
Context (highlightedDescriptionOf : Row → option string).
Context (withHighlightedDescription : option string → Row → Row).

Notation ServiceWorld :=
  (World Raw Row (Flex.CachedData (Row := Row) (Key := Key)) (Flex.FlexIndex (Key := Key))).
Notation resultRow := (Flex.resultRow key highlightedDescriptionOf withHighlightedDescription).

(** X28. [buildSearchResults] on a cache as [buildCachedData] builds it
    (the keys pairwise different, every row with a root, the buckets grouping
    the rows by root): no key comes twice in the result; every row of the
    result is a cached row, with its highlight, that has the root of some
    cached row whose key is among the matched ids; and where the result is
    shorter than [itemLimit], every such row is in it: a match brings the
    whole group of its root. *)
Theorem buildSearchResults_groups (w : ServiceWorld) (c : Flex.CachedData)
    (ids : gset Key) (hl : gmap Key string) (itemLimit : Z) :
  allData w = Some c → wellFormed key rootOf c →
  (∀ h r, key (withHighlightedDescription h r) = key r) →
  ∃ rows,
    Flex.buildSearchResults key rootOf highlightedDescriptionOf withHighlightedDescription
      ids hl itemLimit w = (Eff.Normal rows, w) ∧
    NoDup (key <$> rows) ∧
    (∀ x, x ∈ rows →
          ∃ r m, x = resultRow hl r ∧ r ∈ Flex.cache c ∧ m ∈ Flex.cache c ∧
                 key m ∈ ids ∧ rootOf r = rootOf m) ∧
    (Z.of_nat (length rows) < itemLimit →
     ∀ r m, r ∈ Flex.cache c → m ∈ Flex.cache c → key m ∈ ids →
            rootOf r = rootOf m → resultRow hl r ∈ rows).
Proof.
  intros Hc Hwf Hkey.
  destruct (buildSearchResults_emitted key rootOf highlightedDescriptionOf
              withHighlightedDescription w c ids hl itemLimit Hc)
    as (emitted & Hrun & Hpre & Hfull).
  exists (resultRow hl <$> emitted). split; [done|].
  set (roots := Flex.matchedRootsOf key rootOf c ids) in *.
  assert (∀ r, r ∈ matchedRows c roots (Flex.rootOrder c) ↔
               r ∈ Flex.cache c ∧
               ∃ m, m ∈ Flex.cache c ∧ key m ∈ ids ∧ rootOf r = rootOf m) as Hrows.
  { intros r. rewrite (matchedRows_elem key rootOf c roots r Hwf). split.
    - intros (Hr & root & Hroot & Hin). split; [done|].
      apply (matchedRootsOf_elem key rootOf c ids root Hwf) in Hin as (m & Hm & Hid & Hm').
      exists m. split; [done|]. split; [done|]. congruence.
    - intros (Hr & m & Hm & Hid & Hroot). split; [done|].
      pose proof Hwf as (_ & Hsome & _). destruct (Hsome m Hm) as [root Hm'].
      exists root. split; [congruence|].
      apply (matchedRootsOf_elem key rootOf c ids root); [done|by exists m]. }
  split; [|split].
  - assert (key <$> (resultRow hl <$> emitted) = key <$> emitted) as ->.
    { rewrite <- list_fmap_compose. apply list_fmap_ext. intros i r _. apply Hkey. }
    destruct Hpre as [k Hk].
    pose proof (matchedRows_NoDup key rootOf c roots Hwf) as Hnd.
    rewrite Hk, fmap_app in Hnd. by apply NoDup_app in Hnd as [? _].
  - intros x (r & -> & Hr)%list_elem_of_fmap.
    assert (r ∈ matchedRows c roots (Flex.rootOrder c)) as Hin.
    { destruct Hpre as [k ->]. apply elem_of_app. by left. }
    apply Hrows in Hin as (Hcache & m & Hm & Hid & Hroot). by exists r, m.
  - rewrite length_fmap. intros Hlt r m Hr Hm Hid Hroot.
    apply list_elem_of_fmap_2. rewrite (Hfull Hlt). apply Hrows. split; [done|].
    by exists m.
Qed.

End Results.

(** The example of the specification behind a store whose cache is built. *)
Definition cachedStore : World CodeKeyed.RawRecord CodeKeyed.CustomsRecord
    (Flex.CachedData (Row := CodeKeyed.CustomsRecord) (Key := string))
    (Flex.FlexIndex (Key := string)) :=
  mkWorld true [] TreeClaims.scenario [] 1000 [] []
    (Some (FlexCodeRev.buildCachedData TreeClaims.scenario)) None 0.

Lemma buildSearchResults_groups_witness :
  ∃ rows,
    FlexCodeRev.buildSearchResults {["0101"]} ∅ 10 cachedStore
    = (Eff.Normal rows, cachedStore) ∧
    NoDup (CodeKeyed.code <$> rows) ∧
    (∀ x, x ∈ rows →
          ∃ r m, x = Flex.resultRow CodeKeyed.code CodeKeyed.highlightedDescription
                       CodeKeyed.withHighlightedDescription ∅ r ∧
                 r ∈ Flex.cache (FlexCodeRev.buildCachedData TreeClaims.scenario) ∧
                 m ∈ Flex.cache (FlexCodeRev.buildCachedData TreeClaims.scenario) ∧
                 CodeKeyed.code m ∈ ({["0101"]} : gset string) ∧
                 CodeKeyed.rootCode r = CodeKeyed.rootCode m) ∧
    (Z.of_nat (length rows) < 10 →
     ∀ r m, r ∈ Flex.cache (FlexCodeRev.buildCachedData TreeClaims.scenario) →
            m ∈ Flex.cache (FlexCodeRev.buildCachedData TreeClaims.scenario) →
            CodeKeyed.code m ∈ ({["0101"]} : gset string) →
            CodeKeyed.rootCode r = CodeKeyed.rootCode m →
            Flex.resultRow CodeKeyed.code CodeKeyed.highlightedDescription
              CodeKeyed.withHighlightedDescription ∅ r ∈ rows).
Proof.
  apply (buildSearchResults_groups CodeKeyed.code CodeKeyed.rootCode
           CodeKeyed.highlightedDescription CodeKeyed.withHighlightedDescription
           cachedStore (FlexCodeRev.buildCachedData TreeClaims.scenario) {["0101"]} ∅ 10).
  - reflexivity.
  - apply CacheFacts.buildCachedData_wellFormed.
    apply (bool_decide_unpack (NoDup (CodeKeyed.code <$> TreeClaims.scenario))).
    vm_compute. exact I.
  - reflexivity.
Defined.

(** X29. A search by code alone in the code-keyed FlexSearch revision,
    from a store without cache, where nothing fails and the codes of the table
    are pairwise different. The call builds the cache from the table and
    leaves the table as it is. No code comes twice in the result; every row
    returned is a cached row that has the root of some cached row whose code
    starts with the trimmed prefix; and where neither limit cuts (fewer rows
    than [itemLimit], at most [4 * parentLimit] codes with the prefix), every
    such row is returned: a search by code brings the whole groups of the
    roots of the matching codes. *)
Theorem searchByFields_by_code (printInteger : Z → string)
    (flexSearch : list (string * string) → string → option Z → RawNode)
    (w : World CodeKeyed.RawRecord CodeKeyed.CustomsRecord
           (Flex.CachedData (Row := CodeKeyed.CustomsRecord) (Key := string))
           (Flex.FlexIndex (Key := string)))
    (idPrefix : string) (parentLimit itemLimit : Z) :
  window w = true → faults w = [] → allData w = None →
  NoDup (CodeKeyed.code <$> table w) → Js.trim idPrefix ≠ "" →
  ∃ rows w',
    FlexCodeRev.searchByFields printInteger flexSearch idPrefix "" parentLimit itemLimit w
    = (Eff.Normal rows, w') ∧
    table w' = table w ∧
    allData w'
    = Some (FlexCodeRev.buildCachedData (Js.sort (byCodeOrder CodeKeyed.code) (table w))) ∧
    NoDup (CodeKeyed.code <$> rows) ∧
    (∀ x, x ∈ rows →
       ∃ m, x ∈ Flex.cache (FlexCodeRev.buildCachedData
                              (Js.sort (byCodeOrder CodeKeyed.code) (table w))) ∧
            m ∈ Flex.cache (FlexCodeRev.buildCachedData
                              (Js.sort (byCodeOrder CodeKeyed.code) (table w))) ∧
            Js.startsWith (CodeKeyed.code m) (Js.trim idPrefix) = true ∧
            CodeKeyed.rootCode x = CodeKeyed.rootCode m) ∧
    (Z.of_nat (length rows) < itemLimit →
     Z.of_nat (length (filter (λ r, Js.startsWith (CodeKeyed.code r) (Js.trim idPrefix) = true)
                         (table w))) ≤ parentLimit * 4 →
     ∀ x m,
       x ∈ Flex.cache (FlexCodeRev.buildCachedData
                         (Js.sort (byCodeOrder CodeKeyed.code) (table w))) →
       m ∈ Flex.cache (FlexCodeRev.buildCachedData
                         (Js.sort (byCodeOrder CodeKeyed.code) (table w))) →
       Js.startsWith (CodeKeyed.code m) (Js.trim idPrefix) = true →
       CodeKeyed.rootCode x = CodeKeyed.rootCode m → x ∈ rows).
Proof.
  intros Hwin Hf Hc Hnd Hprefix.
  set (sorted := Js.sort (byCodeOrder CodeKeyed.code) (table w)).
  set (c := FlexCodeRev.buildCachedData sorted).
  set (prefix := Js.trim idPrefix) in *.
  assert (wellFormed CodeKeyed.code CodeKeyed.rootCode c) as Hwf.
  { apply CacheFacts.buildCachedData_wellFormed. unfold sorted. by rewrite sort_Permutation. }
  assert (∀ m, m ∈ Flex.cache c →
               ∃ t, t ∈ table w ∧ CodeKeyed.code t = CodeKeyed.code m) as Hcached.
  { intros m Hm. destruct (FlexCodeFacts.buildState_sound sorted) as (_ & Hrows & _).
    destruct (Forall2_elem_of_l _ _ _ _ Hrows Hm) as (t & Ht & root & -> & _).
    exists t. split; [|done].
    apply (proj1 (sort_elem_of _ _ _)) in Ht. by apply (proj1 (sort_elem_of _ _ _)) in Ht. }
  unfold FlexCodeRev.searchByFields, Flex.searchByFields.
  rewrite run_bind. unfold Eff.gets at 1. rewrite Hwin. cbn [negb]. cbn zeta.
  fold prefix.
  assert ((0 <? String.length prefix)%nat = true) as ->.
  { apply Nat.ltb_lt. destruct prefix; [done|cbn; lia]. }
  change (Js.trim "") with "". cbn [String.length Nat.ltb Nat.leb negb andb].
  assert (∀ r : CodeKeyed.CustomsRecord,
            Flex.resultRow CodeKeyed.code CodeKeyed.highlightedDescription
              CodeKeyed.withHighlightedDescription ∅ r = r) as Hsame.
  { intros r. unfold Flex.resultRow. rewrite lookup_empty. by destruct r. }
  set (w1 := setAllData (Some c) w).
  set (matches := filter (λ r, Js.startsWith (CodeKeyed.code r) prefix = true) sorted).
  set (ids := (list_to_set (CodeKeyed.code <$>
                 take (Z.to_nat (parentLimit * Flex.CODE_SEARCH_MULTIPLIER)) matches)
               : gset string)).
  assert (∀ m, CodeKeyed.code m ∈ ids → Js.startsWith (CodeKeyed.code m) prefix = true)
    as Hids.
  { intros m. unfold ids. rewrite elem_of_list_to_set, list_elem_of_fmap.
    intros (t & -> & Ht). apply elem_of_take in Ht as (i & Ht & _).
    apply list_elem_of_lookup_2 in Ht. unfold matches in Ht.
    by apply list_elem_of_filter in Ht as [? _]. }
  rewrite run_try_catch.
  erewrite run_bind_normal;
    [|apply (ensureAllDataCache_built (byCodeOrder CodeKeyed.code)
               (λ _, Some ∘ FlexCodeRev.buildCachedData) w c Hc Hwin Hf eq_refl)].
  fold w1. case_decide as Hlen.
  { apply nil_length_inv in Hlen. assert (Flex.cache c = []) as Hnil by exact Hlen.
    eexists [], _. split; [reflexivity|].
    split; [done|]. split; [done|]. split; [constructor|].
    split; [by intros x ?%elem_of_nil|].
    intros _ _ x m Hx. rewrite Hnil in Hx. by apply elem_of_nil in Hx. }
  erewrite run_bind_normal.
  2:{ erewrite run_bind_normal; [apply run_ret|].
      by apply (searchByCode_quiet CodeKeyed.code CodeKeyed.code
                  (byCodeOrder CodeKeyed.code) w1 prefix parentLimit). }
  erewrite run_bind_normal; [|apply run_ret].
  cbn [Flex.intersect fmap option_fmap option_map default].
  change (table w1) with (table w).
  rewrite (sort_sorted (byCodeOrder CodeKeyed.code)
             (Js.sort (byCodeOrder CodeKeyed.code) (table w)))
    by apply sort_Sorted, byCodeOrder_total.
  fold sorted. fold matches. fold ids.
  case_decide as Hsize.
  { apply size_empty_inv in Hsize. eexists [], _. split; [reflexivity|].
    split; [done|]. split; [done|]. split; [constructor|].
    split; [by intros x ?%elem_of_nil|].
    intros _ Hfew x m Hx Hm Hstart _. exfalso.
    destruct (Hcached m Hm) as (t & Ht & Hcode).
    apply (not_elem_of_empty (C := gset string) (CodeKeyed.code m)), Hsize. unfold ids.
    rewrite elem_of_list_to_set, take_ge.
    - rewrite <- Hcode. apply list_elem_of_fmap_2. unfold matches.
      apply list_elem_of_filter. split; [by rewrite Hcode|]. by apply sort_elem_of.
    - unfold matches, sorted. rewrite (sort_Permutation _ (table w)).
      unfold Flex.CODE_SEARCH_MULTIPLIER. lia. }
  destruct (buildSearchResults_emitted CodeKeyed.code CodeKeyed.rootCode
              CodeKeyed.highlightedDescription CodeKeyed.withHighlightedDescription
              w1 c ids (Flex.highlightsOf []) itemLimit eq_refl)
    as (emitted & Hrun & Hpre & Hfull).
  change (Flex.highlightsOf []) with (∅ : gmap string string) in Hrun.
  assert (Flex.resultRow CodeKeyed.code CodeKeyed.highlightedDescription
            CodeKeyed.withHighlightedDescription ∅ <$> emitted = emitted) as Hemitted.
  { rewrite <- (list_fmap_id emitted) at 2. apply list_fmap_ext. intros i r _. apply Hsame. }
  rewrite Hemitted in Hrun.
  exists emitted, w1.
  split; [change (Flex.highlightsOf []) with (∅ : gmap string string); by rewrite Hrun|].
  split; [done|]. split; [done|].
  set (roots := Flex.matchedRootsOf CodeKeyed.code CodeKeyed.rootCode c ids) in *.
  split; [|split].
  - destruct Hpre as [k Hk].
    pose proof (matchedRows_NoDup CodeKeyed.code CodeKeyed.rootCode c roots Hwf) as Hndm.
    rewrite Hk, fmap_app in Hndm. by apply NoDup_app in Hndm as [? _].
  - intros x Hx.
    assert (∀ l, emitted `prefix_of` l → x ∈ l) as Hmono.
    { intros l [k ->]. apply elem_of_app. by left. }
    pose proof (Hmono _ Hpre) as Hin.
    apply (matchedRows_elem CodeKeyed.code CodeKeyed.rootCode c roots x Hwf) in Hin
      as (Hcache & root & Hroot & Hin).
    apply (matchedRootsOf_elem CodeKeyed.code CodeKeyed.rootCode c ids root Hwf) in Hin
      as (m & Hm & Hid & Hm').
    exists m. split; [done|]. split; [done|]. split; [by apply Hids|congruence].
  - intros Hlt Hfew x m Hx Hm Hstart Hroot. rewrite (Hfull Hlt).
    apply (matchedRows_elem CodeKeyed.code CodeKeyed.rootCode c roots x Hwf).
    split; [done|].
    pose proof Hwf as (_ & Hsome & _). destruct (Hsome m Hm) as [root Hm'].
    exists root. split; [congruence|].
    apply (matchedRootsOf_elem CodeKeyed.code CodeKeyed.rootCode c ids root Hwf).
    exists m. split; [done|]. split; [|done].
    destruct (Hcached m Hm) as (t & Ht & Hcode). unfold ids.
    rewrite elem_of_list_to_set, take_ge.
    + rewrite <- Hcode. apply list_elem_of_fmap_2. unfold matches.
      apply list_elem_of_filter. split; [by rewrite Hcode|]. by apply sort_elem_of.
    + unfold matches, sorted. rewrite (sort_Permutation _ (table w)).
      unfold Flex.CODE_SEARCH_MULTIPLIER. lia.
Qed.

Lemma searchByFields_by_code_witness :
  ∃ rows w',
    FlexCodeRev.searchByFields pretty QueryClaims.sampleFlexSearch " 01 " "" 200 4000
      QueryClaims.scenarioStore
    = (Eff.Normal rows, w') ∧
    table w' = table QueryClaims.scenarioStore ∧
    allData w'
    = Some (FlexCodeRev.buildCachedData
              (Js.sort (byCodeOrder CodeKeyed.code) (table QueryClaims.scenarioStore))) ∧
    NoDup (CodeKeyed.code <$> rows) ∧
    (∀ x, x ∈ rows →
       ∃ m, x ∈ Flex.cache (FlexCodeRev.buildCachedData
                              (Js.sort (byCodeOrder CodeKeyed.code)
                                 (table QueryClaims.scenarioStore))) ∧
            m ∈ Flex.cache (FlexCodeRev.buildCachedData
                              (Js.sort (byCodeOrder CodeKeyed.code)
                                 (table QueryClaims.scenarioStore))) ∧
            Js.startsWith (CodeKeyed.code m) (Js.trim " 01 ") = true ∧
            CodeKeyed.rootCode x = CodeKeyed.rootCode m) ∧
    (Z.of_nat (length rows) < 4000 →
     Z.of_nat (length (filter (λ r, Js.startsWith (CodeKeyed.code r) (Js.trim " 01 ") = true)
                         (table QueryClaims.scenarioStore))) ≤ 200 * 4 →
     ∀ x m,
       x ∈ Flex.cache (FlexCodeRev.buildCachedData
                         (Js.sort (byCodeOrder CodeKeyed.code)
                            (table QueryClaims.scenarioStore))) →
       m ∈ Flex.cache (FlexCodeRev.buildCachedData
                         (Js.sort (byCodeOrder CodeKeyed.code)
                            (table QueryClaims.scenarioStore))) →
       Js.startsWith (CodeKeyed.code m) (Js.trim " 01 ") = true →
       CodeKeyed.rootCode x = CodeKeyed.rootCode m → x ∈ rows).
Proof.
  apply (searchByFields_by_code pretty QueryClaims.sampleFlexSearch
           QueryClaims.scenarioStore " 01 " 200 4000).
  - reflexivity.
  - reflexivity.
  - reflexivity.
  - apply (bool_decide_unpack (NoDup (CodeKeyed.code <$> table QueryClaims.scenarioStore))).
    vm_compute. exact I.
  - vm_compute. discriminate.
Defined.

End ResultExtras.

(** * The normalisation step of the code-keyed revisions *)

Module NormalizeExtras.

Import CodeKeyed.

(** The six duty rates of a record, each with the raw field it is read from. *)
Definition rates : list ((CustomsRecord → Js.number) * (RawRecord → Js.value)) :=
  [ (percentage, raw_percentage); (cefta, raw_cefta); (msa, raw_msa);
    (trmtl, raw_trmtl); (tvsh, raw_tvsh); (excise, raw_excise) ].

(** The optional fields read with [??], with the raw field and the default. *)
Definition defaulted
  : list ((CustomsRecord → Js.value) * (RawRecord → Js.value) * Js.value) :=
  [ (validFrom, raw_validFrom, Js.JString ""); (uomCode, raw_uomCode, Js.JNull);
    (fileUrl, raw_fileUrl, Js.JNull); (importMeasure, raw_importMeasure, Js.JNull);
    (exportMeasure, raw_exportMeasure, Js.JNull) ].

(** X30. The normalisation step of [initializeData] in the code-keyed
    revisions, on any raw record and whatever the host's conversions between
    strings and numbers do. Every duty rate of the normalised record is a
    finite number: the raw number where the raw field holds a finite number,
    0 where it holds [NaN], an infinity, [null] or nothing, and never [NaN].
    The code and the description are the raw strings, and the empty string
    where the raw field is [null] or missing. No optional field is left
    [undefined]: a missing one reads as its default, a present one is kept.
    The record carries no root code and no highlight yet. *)
Theorem normalize_coerces (host : Js.Host) (d : RawRecord) :
  Forall (λ '(rate, raw),
            Js.isFinite (rate (normalize host d)) = true ∧
            (∀ n, raw d = Js.JNumber n →
                  rate (normalize host d) = if Js.isFinite n then n else Js.zero) ∧
            (Js.isNullish (raw d) = true → raw d ≠ Js.JNull →
             rate (normalize host d) = Js.zero) ∧
            (raw d = Js.JNull → rate (normalize host d) = Js.zero)) rates ∧
  Forall (λ '(text, raw),
            (∀ s, raw d = Js.JString s → text (normalize host d) = s) ∧
            (Js.isNullish (raw d) = true → text (normalize host d) = ""))
         [ (code, raw_code); (description, raw_description) ] ∧
  Forall (λ '(field, raw, default),
            field (normalize host d) ≠ Js.JUndefined ∧
            (Js.isNullish (raw d) = true → field (normalize host d) = default) ∧
            (Js.isNullish (raw d) = false → field (normalize host d) = raw d)) defaulted ∧
  rootCode (normalize host d) = None ∧
  highlightedDescription (normalize host d) = None.
Proof.
  assert (∀ v, Js.isFinite (finiteOrZero host v) = true ∧
               (∀ n, v = Js.JNumber n →
                     finiteOrZero host v = if Js.isFinite n then n else Js.zero) ∧
               (Js.isNullish v = true → v ≠ Js.JNull → finiteOrZero host v = Js.zero) ∧
               (v = Js.JNull → finiteOrZero host v = Js.zero)) as Hrate.
  { intros v. unfold finiteOrZero. repeat split.
    - by destruct (Js.isFinite (Js.ToNumber host v)) eqn:E.
    - by intros n ->.
    - by destruct v.
    - by intros ->. }
  assert (∀ v, (∀ s, v = Js.JString s → stringOrEmpty host v = s) ∧
               (Js.isNullish v = true → stringOrEmpty host v = "")) as Htext.
  { intros v. unfold stringOrEmpty. split; [by intros s ->|by intros ->]. }
  assert (∀ v default, default ≠ Js.JUndefined →
            Js.nullish v default ≠ Js.JUndefined ∧
            (Js.isNullish v = true → Js.nullish v default = default) ∧
            (Js.isNullish v = false → Js.nullish v default = v)) as Hdef.
  { intros v default Hd. unfold Js.nullish. repeat split.
    - by destruct v.
    - by intros ->.
    - by intros ->. }
  split; [|split; [|split; [|done]]].
  - repeat constructor; cbn; apply Hrate.
  - repeat constructor; cbn; apply Htext.
  - repeat constructor; cbn; apply Hdef; done.
Qed.

End NormalizeExtras.
